(** * super-regex: timeout-bounded regular-expression matching

    A shallow embedding of [index.js] (the six public operations
    [isMatch], [firstMatch], [matches], [isMatchAsync], [firstMatchAsync],
    [matchesAsync] and their helpers) and the properties of its
    specification.

    What the repository imports and does not define is kept at its interface:
    - the regular-expression engine is an [Engine] (a search primitive);
    - [function-timeout] is [functionTimeout], deciding by the run time the
      environment reports for the guarded computation;
    - [make-asynchronous], [AbortController] and the host timers are
      [call_worker], the controllers and the timer table of the [World];
    - elapsed times ([time-span]) are inputs of the step they belong to. *)

From Stdlib Require Import QArith Qround Qabs Ascii String.
From stdpp Require Import base option list gmap strings.

Set Default Proof Using "Type".
Local Open Scope Z_scope.

(** ** JavaScript numbers

    A number is NaN, one of the two infinities, or a finite value.  Finite
    values are rationals: every IEEE double is one, and [Math.abs],
    [Math.trunc], [Math.ceil], [Math.max], [Math.min] and the comparisons
    are exact on doubles.  Subtraction is exact here; on doubles it is exact
    for integer values below 2^53, which is where the budget lives. *)
Module JsNum.

Inductive JsNumber : Type :=
  | NaN
  | PosInf
  | NegInf
  | Num (q : Q).

(** Truncation toward zero of a rational. *)
Definition Qtrunc (q : Q) : Z := Z.quot (Qnum q) (Zpos (Qden q)).

Definition Math_abs (x : JsNumber) : JsNumber :=
  match x with
  | NaN => NaN
  | PosInf | NegInf => PosInf
  | Num q => Num (Qabs q)
  end.

Definition Math_trunc (x : JsNumber) : JsNumber :=
  match x with
  | Num q => Num (inject_Z (Qtrunc q))
  | other => other
  end.

Definition Math_ceil (x : JsNumber) : JsNumber :=
  match x with
  | Num q => Num (inject_Z (Qceiling q))
  | other => other
  end.

Definition Math_max (x y : JsNumber) : JsNumber :=
  match x, y with
  | NaN, _ | _, NaN => NaN
  | PosInf, _ | _, PosInf => PosInf
  | NegInf, other | other, NegInf => other
  | Num a, Num b => if Qle_bool a b then Num b else Num a
  end.

Definition Math_min (x y : JsNumber) : JsNumber :=
  match x, y with
  | NaN, _ | _, NaN => NaN
  | NegInf, _ | _, NegInf => NegInf
  | PosInf, other | other, PosInf => other
  | Num a, Num b => if Qle_bool a b then Num a else Num b
  end.

Definition Number_isNaN (x : JsNumber) : bool :=
  match x with NaN => true | _ => false end.

Definition Number_isFinite (x : JsNumber) : bool :=
  match x with Num _ => true | _ => false end.

(** [x <= y] *)
Definition js_le (x y : JsNumber) : bool :=
  match x, y with
  | NaN, _ | _, NaN => false
  | NegInf, _ => true
  | _, PosInf => true
  | PosInf, _ => false
  | _, NegInf => false
  | Num a, Num b => Qle_bool a b
  end.

(** [x < y] *)
Definition js_lt (x y : JsNumber) : bool :=
  match x, y with
  | NaN, _ | _, NaN => false
  | PosInf, _ => false
  | _, NegInf => false
  | NegInf, _ => true
  | _, PosInf => true
  | Num a, Num b => negb (Qle_bool b a)
  end.

(** [x !== Number.POSITIVE_INFINITY] *)
Definition not_POSITIVE_INFINITY (x : JsNumber) : bool :=
  match x with PosInf => false | _ => true end.

(** [x - y] *)
Definition js_sub (x y : JsNumber) : JsNumber :=
  match x, y with
  | NaN, _ | _, NaN => NaN
  | PosInf, PosInf | NegInf, NegInf => NaN
  | PosInf, _ => PosInf
  | NegInf, _ => NegInf
  | Num _, PosInf => NegInf
  | Num _, NegInf => PosInf
  | Num a, Num b => Num (a - b)
  end.

Definition of_Z (z : Z) : JsNumber := Num (inject_Z z).

(** The numeric value a finite number stands for. *)
Definition same_number (x y : JsNumber) : Prop :=
  match x, y with
  | NaN, NaN | PosInf, PosInf | NegInf, NegInf => True
  | Num a, Num b => Qeq a b
  | _, _ => False
  end.

End JsNum.
Import JsNum.

(** ** Timeout normalizer ([normalizeTimeout], index.js 68-82)

    [None] is [undefined]. *)
Definition normalizeTimeout (timeout : option JsNumber) : option JsNumber :=
  match timeout with
  | None => None
  | Some t =>
      if Number_isNaN t then None
      else
        let normalized := Math_max (of_Z 1) (Math_trunc (Math_abs t)) in
        if negb (Number_isFinite normalized) then None
        else Some normalized
  end.

(** ** Errors and completions *)

(** An [Error] object, by the three fields the code reads or writes. *)
Record JsError : Type := mkError {
  err_name : string;
  err_message : string;
  err_code : option string;
}.

(** [isTimeoutError] of function-timeout: the error carries the code of an
    interrupted script. *)
Definition isTimeoutError (error : JsError) : bool :=
  bool_decide (err_code error = Some "ERR_SCRIPT_EXECUTION_TIMEOUT"%string).

(** What the host throws when a guarded script passes its deadline. *)
Definition scriptTimeoutError : JsError :=
  mkError "Error" "Script execution timed out." (Some "ERR_SCRIPT_EXECUTION_TIMEOUT"%string).

(** What the host throws when it is given a deadline it does not take.  The
    code looks at the code and the name of an error, never at its message. *)
Definition rangeError : JsError :=
  mkError "RangeError" "The value of options.timeout is out of range."
    (Some "ERR_OUT_OF_RANGE"%string).

(** index.js 134-135: the error [matches] builds itself when the total
    budget is used up. *)
Definition budgetTimeoutError : JsError :=
  mkError "Error" "Script execution timed out" (Some "ERR_SCRIPT_EXECUTION_TIMEOUT"%string).

(** index.js 120 and 292. *)
Definition globalFlagError : JsError :=
  mkError "Error" "The regex must have the global flag, otherwise, use `firstMatch()` instead" None.
Definition globalFlagErrorAsync : JsError :=
  mkError "Error" "The regex must have the global flag, otherwise, use `firstMatchAsync()` instead" None.

(** The rejection of a cancelled worker call. *)
Definition abortError : JsError :=
  mkError "AbortError" "This operation was aborted" None.

(** index.js 246-247. *)
Definition asyncTimeoutError : JsError :=
  mkError "TimeoutError" "Timed out" None.

(** Reading a property of something that is not an object. *)
Definition typeError : JsError :=
  mkError "TypeError" "Cannot read properties of undefined" None.

(** [String.prototype.matchAll] given a regex without the global flag. *)
Definition nonGlobalTypeError : JsError :=
  mkError "TypeError" "String.prototype.matchAll called with a non-global RegExp argument"
    None.

Inductive completion (A : Type) : Type :=
  | Normal (a : A)
  | Throw (e : JsError).
Arguments Normal {A} a.
Arguments Throw {A} e.

(** ** The world: regex objects, abort controllers, timers, and a trace *)

Record RegExp : Type := mkRegExp {
  source : string;
  flags : string;
  lastIndex : nat;
}.

Fixpoint has_flag (c : Ascii.ascii) (fl : string) : bool :=
  match fl with
  | EmptyString => false
  | String a rest => if Ascii.eqb a c then true else has_flag c rest
  end.

(** [regex.global], [regex.sticky] *)
Definition global (r : RegExp) : bool := has_flag "g"%char (flags r).
Definition sticky (r : RegExp) : bool := has_flag "y"%char (flags r).

Inductive WorkerKind : Type := IsMatchWorker | FirstMatchWorker | MatchesWorker.

Inductive Event : Type :=
  | EvSearch (src fl inp : string) (start : nat)
      (** the engine ran, on the thread of this world *)
  | EvAbort (controller : nat)
  | EvSetTimeout (id : nat) (delay : JsNumber) (controller : nat)
  | EvClearTimeout (id : nat)
  | EvTimerFired (id : nat)
  | EvDispatch (k : WorkerKind) (src fl inp : string) (controller : nat).

(** A pending timer; its callback is always [controller.abort()]. *)
Record Timer : Type := mkTimer {
  timer_id : nat;
  timer_delay : JsNumber;
  timer_target : nat;
}.

Record World : Type := mkWorld {
  heap : gmap positive RegExp;     (** regex objects, by reference *)
  controllers : gmap nat bool;     (** [signal.aborted] of each controller *)
  timers : list Timer;             (** pending timers *)
  next_timer : nat;
  trace : list Event;              (** oldest first *)
}.

Definition emptyWorld : World := mkWorld ∅ ∅ [] 0 [].

Definition set_heap (f : gmap positive RegExp → gmap positive RegExp) (w : World) : World :=
  mkWorld (f (heap w)) (controllers w) (timers w) (next_timer w) (trace w).
Definition set_controllers (f : gmap nat bool → gmap nat bool) (w : World) : World :=
  mkWorld (heap w) (f (controllers w)) (timers w) (next_timer w) (trace w).
Definition set_timers (f : list Timer → list Timer) (w : World) : World :=
  mkWorld (heap w) (controllers w) (f (timers w)) (next_timer w) (trace w).
Definition emit (e : Event) (w : World) : World :=
  mkWorld (heap w) (controllers w) (timers w) (next_timer w) (trace w ++ [e]).

(** ** Computations: state and exceptions *)

Definition M (A : Type) : Type := World → completion A * World.

Definition mret {A} (a : A) : M A := fun w => (Normal a, w).
Definition mthrow {A} (e : JsError) : M A := fun w => (Throw e, w).
Definition mbind {A B} (m : M A) (k : A → M B) : M B :=
  fun w =>
    match m w with
    | (Normal a, w') => k a w'
    | (Throw e, w') => (Throw e, w')
    end.
(** [try { m } catch (error) { handler error }] *)
Definition try_catch {A} (m : M A) (handler : JsError → M A) : M A :=
  fun w =>
    match m w with
    | (Normal a, w') => (Normal a, w')
    | (Throw e, w') => handler e w'
    end.
Definition modify (f : World → World) : M unit := fun w => (Normal tt, f w).

Declare Scope js_scope.
Delimit Scope js_scope with js.
Notation "'let*' x := m 'in' k" := (mbind m (fun x => k))
  (at level 10, x name, m at level 100, k at level 200) : js_scope.
Local Open Scope js_scope.

(** ** Regex objects *)

(** The raw result array of [exec]: its elements ([None] is [undefined]),
    and its [index], [groups] and [input] properties. *)
Record ExecResult : Type := mkExecResult {
  r_elems : list (option string);
  r_index : nat;
  r_groups : option (gmap string (option string));
  r_input : string;
}.

(** [a[i]] on an array of strings-or-undefined. *)
Definition array_get (a : list (option string)) (i : nat) : option string :=
  default None (a !! i).

(** What compiling a pattern tells about it: how many capture groups it
    declares, and the names of the named ones. *)
Record PatternInfo : Type := mkPatternInfo {
  group_count : nat;
  group_names : list string;
}.

(** The engine, as the code consumes it: compile a pattern (a malformed one
    is an error), and search an input from a start offset (the flags decide
    how). *)
Class Engine : Type := mkEngine {
  compile : string → string → completion PatternInfo;
  search : string → string → string → nat → completion (option ExecResult);
}.

(** The end offset of a raw match. *)
Definition r_end (res : ExecResult) : nat :=
  (r_index res + String.length (default EmptyString (array_get (r_elems res) 0)))%nat.

Section WithEngine.
Context {engine : Engine}.

Definition read_regex (l : positive) : M RegExp :=
  fun w => match heap w !! l with
           | Some r => (Normal r, w)
           | None => (Throw typeError, w)
           end.

Definition alloc_regex (r : RegExp) : M positive :=
  fun w => let l := fresh (dom (heap w)) in (Normal l, set_heap <[l := r]> w).

Definition set_lastIndex (l : positive) (i : nat) : M unit :=
  let* r := read_regex l in
  modify (set_heap <[l := mkRegExp (source r) (flags r) i]>).

(** [structuredClone(regex)]: a new object with the same source and flags;
    [lastIndex] is not carried over. *)
Definition structuredClone (regex : positive) : M positive :=
  let* r := read_regex regex in
  alloc_regex (mkRegExp (source r) (flags r) 0).

(** [new RegExp(source, flags)] *)
Definition new_RegExp (src fl : string) : M positive :=
  match compile src fl with
  | Throw e => mthrow e
  | Normal _ => alloc_regex (mkRegExp src fl 0)
  end.

(** [regex.exec(string)]: the start offset is [lastIndex] for a global or
    sticky regex and 0 otherwise; a global or sticky regex has its
    [lastIndex] written back (the end of the match, or 0 on failure). *)
Definition RegExp_exec (l : positive) (s : string) : M (option ExecResult) :=
  let* r := read_regex l in
  let stateful := global r || sticky r in
  let start := if stateful then lastIndex r else 0%nat in
  if (String.length s <? start)%nat then
    let* _ := (if stateful then set_lastIndex l 0 else mret tt) in
    mret None
  else
    let* _ := modify (emit (EvSearch (source r) (flags r) s start)) in
    match search (source r) (flags r) s start with
    | Throw e => mthrow e
    | Normal None =>
        let* _ := (if stateful then set_lastIndex l 0 else mret tt) in
        mret None
    | Normal (Some res) =>
        let* _ := (if stateful then set_lastIndex l (r_end res) else mret tt) in
        mret (Some res)
    end.

(** [regex.test(string)] *)
Definition RegExp_test (l : positive) (s : string) : M bool :=
  let* res := RegExp_exec l s in
  mret (match res with Some _ => true | None => false end).


(** ** The synchronous bounded executor ([functionTimeout] of function-timeout)

    [functionTimeout(f, {timeout})()] runs [f] on the caller's thread.  With
    [timeout] undefined there is no deadline.  Otherwise the host takes a
    whole number of milliseconds from 1 to 2^32 - 1 and throws [rangeError]
    for any other, before it runs anything; with a deadline it takes, it
    interrupts the script, with [scriptTimeoutError], once the script has
    run for longer than [timeout] milliseconds.  [runtime] is how long [f]
    runs when nothing interrupts it.  Where the interruption falls is not
    known: the world keeps every write of [f], which is the most an
    interrupted run can have done. *)
Definition vm_timeout_max : Z := 4294967295.

Definition host_accepts (timeout : option JsNumber) : bool :=
  match timeout with
  | None => true
  | Some (Num q) =>
      Qeq_bool q (inject_Z (Qfloor q))
      && Qle_bool (inject_Z 1) q && Qle_bool q (inject_Z vm_timeout_max)
  | Some _ => false
  end.

Definition deadline_exceeded (timeout : option JsNumber) (runtime : Q) : bool :=
  match timeout with
  | None => false
  | Some t => js_lt t (Num runtime)
  end.

Definition functionTimeout {A} (f : M A) (timeout : option JsNumber) (runtime : Q) : M A :=
  fun w =>
    if negb (host_accepts timeout) then (Throw rangeError, w)
    else
      let '(r, w') := f w in
      if deadline_exceeded timeout runtime then (Throw scriptTimeoutError, w') else (r, w').

(** ** Match normalizer ([resultToMatch], index.js 58-64) *)

Record Match : Type := mkMatch {
  match_ : option string;
  index : nat;
  groups : list (option string);
  namedGroups : gmap string (option string);
  input : string;
}.

Definition resultToMatch (result : ExecResult) : Match :=
  {| match_ := array_get (r_elems result) 0;
     index := r_index result;
     groups := drop 1 (r_elems result);
     namedGroups := default ∅ (r_groups result);
     input := r_input result |}.

(** ** Options *)

Record Options : Type := mkOptions {
  timeout : option JsNumber;
  matchTimeout : option JsNumber;
  throwOnTimeout : bool;
}.

(** [{}] *)
Definition noOptions : Options := mkOptions None None false.

(** ** [isMatch] and [firstMatch] (index.js 84-112) *)

Definition isMatch (regex : positive) (string : string) (o : Options) (runtime : Q) : M bool :=
  try_catch
    (functionTimeout
       (let* clone := structuredClone regex in RegExp_test clone string)
       (normalizeTimeout (timeout o)) runtime)
    (fun error =>
       if isTimeoutError error && negb (throwOnTimeout o) then mret false
       else mthrow error).

Definition firstMatch (regex : positive) (string : string) (o : Options) (runtime : Q)
  : M (option Match) :=
  try_catch
    (let* result :=
       functionTimeout
         (let* clone := structuredClone regex in RegExp_exec clone string)
         (normalizeTimeout (timeout o)) runtime in
     match result with
     | None => mret None
     | Some result => mret (Some (resultToMatch result))
     end)
    (fun error =>
       if isTimeoutError error && negb (throwOnTimeout o) then mret None
       else mthrow error).

(** ** [String.prototype.matchAll] and its iterator

    [matchAll] refuses a regex without the global flag, and otherwise builds
    a matcher of its own, with the source, flags and [lastIndex] of its
    argument; nothing is searched until the iterator is advanced. *)
Record RegExpStringIterator : Type := mkRSI {
  rsi_matcher : positive;
  rsi_string : string;
  rsi_done : bool;
}.

Definition String_matchAll (s : string) (regex : positive) : M RegExpStringIterator :=
  let* r := read_regex regex in
  if negb (global r) then mthrow nonGlobalTypeError
  else
    let* matcher := alloc_regex (mkRegExp (source r) (flags r) (lastIndex r)) in
    mret (mkRSI matcher s false).

(** [matches.next()]: [None] is [{done: true}].  After an empty match the
    matcher's [lastIndex] is advanced by one. *)
Definition RegExpStringIterator_next (it : RegExpStringIterator)
  : M (option ExecResult * RegExpStringIterator) :=
  if rsi_done it then mret (None, it)
  else
    let* result := RegExp_exec (rsi_matcher it) (rsi_string it) in
    match result with
    | None => mret (None, mkRSI (rsi_matcher it) (rsi_string it) true)
    | Some m =>
        let* _ :=
          (if (String.length (default EmptyString (array_get (r_elems m) 0)) =? 0)%nat then
             let* r := read_regex (rsi_matcher it) in
             set_lastIndex (rsi_matcher it) (S (lastIndex r))
           else mret tt) in
        mret (Some m, it)
    end.

(** ** [matches] (index.js 114-171)

    The call checks the global flag and returns an object whose
    [Symbol.iterator] method is a generator function: the object keeps the
    arguments, and every call of the method makes a new generator. *)
Record Iterable : Type := mkIterable {
  it_regex : positive;
  it_string : string;
  it_timeout : JsNumber;
  it_matchTimeout : JsNumber;
  it_throwOnTimeout : bool;
}.

Definition matches (regex : positive) (string : string) (o : Options) : M Iterable :=
  let timeout := default PosInf (timeout o) in
  let matchTimeout := default PosInf (matchTimeout o) in
  let* r := read_regex regex in
  if negb (global r) then mthrow globalFlagError
  else mret (mkIterable regex string timeout matchTimeout (throwOnTimeout o)).

(** Where a generator is suspended. *)
Inductive GenState : Type :=
  | GenSuspendedStart
  | GenSuspendedYield (matches : RegExpStringIterator) (remainingTimeout : JsNumber)
  | GenCompleted.

(** [it[Symbol.iterator]()] *)
Definition Symbol_iterator (it : Iterable) : GenState := GenSuspendedStart.

Inductive IterResult (A : Type) : Type :=
  | Yield (value : A)
  | Done.
#[global] Arguments Yield {A} value.
#[global] Arguments Done {A}.

(** What the environment reports for one match attempt: how long
    [matches.next()] runs, and what [timeSpan] measures around the guarded
    call. *)
Record Timing : Type := mkTiming {
  runtime : Q;
  elapsed : Q;
}.

(** index.js 143-145 *)
Definition attempt_deadline (it : Iterable) (remainingTimeout : JsNumber) : option JsNumber :=
  if not_POSITIVE_INFINITY (it_timeout it) || not_POSITIVE_INFINITY (it_matchTimeout it)
  then normalizeTimeout (Some (Math_min remainingTimeout (it_matchTimeout it)))
  else None.

(** index.js 132: the total budget is used up. *)
Definition budget_exhausted (it : Iterable) (remainingTimeout : JsNumber) : bool :=
  not_POSITIVE_INFINITY (it_timeout it) && js_le remainingTimeout (of_Z 0).

(** index.js 147-154: one guarded [matches.next()], and the budget after it. *)
Definition attempt (it : Iterable) (ms : RegExpStringIterator) (remainingTimeout : JsNumber)
    (t : Timing) : M (option ExecResult * RegExpStringIterator * JsNumber) :=
  let normalizedTimeout := attempt_deadline it remainingTimeout in
  let* step := functionTimeout (RegExpStringIterator_next ms) normalizedTimeout (runtime t) in
  mret (step.1, step.2, js_sub remainingTimeout (Math_ceil (Num (elapsed t)))).

(** One turn of the [while (true)] loop, up to the next [yield] or to the
    end of the loop. *)
Definition loop_turn (it : Iterable) (ms : RegExpStringIterator) (remainingTimeout : JsNumber)
    (t : Timing) : M (IterResult Match * GenState) :=
  if budget_exhausted it remainingTimeout then
    if it_throwOnTimeout it then mthrow budgetTimeoutError
    else mret (Done, GenCompleted)
  else
    let* a := attempt it ms remainingTimeout t in
    match a.1.1 with
    | None => mret (Done, GenCompleted)
    | Some value => mret (Yield (resultToMatch value), GenSuspendedYield a.1.2 a.2)
    end.

(** The generator body from where it is suspended, inside its [try]. *)
Definition gen_body (it : Iterable) (st : GenState) (t : Timing)
  : M (IterResult Match * GenState) :=
  match st with
  | GenSuspendedStart =>
      let* clone := structuredClone (it_regex it) in
      let* ms := String_matchAll (it_string it) clone in
      loop_turn it ms (it_timeout it) t
  | GenSuspendedYield ms remainingTimeout => loop_turn it ms remainingTimeout t
  | GenCompleted => mret (Done, GenCompleted)
  end.

(** [generator.next()]: the result, the generator afterwards, the world. *)
Definition gen_next (it : Iterable) (st : GenState) (t : Timing) (w : World)
  : completion (IterResult Match) * GenState * World :=
  let guarded :=
    try_catch (gen_body it st t)
      (fun error =>
         if isTimeoutError error && negb (it_throwOnTimeout it) then mret (Done, GenCompleted)
         else mthrow error) in
  match guarded w with
  | (Normal (r, st'), w') => (Normal r, st', w')
  | (Throw e, w') => (Throw e, GenCompleted, w')
  end.

(** [generator.return()]: the body has no [finally]. *)
Definition gen_return (st : GenState) : GenState := GenCompleted.

(** How a consumer's pass over a generator ends. *)
Inductive PassEnd : Type :=
  | Exhausted                  (** the generator reported [done] *)
  | Failed (e : JsError)       (** [next()] threw *)
  | Stopped (st : GenState).   (** the consumer asked no more *)

(** [for (const m of generator)], one [next()] per timing of the list. *)
Fixpoint consume (it : Iterable) (st : GenState) (ts : list Timing) (w : World)
  : list Match * PassEnd * World :=
  match ts with
  | [] => ([], Stopped st, w)
  | t :: ts' =>
      match gen_next it st t w with
      | (Normal (Yield m), st', w') =>
          let '(ms, e, w'') := consume it st' ts' w' in (m :: ms, e, w'')
      | (Normal Done, _, w') => ([], Exhausted, w')
      | (Throw e, _, w') => ([], Failed e, w')
      end
  end.


(** ** The isolated regime (index.js 173-307) *)

(** *** Abort controllers and timers *)

(** [new AbortController()] *)
Definition new_AbortController : M nat :=
  fun w =>
    let c := fresh (dom (controllers w)) in
    (Normal c, set_controllers <[c := false]> w).

(** [controller.abort()] *)
Definition controller_abort (c : nat) : M unit :=
  modify (fun w => emit (EvAbort c) (set_controllers <[c := true]> w)).

(** [signal.aborted] *)
Definition signal_aborted (c : nat) (w : World) : bool :=
  default false (controllers w !! c).

(** The delay a timer of the host runs with: the delay asked for when it is
    from 1 to 2^31 - 1 milliseconds, and 1 millisecond otherwise. *)
Definition TIMEOUT_MAX : Z := 2147483647.

Definition host_delay (delay : JsNumber) : JsNumber :=
  match delay with
  | Num q =>
      if Qle_bool (inject_Z 1) q && Qle_bool q (inject_Z TIMEOUT_MAX) then Num q
      else of_Z 1
  | _ => of_Z 1
  end.

(** [setTimeout(() => { controller.abort(); }, delay)]: the event keeps the
    delay of the call, the timer the delay it runs with. *)
Definition setTimeout_abort (c : nat) (delay : JsNumber) : M nat :=
  fun w =>
    let id := next_timer w in
    (Normal id,
     emit (EvSetTimeout id delay c)
       (mkWorld (heap w) (controllers w) (timers w ++ [mkTimer id (host_delay delay) c])
          (S id) (trace w))).

Definition remove_timer (id : nat) (ts : list Timer) : list Timer :=
  List.filter (fun t => negb (timer_id t =? id)%nat) ts.

(** [clearTimeout(id)] *)
Definition clearTimeout (id : nat) : M unit :=
  modify (fun w => emit (EvClearTimeout id) (set_timers (remove_timer id) w)).

(** What [handleAsyncTimeout] returns: [undefined], the no-op, or the
    function that clears the timer. *)
Inductive Cleanup : Type :=
  | CleanupUndefined
  | CleanupNoop
  | CleanupClear (timeoutId : nat).

(** index.js 217-241 *)
Definition handleAsyncTimeout (controller : nat) (timeout : option JsNumber) : M Cleanup :=
  match timeout with
  | None => mret CleanupUndefined
  | Some t =>
      if Number_isNaN t then mret CleanupUndefined
      else if js_le t (of_Z 0) || negb (Number_isFinite t) then
        let* _ := (if js_le t (of_Z 0) then controller_abort controller else mret tt) in
        mret CleanupNoop
      else
        let* timeoutId := setTimeout_abort controller t in
        mret (CleanupClear timeoutId)
  end.

(** [cleanup?.()] *)
Definition run_cleanup (cleanup : Cleanup) : M unit :=
  match cleanup with
  | CleanupClear timeoutId => clearTimeout timeoutId
  | CleanupNoop | CleanupUndefined => mret tt
  end.

(** index.js 243-255 *)
Definition handleAsyncError {A} (error : JsError) (throwOnTimeout : bool) (defaultValue : A)
  : M A :=
  if String.eqb (err_name error) "AbortError" then
    if throwOnTimeout then mthrow asyncTimeoutError
    else mret defaultValue
  else mthrow error.

(** *** The worker facility ([make-asynchronous])

    A worker call made with a cancelled signal is rejected with
    [abortError]; so is one whose signal is cancelled before the answer
    arrives, which here happens when a pending timer of the controller has a
    delay shorter than the time the answer takes.  Otherwise the answer is
    what the worker function computes in a world of its own, from the
    arguments it was sent. *)
Definition due_timer (c : nat) (arrival : Q) (w : World) : option Timer :=
  List.find (fun t => (timer_target t =? c)%nat && js_lt (timer_delay t) (Num arrival))
    (timers w).

Definition fire_timer (t : Timer) (w : World) : World :=
  emit (EvAbort (timer_target t))
    (emit (EvTimerFired (timer_id t))
       (set_controllers <[timer_target t := true]>
          (set_timers (remove_timer (timer_id t)) w))).

(** Waiting [arrival] milliseconds for an answer under the signal of [c]:
    [None] when the answer comes, [Some abortError] when the signal wins. *)
Definition await_signal (c : nat) (arrival : Q) : M unit :=
  fun w =>
    if signal_aborted c w then (Throw abortError, w)
    else
      match due_timer c arrival w with
      | Some t => (Throw abortError, fire_timer t w)
      | None => (Normal tt, w)
      end.

(** The answer of a worker function: it runs where nothing is shared. *)
Definition isolated {A} (body : M A) : completion A := (body emptyWorld).1.

Definition call_worker {A} (k : WorkerKind) (c : nat) (src fl s : string) (body : M A)
    (latency : Q) : M A :=
  let* _ := modify (emit (EvDispatch k src fl s c)) in
  let* _ := await_signal c latency in
  fun w => (isolated body, w).

(** *** The worker functions (index.js 178-215) *)

Definition isMatchWorker (src fl s : string) : M bool :=
  let* regex := new_RegExp src fl in
  RegExp_test regex s.

Definition firstMatchWorker (src fl s : string) : M (option Match) :=
  let* regex := new_RegExp src fl in
  let* result := RegExp_exec regex s in
  match result with
  | None => mret None
  | Some result =>
      mret (Some {| match_ := array_get (r_elems result) 0;
                    index := r_index result;
                    groups := drop 1 (r_elems result);
                    namedGroups := default ∅ (r_groups result);
                    input := r_input result |})
  end.

(** [matchesWorker] is a generator inside the worker: its state is the
    worker's own world and the iterator it loops over. *)
Inductive WorkerGen : Type :=
  | WorkerStart (src fl s : string)
  | WorkerLoop (ww : World) (ms : RegExpStringIterator)
  | WorkerCompleted.

Definition matchesWorker_next (g : WorkerGen) : completion (IterResult Match) * WorkerGen :=
  let loop (ms : RegExpStringIterator) (ww : World) :=
    match RegExpStringIterator_next ms ww with
    | (Normal (Some match_, ms'), ww') =>
        (Normal (Yield {| match_ := array_get (r_elems match_) 0;
                          index := r_index match_;
                          groups := drop 1 (r_elems match_);
                          namedGroups := default ∅ (r_groups match_);
                          input := r_input match_ |}),
         WorkerLoop ww' ms')
    | (Normal (None, _), _) => (Normal Done, WorkerCompleted)
    | (Throw e, _) => (Throw e, WorkerCompleted)
    end in
  match g with
  | WorkerStart src fl s =>
      match (let* regex := new_RegExp src fl in String_matchAll s regex) emptyWorld with
      | (Normal ms, ww) => loop ms ww
      | (Throw e, _) => (Throw e, WorkerCompleted)
      end
  | WorkerLoop ww ms => loop ms ww
  | WorkerCompleted => (Normal Done, WorkerCompleted)
  end.

(** *** [withAsyncTimeout] and the two promise-returning operations
        (index.js 257-288) *)

Definition withAsyncTimeout {A} (workerFunction : nat → M A) (timeout : option JsNumber)
    (throwOnTimeout : bool) (defaultValue : A) : M A :=
  let* controller := new_AbortController in
  let* cleanup := handleAsyncTimeout controller timeout in
  try_catch
    (let* result := workerFunction controller in
     let* _ := run_cleanup cleanup in
     mret result)
    (fun error =>
       let* _ := run_cleanup cleanup in
       handleAsyncError error throwOnTimeout defaultValue).

(** [latency] is how long the worker takes to answer. *)
Definition isMatchAsync (regex : positive) (string : string) (o : Options) (latency : Q)
  : M bool :=
  withAsyncTimeout
    (fun signal =>
       let* r := read_regex regex in
       call_worker IsMatchWorker signal (source r) (flags r) string
         (isMatchWorker (source r) (flags r) string) latency)
    (timeout o) (throwOnTimeout o) false.

Definition firstMatchAsync (regex : positive) (string : string) (o : Options) (latency : Q)
  : M (option Match) :=
  withAsyncTimeout
    (fun signal =>
       let* r := read_regex regex in
       call_worker FirstMatchWorker signal (source r) (flags r) string
         (firstMatchWorker (source r) (flags r) string) latency)
    (timeout o) (throwOnTimeout o) None.

(** *** [matchesAsync] (index.js 290-307)

    An async generator: the call makes the generator object and runs
    nothing of the body. *)
Record AsyncCall : Type := mkAsyncCall {
  ac_regex : positive;
  ac_string : string;
  ac_options : Options;
}.

Inductive AsyncGenState : Type :=
  | AsyncSuspendedStart
  | AsyncSuspendedYield (controller : nat) (cleanup : Cleanup) (worker : WorkerGen)
  | AsyncCompleted.

Definition matchesAsync (regex : positive) (string : string) (o : Options)
  : M (AsyncCall * AsyncGenState) :=
  mret (mkAsyncCall regex string o, AsyncSuspendedStart).

(** One turn of the [for await]: wait for the worker's next answer, which
    arrives [arrival] milliseconds after the timer was armed.  The [catch]
    and [finally] clauses of index.js 302-306 follow the three ways the
    turn can go. *)
Definition for_await_turn (call : AsyncCall) (controller : nat) (cleanup : Cleanup)
    (worker : WorkerGen) (arrival : Q) : M (IterResult Match * AsyncGenState) :=
  let o := ac_options call in
  let pulled : M (IterResult Match * WorkerGen) :=
    let* _ := await_signal controller arrival in
    fun w => match matchesWorker_next worker with
             | (Normal r, worker') => (Normal (r, worker'), w)
             | (Throw e, _) => (Throw e, w)
             end in
  fun w =>
    match pulled w with
    | (Normal (Yield match_, worker'), w') =>
        (Normal (Yield match_, AsyncSuspendedYield controller cleanup worker'), w')
    | (Normal (Done, _), w') =>
        (let* _ := run_cleanup cleanup in mret (Done, AsyncCompleted)) w'
    | (Throw error, w') =>
        match handleAsyncError error (throwOnTimeout o) tt w' with
        | (Normal _, w'') =>
            (let* _ := run_cleanup cleanup in mret (Done, AsyncCompleted)) w''
        | (Throw e, w'') =>
            (let* _ := run_cleanup cleanup in mthrow e) w''
        end
    end.

Definition async_body (call : AsyncCall) (st : AsyncGenState) (arrival : Q)
  : M (IterResult Match * AsyncGenState) :=
  match st with
  | AsyncSuspendedStart =>
      let* r := read_regex (ac_regex call) in
      if negb (global r) then mthrow globalFlagErrorAsync
      else
        let* controller := new_AbortController in
        let* cleanup := handleAsyncTimeout controller (timeout (ac_options call)) in
        let* _ := modify (emit (EvDispatch MatchesWorker (source r) (flags r)
                                  (ac_string call) controller)) in
        for_await_turn call controller cleanup
          (WorkerStart (source r) (flags r) (ac_string call)) arrival
  | AsyncSuspendedYield controller cleanup worker =>
      for_await_turn call controller cleanup worker arrival
  | AsyncCompleted => mret (Done, AsyncCompleted)
  end.

(** [await generator.next()] *)
Definition async_next (call : AsyncCall) (st : AsyncGenState) (arrival : Q) (w : World)
  : completion (IterResult Match) * AsyncGenState * World :=
  match async_body call st arrival w with
  | (Normal (r, st'), w') => (Normal r, st', w')
  | (Throw e, w') => (Throw e, AsyncCompleted, w')
  end.

(** [await generator.return()]: a generator suspended at its [yield] leaves
    through the [finally] clause. *)
Definition async_return (st : AsyncGenState) : M AsyncGenState :=
  match st with
  | AsyncSuspendedYield _ cleanup _ =>
      let* _ := run_cleanup cleanup in mret AsyncCompleted
  | AsyncSuspendedStart | AsyncCompleted => mret AsyncCompleted
  end.

Inductive AsyncPassEnd : Type :=
  | AsyncExhausted
  | AsyncFailed (e : JsError)
  | AsyncStopped (st : AsyncGenState).

(** [for await (const m of generator)], one turn per arrival time. *)
Fixpoint consume_async (call : AsyncCall) (st : AsyncGenState) (arrivals : list Q) (w : World)
  : list Match * AsyncPassEnd * World :=
  match arrivals with
  | [] => ([], AsyncStopped st, w)
  | a :: rest =>
      match async_next call st a w with
      | (Normal (Yield m), st', w') =>
          let '(ms, e, w'') := consume_async call st' rest w' in (m :: ms, e, w'')
      | (Normal Done, _, w') => ([], AsyncExhausted, w')
      | (Throw e, _, w') => ([], AsyncFailed e, w')
      end
  end.

End WithEngine.

(** ** What the code relies on from the engine *)

Section EngineContract.
Context {engine : Engine}.

(** A raw result has one element for the whole match and one per declared
    group, and its [groups] property is [undefined] for a pattern without
    named groups and otherwise an object with exactly the declared names. *)
Definition fits_pattern (info : PatternInfo) (res : ExecResult) : Prop :=
  length (r_elems res) = S (group_count info) ∧
  match group_names info with
  | [] => r_groups res = None
  | names => ∃ g, r_groups res = Some g ∧ dom g = list_to_set names
  end.

Definition results_fit (src fl : string) : Prop :=
  ∀ info s start res,
    compile src fl = Normal info →
    search src fl s start = Normal (Some res) →
    fits_pattern info res.

(** A match found from [start] begins at or after [start] and ends inside
    the input. *)
Definition search_progress (src fl s : string) : Prop :=
  ∀ start res,
    search src fl s start = Normal (Some res) →
    (start ≤ r_index res)%nat ∧ (r_end res ≤ String.length s)%nat.

End EngineContract.

(** ** A scripted engine

    An engine that answers from a table, for running the operations on
    concrete patterns and inputs. *)
Module Scripted.

Definition Query : Type := string * string * string * nat.

Record Script : Type := mkScript {
  patterns : list (string * PatternInfo);
  answers : list (Query * ExecResult);
}.

Fixpoint assoc {K V} `{EqDecision K} (k : K) (l : list (K * V)) : option V :=
  match l with
  | [] => None
  | (k', v) :: rest => if decide (k = k') then Some v else assoc k rest
  end.

Definition syntaxError : JsError :=
  mkError "SyntaxError" "Invalid regular expression" None.

Definition engine_of (sc : Script) : Engine :=
  {| compile := fun src _ =>
       match assoc src (patterns sc) with
       | Some info => Normal info
       | None => Throw syntaxError
       end;
     search := fun src fl s start => Normal (assoc (src, fl, s, start) (answers sc)) |}.

End Scripted.

(** ** Fixtures

    The patterns and inputs of the repository's tests, with the answers the
    engine gives for them. *)
Module Fixture.
Import Scripted.
Local Open Scope string_scope.

Definition date_source : string := "(?<year>\d{4})-(?<month>\d{2})".

Definition date_groups : gmap string (option string) :=
  {[ "year" := Some "2024"; "month" := Some "01" ]}.

Definition date_answer : ExecResult :=
  mkExecResult [Some "2024-01"; Some "2024"; Some "01"] 0 (Some date_groups) "2024-01-15".

Definition script : Script :=
  mkScript
    [ ("\d+", mkPatternInfo 0 []);
      ("test", mkPatternInfo 0 []);
      (date_source, mkPatternInfo 2 ["year"; "month"]) ]
    [ (("\d+", "g", "a1b22c333", 0%nat), mkExecResult [Some "1"] 1 None "a1b22c333");
      (("\d+", "g", "a1b22c333", 2%nat), mkExecResult [Some "22"] 3 None "a1b22c333");
      (("\d+", "g", "a1b22c333", 5%nat), mkExecResult [Some "333"] 6 None "a1b22c333");
      (("test", "", "test", 0%nat), mkExecResult [Some "test"] 0 None "test");
      ((date_source, "", "2024-01-15", 0%nat), date_answer) ].

Definition engine : Engine := engine_of script.

(** A world with three regex objects of the caller: [/\d+/g] (left at
    [lastIndex] 4 by earlier use), [/test/], and the date pattern. *)
Definition digits : positive := 1%positive.
Definition test : positive := 2%positive.
Definition date : positive := 3%positive.

Definition world : World :=
  set_heap (fun _ => {[ digits := mkRegExp "\d+" "g" 4;
                        test := mkRegExp "test" "" 0;
                        date := mkRegExp date_source "" 0 ]}) emptyWorld.

(** An engine that fails on every search, as an engine does when a
    pattern exhausts its stack. *)
Definition stackError : JsError :=
  mkError "RangeError" "Maximum call stack size exceeded" None.

Definition failing : Engine :=
  {| compile := fun _ _ => Normal (mkPatternInfo 0 []);
     search := fun _ _ _ _ => Throw stackError |}.

End Fixture.

(** ** Vocabulary of the statements *)

(** Pending timers belong to existing controllers and carry identifiers
    already handed out. *)
Definition timers_ok (w : World) : Prop :=
  Forall (fun t => timer_target t ∈ dom (controllers w) ∧ (timer_id t < next_timer w)%nat)
    (timers w).

Section Vocabulary.
Context {engine : Engine}.

(** The worker function the two promise-returning operations pass to
    [withAsyncTimeout]. *)
Definition worker_call {A} (k : WorkerKind) (body : string → string → string → M A)
    (regex : positive) (s : string) (latency : Q) : nat → M A :=
  fun signal =>
    let* r := read_regex regex in
    call_worker k signal (source r) (flags r) s (body (source r) (flags r) s) latency.

(** The outcome of a timed-out isolated call. *)
Definition timeout_outcome {A} (throwOnTimeout : bool) (defaultValue : A) : completion A :=
  if throwOnTimeout then Throw asyncTimeoutError else Normal defaultValue.

(** What [withAsyncTimeout] makes of the worker's answer. *)
Definition settled {A} (answer : completion A) (throwOnTimeout : bool) (defaultValue : A)
  : completion A :=
  match answer with
  | Normal a => Normal a
  | Throw e =>
      if String.eqb (err_name e) "AbortError" then timeout_outcome throwOnTimeout defaultValue
      else Throw e
  end.

(** The world after [exec] has written [i] to the [lastIndex] of a global
    or sticky regex at [l]. *)
Definition written (l : positive) (r : RegExp) (i : nat) (w : World) : World :=
  if global r || sticky r
  then set_heap <[l := mkRegExp (source r) (flags r) i]> w
  else w.

(** The iterator and the world a generator of [matches] starts its loop
    with: the duplicate of the caller's regex, then the matcher of
    [matchAll], both new objects with [lastIndex] 0. *)
Definition started (it : Iterable) (r : RegExp) (w : World) : RegExpStringIterator * World :=
  let clone := fresh (dom (heap w)) in
  let w1 := set_heap <[clone := mkRegExp (source r) (flags r) 0]> w in
  let matcher := fresh (dom (heap w1)) in
  (mkRSI matcher (it_string it) false,
   set_heap <[matcher := mkRegExp (source r) (flags r) 0]> w1).

(** One advance of the iterator of [matchAll], seen from its matcher [r]:
    the answer, the matcher afterwards, and whether the engine was asked. *)
Record Step : Type := mkStep {
  step_result : completion (option ExecResult);
  step_matcher : RegExp;
  step_events : list Event;
}.

Definition with_lastIndex (r : RegExp) (i : nat) : RegExp :=
  mkRegExp (source r) (flags r) i.

Definition matcher_step (r : RegExp) (s : string) : Step :=
  if (String.length s <? lastIndex r)%nat then mkStep (Normal None) (with_lastIndex r 0) []
  else
    let ev := EvSearch (source r) (flags r) s (lastIndex r) in
    match search (source r) (flags r) s (lastIndex r) with
    | Throw e => mkStep (Throw e) r [ev]
    | Normal None => mkStep (Normal None) (with_lastIndex r 0) [ev]
    | Normal (Some res) =>
        let after :=
          if (String.length (default EmptyString (array_get (r_elems res) 0)) =? 0)%nat
          then S (r_end res) else r_end res in
        mkStep (Normal (Some res)) (with_lastIndex r after) [ev]
    end.

Definition apply_step (l : positive) (st : Step) (w : World) : World :=
  mkWorld (<[l := step_matcher st]> (heap w)) (controllers w) (timers w) (next_timer w)
    (trace w ++ step_events st).

(** [ms] is a running iterator over [s] whose matcher, in [w], has the
    pattern [src], [fl]. *)
Definition matcher_of (src fl s : string) (ms : RegExpStringIterator) (w : World) : Prop :=
  rsi_string ms = s ∧ rsi_done ms = false ∧
  ∃ r, heap w !! rsi_matcher ms = Some r ∧ source r = src ∧ flags r = fl.

(** A generator of [it] is in order: not yet started on a caller's regex
    with the global flag, or looping over a matcher of its pattern, or
    completed. *)
Definition gen_ok (it : Iterable) (src fl : string) (st : GenState) (w : World) : Prop :=
  has_flag "g" fl = true ∧
  match st with
  | GenSuspendedStart =>
      ∃ r, heap w !! it_regex it = Some r ∧ source r = src ∧ flags r = fl
  | GenSuspendedYield ms _ => matcher_of src fl (it_string it) ms w
  | GenCompleted => True
  end.

(** The regex object a running generator writes to. *)
Definition owns (st : GenState) (l : positive) : Prop :=
  match st with
  | GenSuspendedYield ms _ => rsi_matcher ms = l
  | GenSuspendedStart | GenCompleted => False
  end.

(** The generator inside the worker is in order. *)
Definition worker_ok (src fl s : string) (g : WorkerGen) : Prop :=
  has_flag "g" fl = true ∧
  match g with
  | WorkerStart src' fl' s' => src' = src ∧ fl' = fl ∧ s' = s
  | WorkerLoop ww ms => matcher_of src fl s ms ww
  | WorkerCompleted => True
  end.

(** The generator of [matchesAsync] is in order. *)
Definition async_ok (call : AsyncCall) (src fl : string) (st : AsyncGenState) (w : World)
  : Prop :=
  match st with
  | AsyncSuspendedStart =>
      ∃ r, heap w !! ac_regex call = Some r ∧ source r = src ∧ flags r = fl
  | AsyncSuspendedYield _ _ worker => worker_ok src fl (ac_string call) worker
  | AsyncCompleted => True
  end.

(** [m] is the normalized form of an answer of the engine. *)
Definition normalized_answer (src fl s : string) (m : Match) : Prop :=
  ∃ raw start, search src fl s start = Normal (Some raw) ∧ m = resultToMatch raw.

(** The shape of a [Match] of a pattern: one captured group per declared
    group, and exactly the declared names among the named groups. *)
Definition well_shaped (info : PatternInfo) (m : Match) : Prop :=
  length (groups m) = group_count info ∧
  dom (namedGroups m) = list_to_set (group_names info).

(** A timeout as the specification has it: unbounded, or a whole number of
    milliseconds, at least one. *)
Definition wf_timeout (x : JsNumber) : Prop :=
  x = PosInf ∨ ∃ z, (1 ≤ z)%Z ∧ x = of_Z z.

(** The budget left of [total] after the attempts timed by [ts]. *)
Definition budget_after (total : JsNumber) (ts : list Timing) : JsNumber :=
  fold_left (fun remaining t => js_sub remaining (Math_ceil (Num (elapsed t)))) ts total.

(** The budget a suspended generator goes on with. *)
Definition budget_of (it : Iterable) (st : GenState) : option JsNumber :=
  match st with
  | GenSuspendedStart => Some (it_timeout it)
  | GenSuspendedYield _ remainingTimeout => Some remainingTimeout
  | GenCompleted => None
  end.

(** Two generators of the same [matches] object, each in its world, are at
    the same point: both not started on regexes of the same pattern, or both
    looping with the same budget over matchers in the same state, or both
    completed. *)
Definition same_point (it : Iterable) (st1 : GenState) (w1 : World)
    (st2 : GenState) (w2 : World) : Prop :=
  match st1, st2 with
  | GenSuspendedStart, GenSuspendedStart =>
      ∃ r1 r2, heap w1 !! it_regex it = Some r1 ∧ heap w2 !! it_regex it = Some r2 ∧
               source r1 = source r2 ∧ flags r1 = flags r2 ∧ global r1 = true
  | GenSuspendedYield ms1 rem1, GenSuspendedYield ms2 rem2 =>
      rem1 = rem2 ∧ rsi_string ms1 = rsi_string ms2 ∧
      rsi_done ms1 = false ∧ rsi_done ms2 = false ∧
      ∃ r, heap w1 !! rsi_matcher ms1 = Some r ∧ heap w2 !! rsi_matcher ms2 = Some r ∧
           global r = true
  | GenCompleted, GenCompleted => True
  | _, _ => False
  end.

(** Two passes end the same way. *)
Definition same_end (e1 e2 : PassEnd) : Prop :=
  match e1, e2 with
  | Exhausted, Exhausted => True
  | Failed a, Failed b => a = b
  | Stopped _, Stopped _ => True
  | _, _ => False
  end.

(** How many more matches a matcher can give on [s], at most. *)
Definition matches_left (r : RegExp) (s : string) : nat :=
  (S (String.length s) - lastIndex r)%nat.

(** The guarded computation of [isMatch] or [firstMatch] returns within
    the deadline. *)
Definition sync_within (timeout : option JsNumber) (runtime : Q) : bool :=
  host_accepts (normalizeTimeout timeout)
  && negb (deadline_exceeded (normalizeTimeout timeout) runtime).

(** An answer of the worker that takes [arrival] milliseconds comes before
    anything cancels the call: the timeout arms nothing, or is positive and
    the delay its timer runs with is not shorter than [arrival]. *)
Definition async_within (timeout : option JsNumber) (arrival : Q) : bool :=
  match timeout with
  | None => true
  | Some t =>
      Number_isNaN t
      || (negb (js_le t (of_Z 0))
          && (negb (Number_isFinite t) || negb (js_lt (host_delay t) (Num arrival))))
  end.

(** Every turn of a pass over [matches] finds budget left, is given a
    deadline the host takes, and returns within it. *)
Fixpoint on_time (it : Iterable) (remainingTimeout : JsNumber) (ts : list Timing) : bool :=
  match ts with
  | [] => true
  | t :: ts' =>
      negb (budget_exhausted it remainingTimeout)
      && host_accepts (attempt_deadline it remainingTimeout)
      && negb (deadline_exceeded (attempt_deadline it remainingTimeout) (runtime t))
      && on_time it (js_sub remainingTimeout (Math_ceil (Num (elapsed t)))) ts'
  end.

(** The matches of a pattern on an input, from the state [r] of a matcher,
    for at most [n] turns, and whether the end was reached. *)
Fixpoint pure_pass (r : RegExp) (s : string) (n : nat) : list Match * bool :=
  match n with
  | O => ([], false)
  | S n' =>
      match step_result (matcher_step r s) with
      | Normal (Some raw) =>
          let '(ms, e) := pure_pass (step_matcher (matcher_step r s)) s n' in
          (resultToMatch raw :: ms, e)
      | _ => ([], true)
      end
  end.

(** The engine answers every search of the pattern on the input. *)
Definition search_completes (src fl s : string) : Prop :=
  ∀ start, ∃ res, search src fl s start = Normal res.

(** The iterator and the world the generator inside the worker starts its
    loop with. *)
Definition worker_started (src fl s : string) : RegExpStringIterator * World :=
  let regex := fresh (dom (heap emptyWorld)) in
  let w1 := set_heap <[regex := mkRegExp src fl 0]> emptyWorld in
  let matcher := fresh (dom (heap w1)) in
  (mkRSI matcher s false, set_heap <[matcher := mkRegExp src fl 0]> w1).

(** A computation that leaves every regex object as it is. *)
Definition heap_stable {A} (m : M A) : Prop := ∀ w, heap (m w).2 = heap w.

(** The events of [handleAsyncTimeout] for controller [c], when [id] is the
    next timer identifier. *)
Definition arming_events (c id : nat) (timeout : option JsNumber) : list Event :=
  match timeout with
  | None => []
  | Some t =>
      if Number_isNaN t then []
      else if js_le t (of_Z 0) then [EvAbort c]
      else if Number_isFinite t then [EvSetTimeout id t c]
      else []
  end.

(** The timeouts that arm nothing: absent, NaN, and positive infinity. *)
Definition arms_nothing (timeout : option JsNumber) : Prop :=
  timeout = None ∨ timeout = Some NaN ∨ timeout = Some PosInf.

End Vocabulary.

(** ** The first release (index.js 1-53)

    The three operations as first released: the regex is copied with
    [cloneRegexp], the timeout goes to [functionTimeout] as it is, a timeout
    always gives the default value, and [matches] collects every match
    inside one guarded call. *)
Module V1.
Section WithEngine.
Context {engine : Engine}.

(** [cloneRegexp(regex)] of clone-regexp: a new regex object with the
    source, the flags and the [lastIndex] of [regex]. *)
Definition cloneRegexp (regex : positive) : M positive :=
  let* r := read_regex regex in
  alloc_regex (mkRegExp (source r) (flags r) (lastIndex r)).

(** The [timeout] option as the host takes it: [undefined], or a whole
    number of milliseconds of at least 1. *)
Definition vm_timeout (timeout : option positive) : option JsNumber :=
  (fun p => of_Z (Z.pos p)) <$> timeout.

(** index.js 12-22 *)
Definition isMatch (regex : positive) (string : string) (timeout : option positive)
    (runtime : Q) : M bool :=
  try_catch
    (functionTimeout
       (let* clone := cloneRegexp regex in RegExp_test clone string)
       (vm_timeout timeout) runtime)
    (fun error => if isTimeoutError error then mret false else mthrow error).

(** index.js 24-40 *)
Definition firstMatch (regex : positive) (string : string) (timeout : option positive)
    (runtime : Q) : M (option Match) :=
  try_catch
    (let* result :=
       functionTimeout
         (let* clone := cloneRegexp regex in RegExp_exec clone string)
         (vm_timeout timeout) runtime in
     match result with
     | None => mret None
     | Some result => mret (Some (resultToMatch result))
     end)
    (fun error => if isTimeoutError error then mret None else mthrow error).

(** [[...iterator]]: the iterator is advanced until it reports the end;
    [None] when [fuel] advances do not reach it. *)
Fixpoint spread (fuel : nat) (ms : RegExpStringIterator) : M (option (list ExecResult)) :=
  match fuel with
  | O => mret None
  | S fuel' =>
      let* step := RegExpStringIterator_next ms in
      match step.1 with
      | None => mret (Some [])
      | Some value =>
          let* rest := spread fuel' step.2 in
          mret (cons value <$> rest)
      end
  end.

(** index.js 42-53 *)
Definition matches (regex : positive) (string : string) (timeout : option positive)
    (runtime : Q) (fuel : nat) : M (option (list Match)) :=
  try_catch
    (let* results :=
       functionTimeout
         (let* ms := String_matchAll string regex in spread fuel ms)
         (vm_timeout timeout) runtime in
     mret (List.map resultToMatch <$> results))
    (fun error => if isTimeoutError error then mret (Some []) else mthrow error).

End WithEngine.
End V1.

(** ** Vocabulary of the further properties *)

Section FurtherVocabulary.
Context {engine : Engine}.

(** Whether a result is there. *)
Definition found {A} (x : option A) : bool :=
  match x with Some _ => true | None => false end.

(** [f] on the value of a completion. *)
Definition completion_map {A B} (f : A → B) (c : completion A) : completion B :=
  match c with
  | Normal a => Normal (f a)
  | Throw e => Throw e
  end.

(** The result of [firstMatch], as the result of a first [next()]. *)
Definition as_first_turn (c : completion (option Match)) : completion (IterResult Match) :=
  match c with
  | Normal (Some m) => Normal (Yield m)
  | Normal None => Normal Done
  | Throw e => Throw e
  end.

(** The values of [timeout] and [matchTimeout] with which [matches] sets
    no deadline: positive infinity (the default) and NaN. *)
Definition no_deadline (x : JsNumber) : Prop := x = PosInf ∨ x = NaN.

(** The same [matches] object, without timeouts. *)
Definition unbounded (it : Iterable) : Iterable :=
  mkIterable (it_regex it) (it_string it) PosInf PosInf (it_throwOnTimeout it).

(** Where a match ends in the input, and where the search for the next one
    starts: at its end, or one further after an empty match. *)
Definition match_end (m : Match) : nat :=
  (index m + String.length (default EmptyString (match_ m)))%nat.

Definition resume_from (m : Match) : nat :=
  if (String.length (default EmptyString (match_ m)) =? 0)%nat
  then S (match_end m) else match_end m.

(** Each match starts at or after the offset the one before it leaves to
    search from, the first at or after [from]. *)
Fixpoint in_order (from : nat) (ms : list Match) : Prop :=
  match ms with
  | [] => True
  | m :: rest => (from ≤ index m)%nat ∧ in_order (resume_from m) rest
  end.

(** The budget a generator holds is of the kind of the total timeout:
    infinite with an infinite one, finite with a finite one. *)
Definition budget_kind (it : Iterable) (rem : JsNumber) : Prop :=
  (it_timeout it = PosInf ∧ rem = PosInf) ∨
  (∃ q a, it_timeout it = Num q ∧ rem = Num a).

(** The world in which a consumer leaves its loop over [matchesAsync]: one
    that stops early returns the generator. *)
Definition async_leave (e : AsyncPassEnd) (w : World) : World :=
  match e with
  | AsyncStopped st => (async_return st w).2
  | AsyncExhausted | AsyncFailed _ => w
  end.

(** The timers pending while a generator of [matchesAsync] is suspended at
    its [yield]: those of before, and the one its cleanup clears. *)
Definition stream_timers (pending : list Timer) (c : nat) (cl : Cleanup) (w : World) : Prop :=
  Forall (fun t => timer_target t ≠ c) pending ∧
  match cl with
  | CleanupClear id =>
      Forall (fun t => timer_id t ≠ id) pending ∧
      ∃ delay, timers w = pending ++ [mkTimer id delay c]
  | CleanupNoop | CleanupUndefined => timers w = pending
  end.

Definition stream_state (pending : list Timer) (st : AsyncGenState) (w : World) : Prop :=
  match st with
  | AsyncSuspendedStart => timers_ok w ∧ timers w = pending
  | AsyncSuspendedYield c cl _ => stream_timers pending c cl w
  | AsyncCompleted => timers w = pending
  end.

(** The same options, without the total timeout. *)
Definition without_timeout (o : Options) : Options :=
  mkOptions None (matchTimeout o) (throwOnTimeout o).

(** Nothing cancels the signal of [c] in [w]. *)
Definition quiet (c : nat) (w : World) : Prop :=
  signal_aborted c w = false ∧ ∀ a, due_timer c a w = None.

(** A later world has the controllers of an earlier one, and has handed
    out at least as many timer identifiers. *)
Definition extends (w w' : World) : Prop :=
  dom (controllers w) ⊆ dom (controllers w') ∧ (next_timer w ≤ next_timer w')%nat.

Definition grows {A} (m : M A) : Prop := ∀ w, extends w (m w).2.

(** An operation of the isolated regime that a caller makes and sees
    settle; a pass over [matchesAsync] that stops early returns the
    generator. *)
Inductive IsolatedCall : Type :=
  | CallIsMatch (regex : positive) (s : string) (o : Options) (latency : Q)
  | CallFirstMatch (regex : positive) (s : string) (o : Options) (latency : Q)
  | CallMatches (regex : positive) (s : string) (o : Options) (arrivals : list Q).

Definition after_call (w : World) (c : IsolatedCall) : World :=
  match c with
  | CallIsMatch regex s o latency => (isMatchAsync regex s o latency w).2
  | CallFirstMatch regex s o latency => (firstMatchAsync regex s o latency w).2
  | CallMatches regex s o arrivals =>
      async_leave
        (consume_async (mkAsyncCall regex s o) AsyncSuspendedStart arrivals w).1.2
        (consume_async (mkAsyncCall regex s o) AsyncSuspendedStart arrivals w).2
  end.

Definition after_calls (w : World) (calls : list IsolatedCall) : World :=
  foldl after_call w calls.

(** What [withAsyncTimeout] makes of a worker call whose answer takes
    [latency] milliseconds. *)
Definition async_outcome {A} (answer : completion A) (timeout : option JsNumber)
    (latency : Q) (throwOnTimeout : bool) (defaultValue : A) : completion A :=
  if async_within timeout latency then settled answer throwOnTimeout defaultValue
  else timeout_outcome throwOnTimeout defaultValue.

(** A timeout error taken for the default value. *)
Definition soften {A} (d : A) (c : completion A) : completion A :=
  match c with
  | Throw e => if isTimeoutError e then Normal d else Throw e
  | Normal a => Normal a
  end.

(** [lenient] is [strict], or it is the default value where [strict] is
    the timeout error of the isolated regime. *)
Definition lenient_report {A} (d : A) (strict lenient : completion A) : Prop :=
  lenient = strict ∨ (strict = Throw asyncTimeoutError ∧ lenient = Normal d).

(** A computation that neither reads nor writes the regex objects. *)
Definition oblivious {A} (m : M A) : Prop :=
  ∀ f w, m (set_heap f w) = ((m w).1, set_heap f (m w).2).

End FurtherVocabulary.

(** * Properties *)

(** ** Numbers *)

Lemma Math_max_one_integer (z : Z) :
  Math_max (of_Z 1) (of_Z z) = of_Z (Z.max 1 z).
Proof.
  unfold Math_max, of_Z.
  destruct (Qle_bool (inject_Z 1) (inject_Z z)) eqn:E.
  - apply Qle_bool_iff in E. rewrite <- Zle_Qle in E. by rewrite Z.max_r.
  - assert (¬ (1 ≤ z)%Z) as Hlt.
    { intros H. rewrite Zle_Qle in H. apply Qle_bool_iff in H. congruence. }
    rewrite Z.max_l; [done | lia].
Qed.

Lemma Qtrunc_nonneg (q : Q) : (0 <= q)%Q → Qtrunc q = Qfloor q.
Proof.
  destruct q as [n d]. unfold Qle, Qtrunc, Qfloor. simpl. intros H.
  apply Z.quot_div_nonneg; lia.
Qed.

Lemma Qtrunc_abs_floor (q : Q) : Qtrunc (Qabs q) = Qfloor (Qabs q).
Proof. apply Qtrunc_nonneg, Qabs_nonneg. Qed.

(** ** The timeout normalizer *)

Lemma normalizeTimeout_finite (q : Q) :
  normalizeTimeout (Some (Num q)) = Some (of_Z (Z.max 1 (Qtrunc (Qabs q)))).
Proof.
  transitivity
    (let n := Math_max (of_Z 1) (of_Z (Qtrunc (Qabs q))) in
     if negb (Number_isFinite n) then None else Some n); [reflexivity|].
  by rewrite Math_max_one_integer.
Qed.

(** The result of the normalizer, when there is one, is an integer of at
    least 1. *)
Lemma normalizeTimeout_positive_integer (timeout : option JsNumber) (x : JsNumber) :
  normalizeTimeout timeout = Some x → ∃ z, (1 ≤ z)%Z ∧ x = of_Z z.
Proof.
  destruct timeout as [[| | |q]|]; try discriminate.
  rewrite normalizeTimeout_finite. intros [= <-]. eexists. split; [|done]. lia.
Qed.

(** ** The cancellation protocol of the isolated regime *)

Lemma timers_ok_empty : timers_ok emptyWorld.
Proof. constructor. Qed.

Lemma remove_timer_absent (id : nat) (ts : list Timer) :
  Forall (fun t => timer_id t ≠ id) ts → remove_timer id ts = ts.
Proof.
  induction 1 as [|t ts Ht _ IH]; [done|].
  unfold remove_timer in *. simpl. rewrite IH.
  destruct (Nat.eqb_spec (timer_id t) id); [done|done].
Qed.

Lemma remove_timer_new (w : World) (d : JsNumber) (c : nat) :
  timers_ok w →
  remove_timer (next_timer w) (timers w ++ [mkTimer (next_timer w) d c]) = timers w.
Proof.
  intros Hok. unfold remove_timer. rewrite List.filter_app. simpl.
  rewrite Nat.eqb_refl. simpl. rewrite app_nil_r.
  apply remove_timer_absent. eapply Forall_impl; [exact Hok|].
  intros t [_ Hlt]. simpl in Hlt. lia.
Qed.

Lemma find_none_Forall {A} (p : A → bool) (l : list A) :
  Forall (fun x => p x = false) l → List.find p l = None.
Proof. induction 1 as [|x l Hx _ IH]; [done|]. simpl. by rewrite Hx. Qed.

Lemma find_app_none {A} (p : A → bool) (l l' : list A) :
  List.find p l = None → List.find p (l ++ l') = List.find p l'.
Proof.
  induction l as [|x l IH]; [done|]. simpl. destruct (p x); [done|exact IH].
Qed.

(** No pending timer aims at a controller that does not exist yet. *)
Lemma no_timer_for_fresh (w : World) (arrival : Q) (cs : gmap nat bool) (l : list Event) :
  timers_ok w →
  due_timer (fresh (dom (controllers w))) arrival
    (mkWorld (heap w) cs (timers w) (next_timer w) l) = None.
Proof.
  intros Hok. unfold due_timer. simpl. apply find_none_Forall.
  eapply Forall_impl; [exact Hok|]. intros t [Hin _]. simpl in *.
  destruct (Nat.eqb_spec (timer_target t) (fresh (dom (controllers w)))) as [E|]; [|done].
  exfalso. rewrite E in Hin. by apply is_fresh in Hin.
Qed.

Section Isolated.
Context {engine : Engine}.

Lemma isMatchAsync_unfold regex s o latency :
  isMatchAsync regex s o latency =
  withAsyncTimeout (worker_call IsMatchWorker isMatchWorker regex s latency)
    (timeout o) (throwOnTimeout o) false.
Proof. reflexivity. Qed.

Lemma firstMatchAsync_unfold regex s o latency :
  firstMatchAsync regex s o latency =
  withAsyncTimeout (worker_call FirstMatchWorker firstMatchWorker regex s latency)
    (timeout o) (throwOnTimeout o) None.
Proof. reflexivity. Qed.

(** A timeout of zero or less: the signal is cancelled first, the worker
    call is made with the cancelled signal, and the outcome is the timeout
    outcome whatever the worker would answer and however fast. *)
Lemma withAsyncTimeout_nonpositive {A} k (body : string → string → string → M A)
    regex s latency t thr (dflt : A) w r :
  heap w !! regex = Some r →
  js_le t (of_Z 0) = true →
  let c := fresh (dom (controllers w)) in
  ∃ w',
    withAsyncTimeout (worker_call k body regex s latency) (Some t) thr dflt w
      = (timeout_outcome thr dflt, w') ∧
    trace w' = trace w ++ [EvAbort c; EvDispatch k (source r) (flags r) s c] ∧
    timers w' = timers w ∧ next_timer w' = next_timer w ∧ heap w' = heap w.
Proof.
  intros Hr Hle c.
  assert (Number_isNaN t = false) as HnotNaN by (by destruct t).
  unfold withAsyncTimeout, worker_call, call_worker, handleAsyncTimeout, mbind, try_catch,
    new_AbortController, controller_abort, modify, mret, read_regex, await_signal,
    signal_aborted, handleAsyncError, timeout_outcome.
  rewrite HnotNaN, Hle. simpl. rewrite Hr. simpl.
  rewrite lookup_insert_eq. simpl.
  eexists. split.
  - destruct thr; reflexivity.
  - simpl. rewrite <- app_assoc. done.
Qed.

(** Without a timer nothing cancels the call: whatever the latency, the
    outcome is the worker's answer, and the only event is the dispatch. *)
Lemma withAsyncTimeout_unarmed {A} k (body : string → string → string → M A)
    regex s latency timeout thr (dflt : A) w r :
  heap w !! regex = Some r →
  timers_ok w →
  arms_nothing timeout →
  let c := fresh (dom (controllers w)) in
  ∃ w',
    withAsyncTimeout (worker_call k body regex s latency) timeout thr dflt w
      = (settled (isolated (body (source r) (flags r) s)) thr dflt, w') ∧
    trace w' = trace w ++ [EvDispatch k (source r) (flags r) s c] ∧
    timers w' = timers w ∧ signal_aborted c w' = false ∧ heap w' = heap w.
Proof.
  intros Hr Hok Harm c.
  pose proof (no_timer_for_fresh w latency) as Hnone. fold c in Hnone.
  destruct Harm as [-> | [-> | ->]];
    unfold withAsyncTimeout, worker_call, call_worker, handleAsyncTimeout, mbind, try_catch,
      new_AbortController, modify, read_regex, await_signal, signal_aborted, mret;
    fold c; simpl; rewrite Hr; simpl; rewrite lookup_insert_eq; simpl;
    unfold emit, set_controllers; simpl; rewrite (Hnone _ _ Hok);
    unfold settled, handleAsyncError, timeout_outcome, mret, mthrow;
    (destruct (isolated (body (source r) (flags r) s)) as [a|e]; simpl;
     [| destruct (String.eqb (err_name e) "AbortError"); [destruct thr|] ]);
    (eexists; split; [reflexivity|]; simpl; by rewrite lookup_insert_eq).
Qed.

(** A positive finite timeout arms one timer for the call.  The call
    settles with the worker's answer when it arrives within the delay and
    with the timeout outcome otherwise; either way the last thing the call
    does is clear its timer, and no timer of the call stays pending. *)
Lemma withAsyncTimeout_armed {A} k (body : string → string → string → M A)
    regex s latency q thr (dflt : A) w r :
  heap w !! regex = Some r →
  timers_ok w →
  (0 < q)%Q →
  let c := fresh (dom (controllers w)) in
  let id := next_timer w in
  let in_time := negb (js_lt (host_delay (Num q)) (Num latency)) in
  ∃ w',
    withAsyncTimeout (worker_call k body regex s latency) (Some (Num q)) thr dflt w
      = ((if in_time then settled (isolated (body (source r) (flags r) s)) thr dflt
          else timeout_outcome thr dflt), w') ∧
    trace w' = trace w
                 ++ [EvSetTimeout id (Num q) c; EvDispatch k (source r) (flags r) s c]
                 ++ (if in_time then [] else [EvTimerFired id; EvAbort c])
                 ++ [EvClearTimeout id] ∧
    timers w' = timers w ∧ heap w' = heap w.
Proof.
  intros Hr Hok Hq c id in_time. subst in_time.
  assert (js_le (Num q) (of_Z 0) = false) as Hle.
  { simpl. destruct (Qle_bool q (inject_Z 0)) eqn:E; [|done].
    apply Qle_bool_iff in E. exfalso. apply (Qlt_not_le _ _ Hq E). }
  unfold withAsyncTimeout, worker_call, call_worker, handleAsyncTimeout, mbind, try_catch,
    new_AbortController, setTimeout_abort, modify, read_regex, await_signal,
    signal_aborted.
  remember (host_delay (Num q)) as d eqn:Hd. clear Hd.
  fold c. rewrite Hle. simpl. rewrite Hr. simpl. rewrite lookup_insert_eq. simpl.
  unfold due_timer. simpl.
  pose proof (no_timer_for_fresh w latency (<[c:=false]> (controllers w)) [] Hok) as Hnone.
  unfold due_timer in Hnone. simpl in Hnone. fold c in Hnone.
  rewrite (find_app_none _ _ _ Hnone). simpl.
  rewrite Nat.eqb_refl. simpl.
  destruct (js_lt d (Num latency)); simpl.
  - unfold handleAsyncError, timeout_outcome, mret, mthrow, run_cleanup,
      clearTimeout, modify, mbind. simpl.
    destruct thr;
      (eexists; split; [reflexivity|]; simpl;
       rewrite (remove_timer_new w _ _ Hok), <- !app_assoc; simpl;
       split; [done|]; split; [|done];
       apply remove_timer_absent; eapply Forall_impl; [exact Hok|];
       intros t [_ Hlt]; simpl in Hlt; lia).
  - unfold settled, handleAsyncError, timeout_outcome, mret, mthrow, run_cleanup,
      clearTimeout, modify, mbind.
    destruct (isolated (body (source r) (flags r) s)) as [a|e]; simpl.
    + eexists. split; [reflexivity|]. simpl.
      rewrite (remove_timer_new w _ _ Hok), <- !app_assoc. done.
    + destruct (String.eqb (err_name e) "AbortError"); [destruct thr|];
        (eexists; split; [reflexivity|]; simpl;
         rewrite (remove_timer_new w _ _ Hok), <- !app_assoc; done).
Qed.

(** What [async_within] asks of a timeout. *)
Lemma async_within_cases timeout arrival :
  async_within timeout arrival = true →
  arms_nothing timeout ∨
  ∃ q, timeout = Some (Num q) ∧ (0 < q)%Q ∧
       js_lt (host_delay (Num q)) (Num arrival) = false.
Proof.
  unfold async_within, arms_nothing.
  destruct timeout as [[| | |q]|]; try (intros; left; tauto); try done.
  cbn [Number_isNaN Number_isFinite negb orb].
  intros H. right. exists q.
  apply andb_true_iff in H as [H1 H2]. apply negb_true_iff in H1.
  apply negb_true_iff in H2.
  split; [done|]. split; [|done].
  destruct (Qlt_le_dec 0 q) as [|Hle]; [done|]. exfalso.
  assert (Qle_bool q (inject_Z 0) = true) by (by apply Qle_bool_iff).
  simpl in H1. congruence.
Qed.

(** An isolated call that nothing cancels settles with the worker's
    answer. *)
Lemma withAsyncTimeout_within {A} k (body : string → string → string → M A)
    regex s latency timeout thr (dflt : A) w r :
  heap w !! regex = Some r →
  timers_ok w →
  async_within timeout latency = true →
  (withAsyncTimeout (worker_call k body regex s latency) timeout thr dflt w).1
  = settled (isolated (body (source r) (flags r) s)) thr dflt.
Proof.
  intros Hr Hok Hin.
  destruct (async_within_cases timeout latency Hin) as [Harm | (q & -> & Hq & Hle)].
  - destruct (withAsyncTimeout_unarmed k body regex s latency timeout thr dflt w r
                Hr Hok Harm) as (w' & -> & _). done.
  - destruct (withAsyncTimeout_armed k body regex s latency q thr dflt w r Hr Hok Hq)
      as (w' & -> & _). by rewrite Hle.
Qed.

End Isolated.

(** ** C2 *)




(** ** The synchronous operations at the catch boundary *)

Section Synchronous.
Context {engine : Engine}.

Lemma isTimeoutError_script : isTimeoutError scriptTimeoutError = true.
Proof. reflexivity. Qed.

Lemma isTimeoutError_budget : isTimeoutError budgetTimeoutError = true.
Proof. reflexivity. Qed.

(** [isMatch], by what the guarded computation does. *)
Lemma isMatch_run regex s o rt w :
  isMatch regex s o rt w =
  if negb (host_accepts (normalizeTimeout (timeout o))) then (Throw rangeError, w)
  else
    let '(r, w') := (let* clone := structuredClone regex in RegExp_test clone s) w in
    if deadline_exceeded (normalizeTimeout (timeout o)) rt then
      ((if throwOnTimeout o then Throw scriptTimeoutError else Normal false), w')
    else
      match r with
      | Normal b => (Normal b, w')
      | Throw e =>
          ((if isTimeoutError e && negb (throwOnTimeout o) then Normal false else Throw e),
           w')
      end.
Proof.
  unfold isMatch, try_catch, functionTimeout.
  destruct (negb (host_accepts (normalizeTimeout (timeout o)))); [done|].
  destruct ((let* clone := structuredClone regex in RegExp_test clone s) w) as [r w'].
  destruct (deadline_exceeded _ rt).
  - rewrite isTimeoutError_script. by destruct (throwOnTimeout o).
  - destruct r as [b|e]; [done|].
    by destruct (isTimeoutError e && negb (throwOnTimeout o)).
Qed.

Lemma firstMatch_run regex s o rt w :
  firstMatch regex s o rt w =
  if negb (host_accepts (normalizeTimeout (timeout o))) then (Throw rangeError, w)
  else
    let '(r, w') := (let* clone := structuredClone regex in RegExp_exec clone s) w in
    if deadline_exceeded (normalizeTimeout (timeout o)) rt then
      ((if throwOnTimeout o then Throw scriptTimeoutError else Normal None), w')
    else
      match r with
      | Normal result => (Normal (resultToMatch <$> result), w')
      | Throw e =>
          ((if isTimeoutError e && negb (throwOnTimeout o) then Normal None else Throw e),
           w')
      end.
Proof.
  unfold firstMatch.
  set (f := let* clone := structuredClone regex in RegExp_exec clone s).
  unfold try_catch, functionTimeout, mbind at 1.
  destruct (negb (host_accepts (normalizeTimeout (timeout o)))); [done|].
  destruct (f w) as [r w'].
  destruct (deadline_exceeded _ rt).
  - rewrite isTimeoutError_script. by destruct (throwOnTimeout o).
  - destruct r as [[result|]|e]; [done|done|].
    by destruct (isTimeoutError e && negb (throwOnTimeout o)).
Qed.

(** The first [next()] of a generator of [matches] enters the loop with the
    whole budget. *)
Lemma gen_body_start it t w r :
  heap w !! it_regex it = Some r →
  global r = true →
  gen_body it GenSuspendedStart t w
  = loop_turn it (started it r w).1 (it_timeout it) t (started it r w).2.
Proof.
  intros Hr Hg.
  unfold gen_body, structuredClone, String_matchAll, mbind, read_regex, alloc_regex, started.
  rewrite Hr. simpl. rewrite lookup_insert_eq. unfold global in *. simpl. rewrite Hg. simpl.
  reflexivity.
Qed.

Lemma gen_next_start it t w r :
  heap w !! it_regex it = Some r →
  global r = true →
  gen_next it GenSuspendedStart t w
  = gen_next it (GenSuspendedYield (started it r w).1 (it_timeout it)) t (started it r w).2.
Proof.
  intros Hr Hg. unfold gen_next, try_catch.
  by rewrite (gen_body_start it t w r Hr Hg).
Qed.

(** A turn that finds the budget used up ends the sequence at once, and
    touches nothing. *)
Lemma gen_next_exhausted it ms rem t w :
  budget_exhausted it rem = true →
  gen_next it (GenSuspendedYield ms rem) t w
  = ((if it_throwOnTimeout it then Throw budgetTimeoutError else Normal Done),
     GenCompleted, w).
Proof.
  intros Hex. unfold gen_next, try_catch, gen_body, loop_turn. rewrite Hex.
  destruct (it_throwOnTimeout it); reflexivity.
Qed.

(** A turn whose attempt passes its deadline ends the sequence. *)
Lemma gen_next_deadline it ms rem t w :
  budget_exhausted it rem = false →
  host_accepts (attempt_deadline it rem) = true →
  deadline_exceeded (attempt_deadline it rem) (runtime t) = true →
  gen_next it (GenSuspendedYield ms rem) t w
  = ((if it_throwOnTimeout it then Throw scriptTimeoutError else Normal Done),
     GenCompleted, (RegExpStringIterator_next ms w).2).
Proof.
  intros Hex Hacc Hdl.
  unfold gen_next, try_catch, gen_body, loop_turn, attempt, functionTimeout, mbind.
  rewrite Hex, Hacc, Hdl. cbn [negb].
  destruct (RegExpStringIterator_next ms w) as [r w']. simpl.
  destruct (it_throwOnTimeout it); reflexivity.
Qed.

(** A turn that neither times out nor fails yields the next match, or
    reports the end when the engine finds none. *)
(** A turn whose deadline the host does not take throws the host's error,
    and nothing is searched. *)
Lemma gen_next_refused it ms rem t w :
  budget_exhausted it rem = false →
  host_accepts (attempt_deadline it rem) = false →
  gen_next it (GenSuspendedYield ms rem) t w = (Throw rangeError, GenCompleted, w).
Proof.
  intros Hex Hacc.
  unfold gen_next, try_catch, gen_body, loop_turn, attempt, functionTimeout, mbind.
  rewrite Hex, Hacc. reflexivity.
Qed.

Lemma gen_next_on_time it ms rem t w :
  budget_exhausted it rem = false →
  host_accepts (attempt_deadline it rem) = true →
  deadline_exceeded (attempt_deadline it rem) (runtime t) = false →
  gen_next it (GenSuspendedYield ms rem) t w
  = match RegExpStringIterator_next ms w with
    | (Normal (Some value, ms'), w') =>
        (Normal (Yield (resultToMatch value)),
         GenSuspendedYield ms' (js_sub rem (Math_ceil (Num (elapsed t)))), w')
    | (Normal (None, _), w') => (Normal Done, GenCompleted, w')
    | (Throw e, w') =>
        ((if isTimeoutError e && negb (it_throwOnTimeout it) then Normal Done else Throw e),
         GenCompleted, w')
    end.
Proof.
  intros Hex Hacc Hdl.
  unfold gen_next, try_catch, gen_body, loop_turn, attempt, functionTimeout, mbind.
  rewrite Hex, Hacc, Hdl. cbn [negb].
  destruct (RegExpStringIterator_next ms w) as [[[[value|] ms']|e] w']; simpl; try done.
  by destruct (isTimeoutError e && negb (it_throwOnTimeout it)).
Qed.

Lemma gen_next_completed it t w :
  gen_next it GenCompleted t w = (Normal Done, GenCompleted, w).
Proof. reflexivity. Qed.

(** An error of the body that is not a timeout error leaves [next()] as it
    is. *)
Lemma gen_next_rethrows it st t w e :
  (gen_body it st t w).1 = Throw e →
  isTimeoutError e = false →
  (gen_next it st t w).1.1 = Throw e.
Proof.
  intros Hbody Hnt. unfold gen_next, try_catch.
  destruct (gen_body it st t w) as [[x|e'] w']; simpl in *; [done|].
  injection Hbody as ->. rewrite Hnt. reflexivity.
Qed.

End Synchronous.

(** ** C1 *)

Section C1.
Context {engine : Engine}.

Lemma consume_completed it ts w : (consume it GenCompleted ts w).1.1 = [].
Proof. destruct ts; reflexivity. Qed.

(** [exec] on the object at [l], step by step. *)
Lemma RegExp_exec_run l s w r :
  heap w !! l = Some r →
  RegExp_exec l s w =
  let start := if global r || sticky r then lastIndex r else 0%nat in
  if (String.length s <? start)%nat then (Normal None, written l r 0 w)
  else
    let w1 := emit (EvSearch (source r) (flags r) s start) w in
    match search (source r) (flags r) s start with
    | Throw e => (Throw e, w1)
    | Normal None => (Normal None, written l r 0 w1)
    | Normal (Some res) => (Normal (Some res), written l r (r_end res) w1)
    end.
Proof.
  intros Hr. unfold RegExp_exec, written. unfold mbind at 1. unfold read_regex at 1.
  rewrite Hr. cbv zeta.
  destruct (String.length s <? (if global r || sticky r then lastIndex r else 0))%nat.
  - destruct (global r || sticky r); [|reflexivity].
    unfold mbind, set_lastIndex, read_regex, modify, mret, mbind. by rewrite Hr.
  - unfold mbind at 1. unfold modify at 1.
    destruct (search (source r) (flags r) s _) as [[res|]|e]; [| |reflexivity];
      (destruct (global r || sticky r); [|reflexivity]);
      unfold mbind, set_lastIndex, read_regex, modify, mret, mbind; simpl; by rewrite Hr.
Qed.

Lemma written_frame l r i w l' :
  l' ≠ l → heap (written l r i w) !! l' = heap w !! l'.
Proof.
  intros Hne. unfold written. destruct (global r || sticky r); [|done].
  simpl. by rewrite lookup_insert_ne.
Qed.

Lemma fresh_not_allocated (w : World) l (x : RegExp) :
  heap w !! l = Some x → l ≠ fresh (dom (heap w)).
Proof. intros Hl ->. apply (is_fresh (dom (heap w))). apply elem_of_dom. eauto. Qed.

(** A duplicate of a regex is searched from offset 0, whatever the
    [lastIndex] of the original, and the search writes to the duplicate
    only. *)
Lemma exec_clone_run regex s w r :
  heap w !! regex = Some r →
  ∃ w',
    (let* clone := structuredClone regex in RegExp_exec clone s) w
    = (search (source r) (flags r) s 0, w') ∧
    ∀ l x, heap w !! l = Some x → heap w' !! l = Some x.
Proof.
  intros Hr.
  unfold mbind at 1. unfold structuredClone, mbind at 1, read_regex at 1, alloc_regex.
  rewrite Hr.
  set (clone := fresh (dom (heap w))).
  set (c := mkRegExp (source r) (flags r) 0).
  rewrite (RegExp_exec_run clone s _ c) by (simpl; apply lookup_insert_eq).
  replace (if global c || sticky c then lastIndex c else 0%nat) with 0%nat
    by (by destruct (global c || sticky c)).
  change (source c) with (source r). change (flags c) with (flags r). simpl.
  destruct (search (source r) (flags r) s 0) as [[res|]|e];
    (eexists; split; [reflexivity|]);
    intros l x Hl; pose proof (fresh_not_allocated w l x Hl) as Hne; fold clone in Hne;
    rewrite ?written_frame by done; simpl; by rewrite lookup_insert_ne.
Qed.

Lemma test_clone_run regex s w r :
  heap w !! regex = Some r →
  ∃ w',
    (let* clone := structuredClone regex in RegExp_test clone s) w
    = (match search (source r) (flags r) s 0 with
       | Normal res => Normal (match res with Some _ => true | None => false end)
       | Throw e => Throw e
       end, w') ∧
    ∀ l x, heap w !! l = Some x → heap w' !! l = Some x.
Proof.
  intros Hr. destruct (exec_clone_run regex s w r Hr) as (w' & Hrun & Hframe).
  exists w'. split; [|exact Hframe].
  unfold RegExp_test. unfold mbind in *.
  destruct (structuredClone regex w) as [[clone|e] w1]; simpl in *.
  - destruct (RegExp_exec clone s w1) as [[res|e] w2]; simpl in *;
      injection Hrun as <- <-; reflexivity.
  - injection Hrun as <- <-. reflexivity.
Qed.

(** A first advance is a turn on the matcher the generator starts with. *)
Lemma first_turn_times_out it r t w :
  heap w !! it_regex it = Some r →
  global r = true →
  budget_exhausted it (it_timeout it) = true ∨
  (host_accepts (attempt_deadline it (it_timeout it)) = true ∧
   deadline_exceeded (attempt_deadline it (it_timeout it)) (runtime t) = true) →
  ∃ e w',
    isTimeoutError e = true ∧
    gen_next it GenSuspendedStart t w
    = ((if it_throwOnTimeout it then Throw e else Normal Done), GenCompleted, w').
Proof.
  intros Hr Hg Hcase. rewrite (gen_next_start it t w r Hr Hg).
  destruct (budget_exhausted it (it_timeout it)) eqn:Hex.
  - exists budgetTimeoutError, (started it r w).2. split; [done|].
    by apply gen_next_exhausted.
  - destruct Hcase as [Hcase|[Hacc Hdl]]; [done|].
    eexists scriptTimeoutError, _. split; [done|]. by apply gen_next_deadline.
Qed.

(** C1: when the guarded computation passes its deadline, [isMatch] returns
    [false] and [firstMatch] returns [undefined]; every advance of a
    generator of [matches], the first included, that finds the budget used
    up or passes its deadline ends the sequence, after which no element
    follows; with [throwOnTimeout] each of them throws a timeout error
    instead, which [isTimeoutError] recognizes.  An error that is not a
    timeout error reaches the caller as it is, whatever [throwOnTimeout]: a
    failure of the engine, and the error of the host for a deadline it does
    not take (above 2^32 - 1 milliseconds), which is thrown before anything
    is searched; so does, in the isolated regime, every error of the worker
    that is not the cancellation. *)
Theorem C1_timeout_and_error_policy regex s o w :
  (∀ rt,
     host_accepts (normalizeTimeout (timeout o)) = true →
     deadline_exceeded (normalizeTimeout (timeout o)) rt = true →
     (isMatch regex s o rt w).1
       = (if throwOnTimeout o then Throw scriptTimeoutError else Normal false) ∧
     (firstMatch regex s o rt w).1
       = (if throwOnTimeout o then Throw scriptTimeoutError else Normal None)) ∧
  (∀ it ms rem t,
     budget_exhausted it rem = true ∨
     (host_accepts (attempt_deadline it rem) = true ∧
      deadline_exceeded (attempt_deadline it rem) (runtime t) = true) →
     ∃ e w',
       isTimeoutError e = true ∧
       gen_next it (GenSuspendedYield ms rem) t w
         = ((if it_throwOnTimeout it then Throw e else Normal Done), GenCompleted, w') ∧
       ∀ ts w'', (consume it GenCompleted ts w'').1.1 = []) ∧
  (∀ it r t,
     heap w !! it_regex it = Some r →
     global r = true →
     budget_exhausted it (it_timeout it) = true ∨
     (host_accepts (attempt_deadline it (it_timeout it)) = true ∧
      deadline_exceeded (attempt_deadline it (it_timeout it)) (runtime t) = true) →
     (∃ e w',
        isTimeoutError e = true ∧
        gen_next it GenSuspendedStart t w
          = ((if it_throwOnTimeout it then Throw e else Normal Done), GenCompleted, w')) ∧
     ∀ ts, (consume it (Symbol_iterator it) (t :: ts) w).1.1 = []) ∧
  (∀ e rt,
     isTimeoutError e = false →
     host_accepts (normalizeTimeout (timeout o)) = true →
     deadline_exceeded (normalizeTimeout (timeout o)) rt = false →
     (((let* clone := structuredClone regex in RegExp_test clone s) w).1 = Throw e →
      (isMatch regex s o rt w).1 = Throw e) ∧
     (((let* clone := structuredClone regex in RegExp_exec clone s) w).1 = Throw e →
      (firstMatch regex s o rt w).1 = Throw e) ∧
     (∀ r, heap w !! regex = Some r →
           search (source r) (flags r) s 0 = Throw e →
           (isMatch regex s o rt w).1 = Throw e ∧ (firstMatch regex s o rt w).1 = Throw e)) ∧
  (isTimeoutError rangeError = false ∧
   (host_accepts (normalizeTimeout (timeout o)) = false →
    ∀ rt, isMatch regex s o rt w = (Throw rangeError, w) ∧
          firstMatch regex s o rt w = (Throw rangeError, w)) ∧
   (∀ it ms rem t,
      budget_exhausted it rem = false →
      host_accepts (attempt_deadline it rem) = false →
      gen_next it (GenSuspendedYield ms rem) t w = (Throw rangeError, GenCompleted, w))) ∧
  (∀ it st t e,
     isTimeoutError e = false →
     (gen_body it st t w).1 = Throw e →
     (gen_next it st t w).1.1 = Throw e) ∧
  (∀ A e thr (d : A),
     handleAsyncError e thr d w
       = if String.eqb (err_name e) "AbortError" then (timeout_outcome thr d, w)
         else (Throw e, w)) ∧
  (∀ r latency e,
     heap w !! regex = Some r →
     timers_ok w →
     async_within (timeout o) latency = true →
     String.eqb (err_name e) "AbortError" = false →
     (isolated (isMatchWorker (source r) (flags r) s) = Throw e →
      (isMatchAsync regex s o latency w).1 = Throw e) ∧
     (isolated (firstMatchWorker (source r) (flags r) s) = Throw e →
      (firstMatchAsync regex s o latency w).1 = Throw e)).
Proof.
  split; [|split; [|split; [|split; [|split; [|split; [|split]]]]]].
  - intros rt Hacc Hdl. rewrite isMatch_run, firstMatch_run, Hacc. cbn [negb].
    destruct ((let* clone := structuredClone regex in RegExp_test clone s) w).
    destruct ((let* clone := structuredClone regex in RegExp_exec clone s) w).
    rewrite Hdl. done.
  - intros it ms rem t Hcase.
    destruct (budget_exhausted it rem) eqn:Hex.
    + exists budgetTimeoutError, w. split; [done|]. split.
      * by apply gen_next_exhausted.
      * intros. apply consume_completed.
    + destruct Hcase as [Hcase|[Hacc Hdl]]; [done|].
      exists scriptTimeoutError, (RegExpStringIterator_next ms w).2. split; [done|]. split.
      * by apply gen_next_deadline.
      * intros. apply consume_completed.
  - intros it r t Hr Hg Hcase.
    destruct (first_turn_times_out it r t w Hr Hg Hcase) as (e & w' & He & Hn).
    split; [by exists e, w'|].
    intros ts. unfold Symbol_iterator. simpl. rewrite Hn.
    by destruct (it_throwOnTimeout it).
  - intros e rt Hnt Hacc Hdl. rewrite isMatch_run, firstMatch_run, Hacc. cbn [negb].
    split; [|split].
    + destruct ((let* clone := structuredClone regex in RegExp_test clone s) w) as [c w1].
      simpl. intros ->. by rewrite Hdl, Hnt.
    + destruct ((let* clone := structuredClone regex in RegExp_exec clone s) w) as [c w1].
      simpl. intros ->. by rewrite Hdl, Hnt.
    + intros r Hr Hsearch.
      destruct (test_clone_run regex s w r Hr) as (w1 & -> & _).
      destruct (exec_clone_run regex s w r Hr) as (w2 & -> & _).
      by rewrite Hdl, Hsearch, Hnt.
  - split; [done|]. split.
    + intros Hacc rt. by rewrite isMatch_run, firstMatch_run, Hacc.
    + intros it ms rem t Hex Hacc. by apply gen_next_refused.
  - intros it st t e Hnt Hbody. by apply gen_next_rethrows.
  - intros A e thr d. unfold handleAsyncError, timeout_outcome, mthrow, mret.
    destruct (String.eqb (err_name e) "AbortError"); [by destruct thr|done].
  - intros r latency e Hr Hok Hin Hname.
    rewrite isMatchAsync_unfold, firstMatchAsync_unfold.
    rewrite (withAsyncTimeout_within IsMatchWorker isMatchWorker regex s latency
               (timeout o) (throwOnTimeout o) false w r Hr Hok Hin).
    rewrite (withAsyncTimeout_within FirstMatchWorker firstMatchWorker regex s latency
               (timeout o) (throwOnTimeout o) None w r Hr Hok Hin).
    split; intros ->; unfold settled; by rewrite Hname.
Qed.

End C1.

Lemma C1_timeout_and_error_policy_witness :
  (isMatch (engine := Fixture.engine) Fixture.digits "a1b22c333"
     (mkOptions (Some (of_Z 10)) None false) 11 Fixture.world).1 = Normal false ∧
  (firstMatch (engine := Fixture.engine) Fixture.digits "a1b22c333"
     (mkOptions (Some (of_Z 10)) None false) 11 Fixture.world).1 = Normal None ∧
  (isMatch (engine := Fixture.failing) Fixture.digits "a1b22c333"
     (mkOptions (Some (of_Z 10)) None false) 1 Fixture.world).1 = Throw Fixture.stackError ∧
  (∃ e w',
     isTimeoutError e = true ∧
     gen_next (engine := Fixture.engine)
       (mkIterable Fixture.digits "a1b22c333" (of_Z 10) PosInf true)
       (GenSuspendedYield
          (started (mkIterable Fixture.digits "a1b22c333" (of_Z 10) PosInf true)
             (mkRegExp "\d+" "g" 4) Fixture.world).1 (of_Z 10))
       (mkTiming 11 12)
       (started (mkIterable Fixture.digits "a1b22c333" (of_Z 10) PosInf true)
          (mkRegExp "\d+" "g" 4) Fixture.world).2
     = (Throw e, GenCompleted, w')) ∧
  (∃ e w',
     isTimeoutError e = true ∧
     gen_next (engine := Fixture.engine)
       (mkIterable Fixture.digits "a1b22c333" (of_Z 10) PosInf true)
       GenSuspendedStart (mkTiming 11 12) Fixture.world
     = (Throw e, GenCompleted, w')) ∧
  isMatch (engine := Fixture.engine) Fixture.digits "a1b22c333"
    (mkOptions (Some (of_Z 4294967296)) None false) 1 Fixture.world
  = (Throw rangeError, Fixture.world) ∧
  (gen_next (engine := Fixture.failing)
     (mkIterable Fixture.digits "a1b22c333" (of_Z 10) PosInf false)
     GenSuspendedStart (mkTiming 1 2) Fixture.world).1.1 = Throw Fixture.stackError.
Proof.
  pose proof (C1_timeout_and_error_policy (engine := Fixture.engine) Fixture.digits
                "a1b22c333"%string (mkOptions (Some (of_Z 10)) None false) Fixture.world)
    as (Htimeout & _ & Hfirst & _).
  pose proof (C1_timeout_and_error_policy (engine := Fixture.engine) Fixture.digits
                "a1b22c333"%string (mkOptions (Some (of_Z 10)) None false)
                (started (mkIterable Fixture.digits "a1b22c333" (of_Z 10) PosInf true)
                   (mkRegExp "\d+" "g" 4) Fixture.world).2)
    as (_ & Hturn & _).
  pose proof (C1_timeout_and_error_policy (engine := Fixture.engine) Fixture.digits
                "a1b22c333"%string (mkOptions (Some (of_Z 4294967296)) None false)
                Fixture.world)
    as (_ & _ & _ & _ & (_ & Hrefused & _) & _).
  pose proof (C1_timeout_and_error_policy (engine := Fixture.failing) Fixture.digits
                "a1b22c333"%string (mkOptions (Some (of_Z 10)) None false) Fixture.world)
    as (_ & _ & _ & Herror & _ & Hbody & _).
  destruct (Htimeout 11%Q eq_refl eq_refl) as [H1 H2].
  destruct (Herror Fixture.stackError 1%Q eq_refl eq_refl eq_refl) as (_ & _ & Hengine).
  destruct (Hengine (mkRegExp "\d+" "g" 4) eq_refl eq_refl) as [H3 _].
  destruct (Hturn (mkIterable Fixture.digits "a1b22c333" (of_Z 10) PosInf true)
              (started (mkIterable Fixture.digits "a1b22c333" (of_Z 10) PosInf true)
                 (mkRegExp "\d+" "g" 4) Fixture.world).1
              (of_Z 10) (mkTiming 11 12) (or_intror (conj eq_refl eq_refl)))
    as (e & w' & He & Hnext & _).
  destruct (Hfirst (mkIterable Fixture.digits "a1b22c333" (of_Z 10) PosInf true)
              (mkRegExp "\d+" "g" 4) (mkTiming 11 12) eq_refl eq_refl
              (or_intror (conj eq_refl eq_refl)))
    as [(e0 & w0 & He0 & Hnext0) _].
  split; [exact H1|]. split; [exact H2|]. split; [exact H3|]. split.
  { exists e, w'. split; [exact He | exact Hnext]. }
  split.
  { exists e0, w0. split; [exact He0 | exact Hnext0]. }
  split.
  { exact (proj1 (Hrefused eq_refl 1%Q)). }
  exact (Hbody (mkIterable Fixture.digits "a1b22c333" (of_Z 10) PosInf false)
           GenSuspendedStart (mkTiming 1 2) Fixture.stackError eq_refl eq_refl).
Defined.

(** ** C4 and C10: the global flag *)

Section GlobalFlag.
Context {engine : Engine}.

Lemma matches_without_global regex s o w r :
  heap w !! regex = Some r → global r = false →
  matches regex s o w = (Throw globalFlagError, w).
Proof.
  intros Hr Hg. unfold matches, mbind, read_regex. rewrite Hr. simpl. by rewrite Hg.
Qed.

Lemma async_next_without_global regex s o arrival w r :
  heap w !! regex = Some r → global r = false →
  async_next (mkAsyncCall regex s o) AsyncSuspendedStart arrival w
  = (Throw globalFlagErrorAsync, AsyncCompleted, w).
Proof.
  intros Hr Hg. unfold async_next, async_body, mbind, read_regex. simpl.
  rewrite Hr. simpl. by rewrite Hg.
Qed.

Lemma handleAsyncTimeout_trace c timeout w :
  trace (handleAsyncTimeout c timeout w).2
  = trace w ++ arming_events c (next_timer w) timeout.
Proof.
  unfold handleAsyncTimeout, arming_events.
  destruct timeout as [t|]; [|simpl; by rewrite app_nil_r].
  destruct (Number_isNaN t); [simpl; by rewrite app_nil_r|].
  destruct (js_le t (of_Z 0)) eqn:Hle; simpl.
  - reflexivity.
  - destruct (Number_isFinite t); simpl; [reflexivity | by rewrite app_nil_r].
Qed.

Lemma await_signal_trace c arrival w :
  ∃ evs, trace (await_signal c arrival w).2 = trace w ++ evs.
Proof.
  unfold await_signal. destruct (signal_aborted c w).
  - exists []. simpl. by rewrite app_nil_r.
  - destruct (due_timer c arrival w); simpl.
    + eexists. by rewrite <- app_assoc.
    + exists []. by rewrite app_nil_r.
Qed.

Lemma run_cleanup_trace cl w :
  ∃ evs, trace (run_cleanup cl w).2 = trace w ++ evs.
Proof.
  destruct cl; simpl; [exists []; by rewrite app_nil_r ..|]. eexists. reflexivity.
Qed.

Lemma for_await_turn_trace call c cl worker arrival w :
  ∃ evs, trace (for_await_turn call c cl worker arrival w).2 = trace w ++ evs.
Proof.
  unfold for_await_turn.
  destruct (await_signal_trace c arrival w) as [evs1 H1].
  unfold mbind at 1.
  destruct (await_signal c arrival w) as [[[]|e] w1]; simpl in H1.
  - destruct (matchesWorker_next worker) as [[[m|]|e] worker'].
    + exists evs1. exact H1.
    + destruct (run_cleanup_trace cl w1) as [evs2 H2].
      unfold mbind. destruct (run_cleanup cl w1) as [[[]|e] w2]; simpl in *;
        exists (evs1 ++ evs2); by rewrite H2, H1, app_assoc.
    + destruct (run_cleanup_trace cl w1) as [evs2 H2].
      unfold handleAsyncError, mbind, mret, mthrow.
      destruct (String.eqb (err_name e) "AbortError");
        [destruct (throwOnTimeout (ac_options call))|];
        destruct (run_cleanup cl w1) as [[[]|e'] w2]; simpl in *;
        exists (evs1 ++ evs2); by rewrite H2, H1, app_assoc.
  - destruct (run_cleanup_trace cl w1) as [evs2 H2].
    unfold handleAsyncError, mbind, mret, mthrow.
    destruct (String.eqb (err_name e) "AbortError");
      [destruct (throwOnTimeout (ac_options call))|];
      destruct (run_cleanup cl w1) as [[[]|e'] w2]; simpl in *;
      exists (evs1 ++ evs2); by rewrite H2, H1, app_assoc.
Qed.

(** With the global flag, the first advance is where the controller is
    made, the timeout handled and the worker asked. *)
Lemma async_next_first_trace regex s o arrival w r :
  heap w !! regex = Some r → global r = true →
  let c := fresh (dom (controllers w)) in
  ∃ evs,
    trace (async_next (mkAsyncCall regex s o) AsyncSuspendedStart arrival w).2
    = trace w ++ arming_events c (next_timer w) (timeout o)
        ++ [EvDispatch MatchesWorker (source r) (flags r) s c] ++ evs.
Proof.
  intros Hr Hg c.
  unfold async_next, async_body. cbn [ac_regex ac_string ac_options].
  unfold mbind at 1. unfold read_regex at 1.
  rewrite Hr, Hg. cbn [negb].
  unfold mbind at 1. unfold new_AbortController at 1. fold c.
  set (w1 := set_controllers <[c:=false]> w).
  pose proof (handleAsyncTimeout_trace c (timeout o) w1) as Ht.
  unfold mbind at 1.
  assert (∃ cl w2, handleAsyncTimeout c (timeout o) w1 = (Normal cl, w2)) as (cl & w2 & Hh).
  { unfold handleAsyncTimeout.
    destruct (timeout o) as [t|]; [|by eexists _, _].
    destruct (Number_isNaN t); [by eexists _, _|].
    destruct (js_le t (of_Z 0) || negb (Number_isFinite t)); [|by eexists _, _].
    destruct (js_le t (of_Z 0)); by eexists _, _. }
  rewrite Hh in Ht |- *. simpl in Ht.
  unfold mbind at 1. unfold modify at 1.
  destruct (for_await_turn_trace (mkAsyncCall regex s o) c cl
              (WorkerStart (source r) (flags r) s) arrival
              (emit (EvDispatch MatchesWorker (source r) (flags r) s c) w2)) as [evs Hevs].
  exists evs.
  destruct (for_await_turn _ c cl _ arrival _) as [[[x st]|e] w3]; simpl in *;
    rewrite Hevs, Ht, <- !app_assoc; reflexivity.
Qed.

End GlobalFlag.

(** C4: on a regex without the global flag, [matches] throws the
    configuration error, and the generator of [matchesAsync] throws it at
    its first advance, whatever the options; the error is neither a
    timeout error nor the cancellation, and no element is produced. *)
Theorem C4_global_flag_required {engine : Engine} regex s o w r :
  heap w !! regex = Some r →
  global r = false →
  matches regex s o w = (Throw globalFlagError, w) ∧
  (∀ arrival,
     async_next (mkAsyncCall regex s o) AsyncSuspendedStart arrival w
     = (Throw globalFlagErrorAsync, AsyncCompleted, w)) ∧
  (∀ arrival arrivals,
     consume_async (mkAsyncCall regex s o) AsyncSuspendedStart (arrival :: arrivals) w
     = ([], AsyncFailed globalFlagErrorAsync, w)) ∧
  isTimeoutError globalFlagError = false ∧
  String.eqb (err_name globalFlagErrorAsync) "AbortError" = false.
Proof.
  intros Hr Hg. split; [by apply (matches_without_global regex s o w r)|].
  split; [intros; by apply (async_next_without_global regex s o arrival w r)|].
  split; [|done].
  intros arrival arrivals. simpl.
  by rewrite (async_next_without_global regex s o arrival w r).
Qed.

Lemma C4_global_flag_required_witness :
  matches Fixture.test "test" (mkOptions (Some (of_Z 10)) None true) Fixture.world
    = (Throw globalFlagError, Fixture.world) ∧
  consume_async (engine := Fixture.engine)
    (mkAsyncCall Fixture.test "test" (mkOptions (Some (of_Z 10)) None true))
    AsyncSuspendedStart [1%Q] Fixture.world
    = ([], AsyncFailed globalFlagErrorAsync, Fixture.world).
Proof.
  destruct (C4_global_flag_required (engine := Fixture.engine) Fixture.test "test"%string
              (mkOptions (Some (of_Z 10)) None true) Fixture.world
              (mkRegExp "test" "" 0) eq_refl eq_refl) as (H1 & _ & H3 & _).
  exact (conj H1 (H3 1%Q [])).
Defined.

(** C10: the call of [matchesAsync] returns a generator that has not
    started and changes nothing, also for a regex without the global flag;
    only the first advance checks the flag, and with the flag present makes
    the controller, handles the timeout and asks the worker.  [matches]
    throws at the call. *)
Theorem C10_matchesAsync_is_lazy {engine : Engine} regex s o w :
  matchesAsync regex s o w = (Normal (mkAsyncCall regex s o, AsyncSuspendedStart), w) ∧
  (∀ r arrival,
     heap w !! regex = Some r → global r = false →
     async_next (mkAsyncCall regex s o) AsyncSuspendedStart arrival w
       = (Throw globalFlagErrorAsync, AsyncCompleted, w) ∧
     matches regex s o w = (Throw globalFlagError, w)) ∧
  (∀ r arrival,
     heap w !! regex = Some r → global r = true →
     let c := fresh (dom (controllers w)) in
     ∃ evs,
       trace (async_next (mkAsyncCall regex s o) AsyncSuspendedStart arrival w).2
       = trace w ++ arming_events c (next_timer w) (timeout o)
           ++ [EvDispatch MatchesWorker (source r) (flags r) s c] ++ evs).
Proof.
  split; [reflexivity|]. split.
  - intros r arrival Hr Hg. split.
    + by apply (async_next_without_global regex s o arrival w r).
    + by apply (matches_without_global regex s o w r).
  - intros r arrival Hr Hg. by apply async_next_first_trace.
Qed.

Lemma C10_matchesAsync_is_lazy_witness :
  matchesAsync Fixture.test "test" noOptions Fixture.world
    = (Normal (mkAsyncCall Fixture.test "test" noOptions, AsyncSuspendedStart),
       Fixture.world) ∧
  async_next (engine := Fixture.engine) (mkAsyncCall Fixture.test "test" noOptions)
    AsyncSuspendedStart 1 Fixture.world
    = (Throw globalFlagErrorAsync, AsyncCompleted, Fixture.world) ∧
  matches Fixture.test "test" noOptions Fixture.world = (Throw globalFlagError, Fixture.world).
Proof.
  destruct (C10_matchesAsync_is_lazy (engine := Fixture.engine) Fixture.test "test"%string
              noOptions Fixture.world) as (H1 & H2 & _).
  destruct (H2 (mkRegExp "test" "" 0) 1%Q eq_refl eq_refl) as [H3 H4].
  exact (conj H1 (conj H3 H4)).
Defined.

(** ** The iterator of [matchAll], step by step *)

Section MatchAllIterator.
Context {engine : Engine}.

Lemma World_eq (w w' : World) :
  heap w = heap w' → controllers w = controllers w' → timers w = timers w' →
  next_timer w = next_timer w' → trace w = trace w' → w = w'.
Proof. destruct w, w'. simpl. by intros -> -> -> -> ->. Qed.

Lemma global_stateful r : global r = true → global r || sticky r = true.
Proof. by intros ->. Qed.

Lemma RegExpStringIterator_next_run ms w r :
  heap w !! rsi_matcher ms = Some r →
  global r = true →
  rsi_done ms = false →
  RegExpStringIterator_next ms w
  = (match step_result (matcher_step r (rsi_string ms)) with
     | Normal (Some value) => Normal (Some value, ms)
     | Normal None => Normal (None, mkRSI (rsi_matcher ms) (rsi_string ms) true)
     | Throw e => Throw e
     end,
     apply_step (rsi_matcher ms) (matcher_step r (rsi_string ms)) w).
Proof.
  intros Hr Hg Hd. pose proof (global_stateful r Hg) as Hst.
  unfold RegExpStringIterator_next. rewrite Hd.
  unfold mbind at 1. rewrite (RegExp_exec_run _ _ _ r Hr).
  unfold matcher_step, written. rewrite Hst. cbv zeta.
  destruct (String.length (rsi_string ms) <? lastIndex r)%nat.
  - f_equal. apply World_eq; simpl; by rewrite ?app_nil_r.
  - destruct (search (source r) (flags r) (rsi_string ms) (lastIndex r)) as [[res|]|e];
      cbn [step_result step_matcher step_events].
    + unfold mbind at 1.
      destruct (String.length (default EmptyString (array_get (r_elems res) 0)) =? 0)%nat.
      * unfold mbind, read_regex, set_lastIndex, mbind, read_regex, modify, mret.
        cbn [heap set_heap emit]. rewrite !lookup_insert_eq. cbn [heap set_heap emit].
        rewrite !lookup_insert_eq. f_equal.
        apply World_eq; simpl; try done. by rewrite insert_insert_eq.
      * unfold mret. f_equal.
    + f_equal.
    + f_equal. apply World_eq; simpl; try done. by rewrite insert_id.
Qed.

Lemma RegExpStringIterator_next_done ms w :
  rsi_done ms = true → RegExpStringIterator_next ms w = (Normal (None, ms), w).
Proof. intros Hd. unfold RegExpStringIterator_next. by rewrite Hd. Qed.

(** What a step keeps: the pattern of the matcher. *)
Lemma matcher_step_pattern r s :
  source (step_matcher (matcher_step r s)) = source r ∧
  flags (step_matcher (matcher_step r s)) = flags r.
Proof.
  unfold matcher_step.
  destruct (String.length s <? lastIndex r)%nat; [done|].
  by destruct (search (source r) (flags r) s (lastIndex r)) as [[res|]|e].
Qed.

(** A match a step answers with is an answer of the engine. *)
Lemma matcher_step_result r s res :
  step_result (matcher_step r s) = Normal (Some res) →
  search (source r) (flags r) s (lastIndex r) = Normal (Some res).
Proof.
  unfold matcher_step.
  destruct (String.length s <? lastIndex r)%nat; [done|].
  destruct (search (source r) (flags r) s (lastIndex r)) as [[res'|]|e]; simpl; congruence.
Qed.

End MatchAllIterator.

(** ** One turn of a generator of [matches] *)

Section GeneratorTurn.
Context {engine : Engine}.

Lemma apply_step_frame l st w l' :
  l' ≠ l → heap (apply_step l st w) !! l' = heap w !! l'.
Proof. intros Hne. simpl. by rewrite lookup_insert_ne. Qed.

Lemma apply_step_matcher_of src fl s ms r w :
  rsi_string ms = s → rsi_done ms = false →
  source r = src → flags r = fl →
  matcher_of src fl s ms (apply_step (rsi_matcher ms) (matcher_step r s) w).
Proof.
  intros Hs Hd Hsrc Hfl. split; [done|]. split; [done|].
  exists (step_matcher (matcher_step r s)). simpl. rewrite lookup_insert_eq.
  destruct (matcher_step_pattern r s) as [-> ->]. done.
Qed.

(** A turn of a looping generator: it stays in order, what it yields is a
    normalized answer of the engine for its pattern and input, and it
    writes to no regex object but its own matcher. *)
Lemma gen_next_looping it src fl ms rem t w :
  gen_ok it src fl (GenSuspendedYield ms rem) w →
  let '(res, st', w') := gen_next it (GenSuspendedYield ms rem) t w in
  gen_ok it src fl st' w' ∧
  (∀ m, res = Normal (Yield m) →
        ∃ raw start, search src fl (it_string it) start = Normal (Some raw) ∧
                     m = resultToMatch raw) ∧
  (∀ l, l ≠ rsi_matcher ms → heap w' !! l = heap w !! l) ∧
  (∀ l, owns st' l → l = rsi_matcher ms).
Proof.
  intros [Hg (Hs & Hd & r & Hr & Hsrc & Hfl)].
  assert (global r = true) as Hgr by (unfold global; by rewrite Hfl).
  destruct (budget_exhausted it rem) eqn:Hex.
  { rewrite gen_next_exhausted by done.
    split; [done|]. split; [|done].
    intros m Hm. by destruct (it_throwOnTimeout it). }
  destruct (host_accepts (attempt_deadline it rem)) eqn:Hacc; cycle 1.
  { rewrite gen_next_refused by done. split; [done|]. split; [done|]. by split. }
  destruct (deadline_exceeded (attempt_deadline it rem) (runtime t)) eqn:Hdl.
  { rewrite gen_next_deadline by done.
    rewrite (RegExpStringIterator_next_run ms w r Hr Hgr Hd). cbn [snd].
    split; [done|]. split; [|split; [|done]].
    - intros m Hm. by destruct (it_throwOnTimeout it).
    - intros l Hl. by apply apply_step_frame. }
  rewrite gen_next_on_time by done.
  rewrite (RegExpStringIterator_next_run ms w r Hr Hgr Hd).
  destruct (step_result (matcher_step r (rsi_string ms))) as [[raw|]|e] eqn:Hres.
  - split; [|split; [|split]].
    + split; [done|]. simpl. rewrite <- Hs. by apply apply_step_matcher_of.
    + intros m [= <-]. exists raw, (lastIndex r). split; [|done].
      rewrite <- Hsrc, <- Hfl, <- Hs. by apply matcher_step_result.
    + intros l Hl. by apply apply_step_frame.
    + intros l Hl. simpl in Hl. done.
  - split; [done|]. split; [done|]. split; [|done].
    intros l Hl. by apply apply_step_frame.
  - split; [done|]. split; [|split; [|done]].
    + intros m Hm. by destruct (isTimeoutError e && negb (it_throwOnTimeout it)).
    + intros l Hl. by apply apply_step_frame.
Qed.

Lemma started_ok it r w :
  heap w !! it_regex it = Some r →
  global r = true →
  gen_ok it (source r) (flags r) (GenSuspendedYield (started it r w).1 (it_timeout it))
    (started it r w).2 ∧
  (∀ l x, heap w !! l = Some x →
          heap (started it r w).2 !! l = Some x ∧ l ≠ rsi_matcher (started it r w).1).
Proof.
  intros Hr Hg. split.
  - split; [exact Hg|]. split; [done|]. split; [done|].
    eexists. simpl. rewrite lookup_insert_eq. done.
  - intros l x Hl. pose proof (fresh_not_allocated w l x Hl) as Hne.
    set (w1 := set_heap <[fresh (dom (heap w)) := mkRegExp (source r) (flags r) 0]> w).
    assert (heap w1 !! l = Some x) as Hl1 by (simpl; by rewrite lookup_insert_ne).
    pose proof (fresh_not_allocated w1 l x Hl1) as Hne1.
    split; [|exact Hne1].
    unfold started. fold w1. simpl. rewrite lookup_insert_ne by done. exact Hl1.
Qed.

(** Any turn of a generator in order. *)
Lemma gen_next_spec it src fl st t w :
  gen_ok it src fl st w →
  let '(res, st', w') := gen_next it st t w in
  gen_ok it src fl st' w' ∧
  (∀ m, res = Normal (Yield m) →
        ∃ raw start, search src fl (it_string it) start = Normal (Some raw) ∧
                     m = resultToMatch raw) ∧
  (∀ l x, heap w !! l = Some x → ¬ owns st l → heap w' !! l = Some x ∧ ¬ owns st' l).
Proof.
  intros Hok. destruct st as [|ms rem|].
  - destruct Hok as [Hg (r & Hr & <- & <-)].
    rewrite (gen_next_start it t w r Hr Hg).
    destruct (started_ok it r w Hr Hg) as [Hok0 Hframe0].
    pose proof (gen_next_looping it (source r) (flags r) _ _ t _ Hok0) as H.
    destruct (gen_next it (GenSuspendedYield (started it r w).1 (it_timeout it)) t
                (started it r w).2) as [[res st'] w'].
    destruct H as (Hok' & Hy & Hfr & Hown).
    split; [exact Hok'|]. split; [exact Hy|].
    intros l x Hl _. destruct (Hframe0 l x Hl) as [Hl0 Hne].
    split; [by rewrite Hfr|]. intros Ho. by apply Hown in Ho.
  - pose proof (gen_next_looping it src fl ms rem t w Hok) as H.
    destruct (gen_next it (GenSuspendedYield ms rem) t w) as [[res st'] w'].
    destruct H as (Hok' & Hy & Hfr & Hown).
    split; [exact Hok'|]. split; [exact Hy|].
    intros l x Hl Hno. simpl in Hno.
    split; [rewrite Hfr; [done|congruence]|].
    intros Ho. apply Hown in Ho. congruence.
  - rewrite gen_next_completed. destruct Hok as [Hg _].
    split; [done|]. split; [done|]. intros l x Hl Hno. done.
Qed.

End GeneratorTurn.

(** ** A pass over a generator of [matches] *)

Section Pass.
Context {engine : Engine}.

Lemma consume_spec it src fl ts : ∀ st w,
  gen_ok it src fl st w →
  Forall (fun m => ∃ raw start, search src fl (it_string it) start = Normal (Some raw) ∧
                                m = resultToMatch raw)
    (consume it st ts w).1.1 ∧
  (∀ l x, heap w !! l = Some x → ¬ owns st l →
          heap (consume it st ts w).2 !! l = Some x).
Proof.
  induction ts as [|t ts IH]; intros st w Hok.
  - simpl. split; [constructor|done].
  - simpl. pose proof (gen_next_spec it src fl st t w Hok) as H.
    destruct (gen_next it st t w) as [[[[m|]|e] st'] w'].
    + destruct H as (Hok' & Hy & Hfr).
      specialize (IH st' w' Hok').
      destruct (consume it st' ts w') as [[ms e] w'']. simpl in *.
      destruct IH as [IH1 IH2]. split.
      * constructor; [by apply Hy | exact IH1].
      * intros l x Hl Hno. destruct (Hfr l x Hl Hno) as [Hl' Hno']. by apply IH2.
    + destruct H as (_ & _ & Hfr). simpl. split; [constructor|].
      intros l x Hl Hno. by destruct (Hfr l x Hl Hno).
    + destruct H as (_ & _ & Hfr). simpl. split; [constructor|].
      intros l x Hl Hno. by destruct (Hfr l x Hl Hno).
Qed.

End Pass.

(** ** The isolated regime leaves the caller's heap alone *)

Create HintDb stable discriminated.

Section HeapStable.
Context {engine : Engine}.

Lemma heap_stable_ret {A} (a : A) : heap_stable (mret a).
Proof. done. Qed.

Lemma heap_stable_throw {A} e : heap_stable (@mthrow A e).
Proof. done. Qed.

Lemma heap_stable_bind {A B} (m : M A) (k : A → M B) :
  heap_stable m → (∀ a, heap_stable (k a)) → heap_stable (mbind m k).
Proof.
  intros Hm Hk w. unfold mbind. specialize (Hm w).
  destruct (m w) as [[a|e] w']; simpl in *; [|done]. by rewrite Hk.
Qed.

Lemma heap_stable_catch {A} (m : M A) (h : JsError → M A) :
  heap_stable m → (∀ e, heap_stable (h e)) → heap_stable (try_catch m h).
Proof.
  intros Hm Hh w. unfold try_catch. specialize (Hm w).
  destruct (m w) as [[a|e] w']; simpl in *; [done|]. by rewrite Hh.
Qed.

Lemma heap_stable_read l : heap_stable (read_regex l).
Proof. intros w. unfold read_regex. by destruct (heap w !! l). Qed.

Lemma heap_stable_emit ev : heap_stable (modify (emit ev)).
Proof. done. Qed.

Lemma heap_stable_new_controller : heap_stable new_AbortController.
Proof. done. Qed.

Lemma heap_stable_abort c : heap_stable (controller_abort c).
Proof. done. Qed.

Lemma heap_stable_handleAsyncTimeout c timeout : heap_stable (handleAsyncTimeout c timeout).
Proof.
  intros w. unfold handleAsyncTimeout.
  destruct timeout as [t|]; [|done].
  destruct (Number_isNaN t); [done|].
  destruct (js_le t (of_Z 0) || negb (Number_isFinite t)); [|done].
  by destruct (js_le t (of_Z 0)).
Qed.

Lemma heap_stable_cleanup cl : heap_stable (run_cleanup cl).
Proof. by destruct cl. Qed.

Lemma heap_stable_handleAsyncError {A} e thr (d : A) : heap_stable (handleAsyncError e thr d).
Proof.
  intros w. unfold handleAsyncError.
  destruct (String.eqb (err_name e) "AbortError"); [by destruct thr|done].
Qed.

Lemma heap_stable_await c arrival : heap_stable (await_signal c arrival).
Proof.
  intros w. unfold await_signal. destruct (signal_aborted c w); [done|].
  by destruct (due_timer c arrival w).
Qed.

Lemma heap_stable_answer {A} (answer : completion A) :
  heap_stable (fun w => (answer, w)).
Proof. done. Qed.

Hint Resolve heap_stable_ret heap_stable_throw heap_stable_read heap_stable_emit
  heap_stable_new_controller heap_stable_abort heap_stable_handleAsyncTimeout
  heap_stable_cleanup heap_stable_handleAsyncError heap_stable_await
  heap_stable_answer : stable.

Lemma heap_stable_call_worker {A} k c src fl s (body : M A) latency :
  heap_stable (call_worker k c src fl s body latency).
Proof.
  unfold call_worker. repeat (apply heap_stable_bind; [auto with stable|intros]).
  auto with stable.
Qed.

Lemma heap_stable_withAsyncTimeout {A} (f : nat → M A) timeout thr (d : A) :
  (∀ c, heap_stable (f c)) → heap_stable (withAsyncTimeout f timeout thr d).
Proof.
  intros Hf. unfold withAsyncTimeout.
  apply heap_stable_bind; [auto with stable|intros c].
  apply heap_stable_bind; [auto with stable|intros cl].
  apply heap_stable_catch.
  - apply heap_stable_bind; [apply Hf|intros].
    apply heap_stable_bind; auto with stable.
  - intros e. apply heap_stable_bind; auto with stable.
Qed.

Lemma heap_stable_worker_call {A} k (body : string → string → string → M A) regex s latency c :
  heap_stable (worker_call k body regex s latency c).
Proof.
  unfold worker_call. apply heap_stable_bind; [auto with stable|intros r].
  apply heap_stable_call_worker.
Qed.

Lemma heap_stable_isMatchAsync regex s o latency :
  heap_stable (isMatchAsync regex s o latency).
Proof.
  rewrite isMatchAsync_unfold. apply heap_stable_withAsyncTimeout.
  intros c. apply heap_stable_worker_call.
Qed.

Lemma heap_stable_firstMatchAsync regex s o latency :
  heap_stable (firstMatchAsync regex s o latency).
Proof.
  rewrite firstMatchAsync_unfold. apply heap_stable_withAsyncTimeout.
  intros c. apply heap_stable_worker_call.
Qed.

Lemma heap_stable_for_await call c cl worker arrival :
  heap_stable (for_await_turn call c cl worker arrival).
Proof.
  intros w. unfold for_await_turn. unfold mbind at 1.
  pose proof (heap_stable_await c arrival w) as H1.
  destruct (await_signal c arrival w) as [[[]|e] w1]; simpl in H1.
  - destruct (matchesWorker_next worker) as [[[m|]|e] worker'].
    + exact H1.
    + rewrite <- H1.
      apply (heap_stable_bind (run_cleanup cl) (fun _ => mret (Done, AsyncCompleted)));
        auto with stable.
    + pose proof (heap_stable_handleAsyncError e (throwOnTimeout (ac_options call)) tt w1) as H2.
      destruct (handleAsyncError e (throwOnTimeout (ac_options call)) tt w1) as [[[]|e'] w2];
        simpl in H2; rewrite <- H1, <- H2.
      * apply (heap_stable_bind (run_cleanup cl) (fun _ => mret (Done, AsyncCompleted)));
          auto with stable.
      * apply (heap_stable_bind (run_cleanup cl) (fun _ => mthrow e')); auto with stable.
  - pose proof (heap_stable_handleAsyncError e (throwOnTimeout (ac_options call)) tt w1) as H2.
    destruct (handleAsyncError e (throwOnTimeout (ac_options call)) tt w1) as [[[]|e'] w2];
      simpl in H2; rewrite <- H1, <- H2.
    + apply (heap_stable_bind (run_cleanup cl) (fun _ => mret (Done, AsyncCompleted)));
        auto with stable.
    + apply (heap_stable_bind (run_cleanup cl) (fun _ => mthrow e')); auto with stable.
Qed.

Lemma heap_stable_async_body call st arrival : heap_stable (async_body call st arrival).
Proof.
  destruct st as [|c cl worker|]; simpl; [|apply heap_stable_for_await|auto with stable].
  apply heap_stable_bind; [auto with stable|intros r].
  destruct (negb (global r)); [auto with stable|].
  apply heap_stable_bind; [auto with stable|intros c].
  apply heap_stable_bind; [auto with stable|intros cl].
  apply heap_stable_bind; [auto with stable|intros _].
  apply heap_stable_for_await.
Qed.

Lemma async_next_heap call st arrival w :
  heap (async_next call st arrival w).2 = heap w.
Proof.
  unfold async_next. pose proof (heap_stable_async_body call st arrival w) as H.
  by destruct (async_body call st arrival w) as [[[r st']|e] w'].
Qed.

Lemma async_return_heap st w : heap (async_return st w).2 = heap w.
Proof.
  destruct st as [|c cl worker|]; simpl; try done.
  apply (heap_stable_bind (run_cleanup cl) (fun _ => mret AsyncCompleted)); auto with stable.
Qed.

Lemma consume_async_heap call arrivals : ∀ st w,
  heap (consume_async call st arrivals w).2 = heap w.
Proof.
  induction arrivals as [|a rest IH]; intros st w; [done|].
  simpl. pose proof (async_next_heap call st a w) as H.
  destruct (async_next call st a w) as [[[[m|]|e] st'] w']; simpl in *; try done.
  specialize (IH st' w'). destruct (consume_async call st' rest w') as [[ms e] w''].
  simpl in *. congruence.
Qed.

End HeapStable.

(** ** C7 *)

Section C7.
Context {engine : Engine}.

Lemma isMatch_frame regex s o rt w r :
  heap w !! regex = Some r →
  ∀ l x, heap w !! l = Some x → heap (isMatch regex s o rt w).2 !! l = Some x.
Proof.
  intros Hr l x Hl. rewrite isMatch_run.
  destruct (negb (host_accepts (normalizeTimeout (timeout o)))); [done|].
  destruct (test_clone_run regex s w r Hr) as (w' & -> & Hframe).
  destruct (deadline_exceeded _ rt); [by apply Hframe|].
  destruct (search (source r) (flags r) s 0) as [res|e]; by apply Hframe.
Qed.

Lemma firstMatch_frame regex s o rt w r :
  heap w !! regex = Some r →
  ∀ l x, heap w !! l = Some x → heap (firstMatch regex s o rt w).2 !! l = Some x.
Proof.
  intros Hr l x Hl. rewrite firstMatch_run.
  destruct (negb (host_accepts (normalizeTimeout (timeout o)))); [done|].
  destruct (exec_clone_run regex s w r Hr) as (w' & -> & Hframe).
  destruct (deadline_exceeded _ rt); [by apply Hframe|].
  destruct (search (source r) (flags r) s 0) as [res|e]; by apply Hframe.
Qed.

Lemma matches_world regex s o w : (matches regex s o w).2 = w.
Proof.
  unfold matches, mbind, read_regex.
  destruct (heap w !! regex) as [r|]; [|done]. simpl. by destruct (negb (global r)).
Qed.

Lemma matches_iterable regex s o w it :
  (matches regex s o w).1 = Normal it →
  it_regex it = regex ∧ it_string it = s ∧
  it_timeout it = default PosInf (timeout o) ∧
  it_matchTimeout it = default PosInf (matchTimeout o) ∧
  it_throwOnTimeout it = throwOnTimeout o ∧
  ∃ r, heap w !! regex = Some r ∧ global r = true.
Proof.
  unfold matches, mbind, read_regex.
  destruct (heap w !! regex) as [r|] eqn:Hr; [|done]. simpl.
  destruct (global r) eqn:Hg; simpl; [|done].
  intros [= <-]. simpl. eauto 10.
Qed.

End C7.

(** C7: every regex object of the caller, and so the pattern handed to an
    operation together with its [lastIndex], is the same after the
    operation as before: after [isMatch], [firstMatch] and the call of
    [matches], after any pass over the sequence of [matches], after any
    single turn of any running generator (so also when turns of several
    iterations over the same pattern alternate), and after the operations of
    the isolated regime, which only read the pattern's source and flags. *)
Theorem C7_caller_regex_untouched {engine : Engine} regex s o w r l x :
  heap w !! regex = Some r →
  heap w !! l = Some x →
  (∀ rt, heap (isMatch regex s o rt w).2 !! l = Some x) ∧
  (∀ rt, heap (firstMatch regex s o rt w).2 !! l = Some x) ∧
  (matches regex s o w).2 = w ∧
  (∀ it ts, (matches regex s o w).1 = Normal it →
            heap (consume it (Symbol_iterator it) ts w).2 !! l = Some x) ∧
  (∀ it src fl st t, gen_ok it src fl st w → ¬ owns st l →
                     heap (gen_next it st t w).2 !! l = Some x ∧
                     ¬ owns (gen_next it st t w).1.2 l) ∧
  (∀ latency, heap (isMatchAsync regex s o latency w).2 !! l = Some x) ∧
  (∀ latency, heap (firstMatchAsync regex s o latency w).2 !! l = Some x) ∧
  (∀ st arrivals,
     heap (consume_async (mkAsyncCall regex s o) st arrivals w).2 !! l = Some x) ∧
  (∀ st, heap (async_return st w).2 !! l = Some x).
Proof.
  intros Hr Hl. repeat apply conj.
  - intros rt. by apply (isMatch_frame regex s o rt w r).
  - intros rt. by apply (firstMatch_frame regex s o rt w r).
  - apply matches_world.
  - intros it ts Hit.
    destruct (matches_iterable regex s o w it Hit) as (Hreg & _ & _ & _ & _ & r' & Hr' & Hg).
    assert (gen_ok it (source r') (flags r') (Symbol_iterator it) w) as Hok.
    { split; [exact Hg|]. exists r'. by rewrite Hreg. }
    destruct (consume_spec it _ _ ts _ w Hok) as [_ Hframe].
    apply Hframe; [exact Hl|]. simpl. tauto.
  - intros it src fl st t Hok Hno.
    pose proof (gen_next_spec it src fl st t w Hok) as H.
    destruct (gen_next it st t w) as [[res st'] w']. destruct H as (_ & _ & Hframe).
    by apply Hframe.
  - intros latency. by rewrite heap_stable_isMatchAsync.
  - intros latency. by rewrite heap_stable_firstMatchAsync.
  - intros st arrivals. by rewrite consume_async_heap.
  - intros st. by rewrite async_return_heap.
Qed.

Lemma C7_caller_regex_untouched_witness :
  heap (isMatch (engine := Fixture.engine) Fixture.digits "a1b22c333" noOptions 1
          Fixture.world).2 !! Fixture.digits = Some (mkRegExp "\d+" "g" 4) ∧
  heap (firstMatch (engine := Fixture.engine) Fixture.digits "a1b22c333" noOptions 1
          Fixture.world).2 !! Fixture.digits = Some (mkRegExp "\d+" "g" 4) ∧
  heap (consume (engine := Fixture.engine)
          (mkIterable Fixture.digits "a1b22c333" PosInf PosInf false) GenSuspendedStart
          [mkTiming 1 2; mkTiming 1 2] Fixture.world).2 !! Fixture.digits
  = Some (mkRegExp "\d+" "g" 4).
Proof.
  destruct (C7_caller_regex_untouched (engine := Fixture.engine) Fixture.digits
              "a1b22c333"%string noOptions Fixture.world (mkRegExp "\d+" "g" 4)
              Fixture.digits (mkRegExp "\d+" "g" 4) eq_refl eq_refl) as (H1 & H2 & _ & H3 & _).
  split; [exact (H1 1%Q)|]. split; [exact (H2 1%Q)|].
  exact (H3 (mkIterable Fixture.digits "a1b22c333" PosInf PosInf false)
           [mkTiming 1 2; mkTiming 1 2] eq_refl).
Defined.

(** What the operations avoid: [exec] on the caller's own global regex moves
    its [lastIndex] (here from 2 to 5, the end of the match it finds). *)
Example exec_on_the_original_writes :
  heap (RegExp_exec (engine := Fixture.engine) Fixture.digits "a1b22c333"
          (set_heap <[Fixture.digits := mkRegExp "\d+" "g" 2]> Fixture.world)).2
    !! Fixture.digits
  = Some (mkRegExp "\d+" "g" 5).
Proof. vm_compute. reflexivity. Qed.

(** ** What the operations return comes from the engine *)

Section Answers.
Context {engine : Engine}.

Lemma firstMatch_answer regex s o rt w r m :
  heap w !! regex = Some r →
  (firstMatch regex s o rt w).1 = Normal (Some m) →
  ∃ raw, search (source r) (flags r) s 0 = Normal (Some raw) ∧ m = resultToMatch raw.
Proof.
  intros Hr. rewrite firstMatch_run.
  destruct (negb (host_accepts (normalizeTimeout (timeout o)))); [done|].
  destruct (exec_clone_run regex s w r Hr) as (w' & -> & _).
  destruct (deadline_exceeded _ rt); simpl.
  - by destruct (throwOnTimeout o).
  - destruct (search (source r) (flags r) s 0) as [[raw|]|e]; simpl.
    + intros [= <-]. eauto.
    + done.
    + by destruct (isTimeoutError e && negb (throwOnTimeout o)).
Qed.

(** The worker function of [firstMatchAsync], run where nothing is shared. *)
Lemma firstMatchWorker_run src fl s :
  isolated (firstMatchWorker src fl s)
  = match compile src fl with
    | Throw e => Throw e
    | Normal _ =>
        match search src fl s 0 with
        | Normal raw => Normal (resultToMatch <$> raw)
        | Throw e => Throw e
        end
    end.
Proof.
  unfold isolated, firstMatchWorker, new_RegExp. unfold mbind at 1.
  destruct (compile src fl) as [info|e]; [|done].
  unfold alloc_regex. unfold mbind at 1.
  set (l := fresh (dom (heap emptyWorld))).
  set (r := mkRegExp src fl 0).
  rewrite (RegExp_exec_run l s _ r) by (simpl; apply lookup_insert_eq).
  replace (if global r || sticky r then lastIndex r else 0%nat) with 0%nat
    by (by destruct (global r || sticky r)).
  change (source r) with src. change (flags r) with fl. simpl.
  by destruct (search src fl s 0) as [[raw|]|e].
Qed.


Lemma handleAsyncTimeout_normal c timeout w :
  ∃ cl w', handleAsyncTimeout c timeout w = (Normal cl, w') ∧ heap w' = heap w.
Proof.
  unfold handleAsyncTimeout.
  destruct timeout as [t|]; [|by eexists _, _].
  destruct (Number_isNaN t); [by eexists _, _|].
  destruct (js_le t (of_Z 0) || negb (Number_isFinite t)); [|by eexists _, _].
  destruct (js_le t (of_Z 0)); by eexists _, _.
Qed.

Lemma run_cleanup_normal cl w : ∃ w', run_cleanup cl w = (Normal tt, w').
Proof. destruct cl; by eexists. Qed.

(** A value [withAsyncTimeout] resolves to is the default value or an
    answer of the worker function. *)
Lemma withAsyncTimeout_normal {A} (f : nat → M A) timeout thr (d a : A) w :
  (withAsyncTimeout f timeout thr d w).1 = Normal a →
  a = d ∨ ∃ c w1, heap w1 = heap w ∧ (f c w1).1 = Normal a.
Proof.
  unfold withAsyncTimeout. unfold mbind at 1. unfold new_AbortController at 1.
  set (c := fresh (dom (controllers w))).
  set (w0 := set_controllers <[c:=false]> w).
  destruct (handleAsyncTimeout_normal c timeout w0) as (cl & w1 & Hh & Hheap).
  unfold mbind at 1. rewrite Hh. unfold try_catch. unfold mbind at 1.
  destruct (f c w1) as [[a'|e] w2] eqn:Hf.
  - destruct (run_cleanup_normal cl w2) as [w3 Hc]. unfold mbind. rewrite Hc. simpl.
    intros [= <-]. right. exists c, w1. split; [exact Hheap|]. by rewrite Hf.
  - destruct (run_cleanup_normal cl w2) as [w3 Hc]. unfold mbind. rewrite Hc.
    unfold handleAsyncError.
    destruct (String.eqb (err_name e) "AbortError"); [destruct thr|]; simpl; try done.
    intros [= <-]. by left.
Qed.

Lemma worker_call_normal {A} k (body : string → string → string → M A) regex s latency
    c w r a :
  heap w !! regex = Some r →
  (worker_call k body regex s latency c w).1 = Normal a →
  isolated (body (source r) (flags r) s) = Normal a.
Proof.
  intros Hr. unfold worker_call, call_worker. unfold mbind at 1. unfold read_regex at 1.
  rewrite Hr. unfold mbind at 1. unfold modify at 1. unfold mbind.
  destruct (await_signal c latency _) as [[[]|e] w']; simpl; done.
Qed.

Lemma firstMatchAsync_answer regex s o latency w r m :
  heap w !! regex = Some r →
  (firstMatchAsync regex s o latency w).1 = Normal (Some m) →
  ∃ raw, search (source r) (flags r) s 0 = Normal (Some raw) ∧ m = resultToMatch raw.
Proof.
  intros Hr. rewrite firstMatchAsync_unfold. intros H.
  apply withAsyncTimeout_normal in H as [H|(c & w1 & Hheap & H)]; [done|].
  apply (worker_call_normal _ _ _ _ _ _ _ r) in H; [|by rewrite Hheap].
  rewrite firstMatchWorker_run in H.
  destruct (compile (source r) (flags r)); [|done].
  destruct (search (source r) (flags r) s 0) as [[raw|]|e]; simpl in H; try done.
  injection H as <-. eauto.
Qed.

(** One advance of the generator inside the worker. *)
Lemma matchesWorker_next_looping src fl s ww ms :
  worker_ok src fl s (WorkerLoop ww ms) →
  let '(res, g') := matchesWorker_next (WorkerLoop ww ms) in
  worker_ok src fl s g' ∧
  ∀ m, res = Normal (Yield m) → normalized_answer src fl s m.
Proof.
  intros [Hg (Hs & Hd & r & Hr & Hsrc & Hfl)].
  assert (global r = true) as Hgr by (unfold global; by rewrite Hfl).
  unfold matchesWorker_next.
  rewrite (RegExpStringIterator_next_run ms ww r Hr Hgr Hd).
  destruct (step_result (matcher_step r (rsi_string ms))) as [[raw|]|e] eqn:Hres.
  - split.
    + split; [done|]. simpl. rewrite <- Hs. by apply apply_step_matcher_of.
    + intros m [= <-]. exists raw, (lastIndex r). split; [|done].
      rewrite <- Hsrc, <- Hfl, <- Hs. by apply matcher_step_result.
  - split; [done|]. intros m Hm. done.
  - split; [done|]. intros m Hm. done.
Qed.

Lemma matchesWorker_next_spec src fl s g :
  worker_ok src fl s g →
  let '(res, g') := matchesWorker_next g in
  worker_ok src fl s g' ∧
  ∀ m, res = Normal (Yield m) → normalized_answer src fl s m.
Proof.
  intros Hok. destruct g as [src' fl' s'|ww ms|].
  - destruct Hok as [Hg (-> & -> & ->)].
    unfold matchesWorker_next.
    unfold new_RegExp. unfold mbind at 1.
    destruct (compile src fl) as [info|e]; [|split; [done|intros m Hm; done]].
    unfold alloc_regex. unfold String_matchAll, mbind, read_regex, alloc_regex.
    cbn [heap set_heap emptyWorld]. rewrite lookup_insert_eq.
    unfold global. cbn [flags source lastIndex negb]. rewrite Hg. cbn [negb].
    set (ww := set_heap _ (set_heap _ emptyWorld)).
    set (ms := mkRSI _ s false).
    assert (worker_ok src fl s (WorkerLoop ww ms)) as Hloop.
    { split; [done|]. split; [done|]. split; [done|].
      eexists. subst ww ms. simpl. rewrite lookup_insert_eq. done. }
    apply (matchesWorker_next_looping src fl s ww ms Hloop).
  - by apply matchesWorker_next_looping.
  - simpl. split; [done|]. intros m Hm. done.
Qed.

End Answers.

(** ** The generator of [matchesAsync], turn by turn *)

Section AsyncTurn.
Context {engine : Engine}.

Lemma for_await_turn_spec call src fl c cl worker arrival w :
  worker_ok src fl (ac_string call) worker →
  match for_await_turn call c cl worker arrival w with
  | (Normal (r, st'), w') =>
      async_ok call src fl st' w' ∧
      ∀ m, r = Yield m → normalized_answer src fl (ac_string call) m
  | (Throw _, _) => True
  end.
Proof.
  intros Hok. unfold for_await_turn. unfold mbind at 1.
  destruct (await_signal c arrival w) as [[[]|e] w1].
  - pose proof (matchesWorker_next_spec src fl (ac_string call) worker Hok) as H.
    destruct (matchesWorker_next worker) as [[[m|]|e] worker']; destruct H as [Hok' Hy].
    + split; [exact Hok'|]. intros m' [= <-]. by apply Hy.
    + destruct (run_cleanup_normal cl w1) as [w2 Hc]. unfold mbind. rewrite Hc. done.
    + unfold handleAsyncError, mret, mthrow, mbind.
      destruct (run_cleanup_normal cl w1) as [w2 Hc].
      destruct (String.eqb (err_name e) "AbortError");
        [destruct (throwOnTimeout (ac_options call))|]; rewrite Hc; done.
  - unfold handleAsyncError, mret, mthrow, mbind.
    destruct (run_cleanup_normal cl w1) as [w2 Hc].
    destruct (String.eqb (err_name e) "AbortError");
      [destruct (throwOnTimeout (ac_options call))|]; rewrite Hc; done.
Qed.

Lemma async_next_spec call src fl st arrival w :
  async_ok call src fl st w →
  let '(res, st', w') := async_next call st arrival w in
  async_ok call src fl st' w' ∧
  ∀ m, res = Normal (Yield m) → normalized_answer src fl (ac_string call) m.
Proof.
  intros Hok. unfold async_next. destruct st as [|c cl worker|].
  - destruct Hok as (r & Hr & <- & <-).
    unfold async_body. unfold mbind at 1. unfold read_regex at 1. rewrite Hr.
    destruct (global r) eqn:Hg; cbn [negb]; [|done].
    unfold mbind at 1. unfold new_AbortController at 1.
    set (c := fresh (dom (controllers w))).
    destruct (handleAsyncTimeout_normal c (timeout (ac_options call))
                (set_controllers <[c:=false]> w)) as (cl & w1 & Hh & _).
    unfold mbind at 1. rewrite Hh. unfold mbind at 1. unfold modify at 1.
    assert (worker_ok (source r) (flags r) (ac_string call)
              (WorkerStart (source r) (flags r) (ac_string call))) as Hw by done.
    pose proof (for_await_turn_spec call _ _ c cl _ arrival
                  (emit (EvDispatch MatchesWorker (source r) (flags r) (ac_string call) c) w1)
                  Hw) as H.
    destruct (for_await_turn call c cl _ arrival _) as [[[x st']|e] w2]; [|done].
    destruct H as [H1 H2]. split; [exact H1|]. intros m [= ->]. by apply H2.
  - simpl in Hok. unfold async_body.
    pose proof (for_await_turn_spec call src fl c cl worker arrival w Hok) as H.
    destruct (for_await_turn call c cl worker arrival w) as [[[x st']|e] w2]; [|done].
    destruct H as [H1 H2]. split; [exact H1|]. intros m [= ->]. by apply H2.
  - simpl. done.
Qed.

Lemma consume_async_spec call src fl arrivals : ∀ st w,
  async_ok call src fl st w →
  Forall (normalized_answer src fl (ac_string call))
    (consume_async call st arrivals w).1.1.
Proof.
  induction arrivals as [|a rest IH]; intros st w Hok; [constructor|].
  simpl. pose proof (async_next_spec call src fl st a w Hok) as H.
  destruct (async_next call st a w) as [[[[m|]|e] st'] w']; [|constructor..].
  destruct H as [Hok' Hy]. specialize (IH st' w' Hok').
  destruct (consume_async call st' rest w') as [[ms e] w'']. simpl in *.
  constructor; [by apply Hy | exact IH].
Qed.

End AsyncTurn.

(** ** C6 and C9: the shape of a [Match] *)

Section Shape.
Context {engine : Engine}.

Lemma resultToMatch_shape info raw :
  fits_pattern info raw → well_shaped info (resultToMatch raw).
Proof.
  intros [Hlen Hnames]. split; simpl.
  - rewrite length_drop, Hlen. lia.
  - destruct (group_names info) as [|name names].
    + rewrite Hnames. simpl. by rewrite dom_empty_L.
    + destruct Hnames as (g & -> & Hdom). exact Hdom.
Qed.

Lemma normalized_answer_shape src fl s info m :
  compile src fl = Normal info →
  results_fit src fl →
  normalized_answer src fl s m →
  well_shaped info m.
Proof.
  intros Hc Hfit (raw & start & Hs & ->).
  apply resultToMatch_shape. by apply (Hfit info s start raw).
Qed.


(** Every [Match] the four result-producing operations give for a pattern
    has the shape of the pattern. *)
Lemma results_well_shaped regex s o w r info :
  heap w !! regex = Some r →
  compile (source r) (flags r) = Normal info →
  results_fit (source r) (flags r) →
  (∀ rt m, (firstMatch regex s o rt w).1 = Normal (Some m) → well_shaped info m) ∧
  (∀ it ts, (matches regex s o w).1 = Normal it →
            Forall (well_shaped info) (consume it (Symbol_iterator it) ts w).1.1) ∧
  (∀ latency m, (firstMatchAsync regex s o latency w).1 = Normal (Some m) →
                well_shaped info m) ∧
  (∀ arrivals,
     Forall (well_shaped info)
       (consume_async (mkAsyncCall regex s o) AsyncSuspendedStart arrivals w).1.1).
Proof.
  intros Hr Hc Hfit. repeat apply conj.
  - intros rt m Hm. destruct (firstMatch_answer regex s o rt w r m Hr Hm) as (raw & Hs & ->).
    apply resultToMatch_shape. by apply (Hfit info s 0%nat raw).
  - intros it ts Hit.
    destruct (matches_iterable regex s o w it Hit) as (Hreg & Hstr & _ & _ & _ & r' & Hr' & Hg).
    assert (r' = r) as -> by congruence.
    assert (gen_ok it (source r) (flags r) (Symbol_iterator it) w) as Hok.
    { split; [exact Hg|]. exists r. by rewrite Hreg. }
    destruct (consume_spec it _ _ ts _ w Hok) as [Hall _].
    eapply Forall_impl; [exact Hall|]. intros m Hm.
    by apply (normalized_answer_shape (source r) (flags r) (it_string it)).
  - intros latency m Hm.
    destruct (firstMatchAsync_answer regex s o latency w r m Hr Hm) as (raw & Hs & ->).
    apply resultToMatch_shape. by apply (Hfit info s 0%nat raw).
  - intros arrivals.
    assert (async_ok (mkAsyncCall regex s o) (source r) (flags r) AsyncSuspendedStart w)
      as Hok by (exists r; done).
    pose proof (consume_async_spec _ _ _ arrivals _ w Hok) as Hall.
    eapply Forall_impl; [exact Hall|]. intros m Hm.
    by apply (normalized_answer_shape (source r) (flags r) s).
Qed.

End Shape.

(** The engine of the fixtures answers in the shape of its patterns. *)
Lemma Fixture_results_fit src fl : results_fit (engine := Fixture.engine) src fl.
Proof.
  intros info s start res Hc Hs.
  unfold compile, search, Fixture.engine, Scripted.engine_of in Hc, Hs.
  simpl in Hc, Hs.
  repeat (case_decide; simplify_eq/=); try done;
    (split; [done|]); simpl; eexists; (split; [done|]); vm_compute; reflexivity.
Qed.

(** C6: every [Match] has one captured group per group the pattern
    declares, whether or not the group took part, and its named groups are
    exactly the names the pattern declares.  For the date pattern, matched
    against "2024-01-15", [firstMatch] returns the text "2024-01" at offset
    0 with the groups "2024" and "01" under the names year and month. *)
Theorem C6_match_shape {engine : Engine} regex s o w r info :
  heap w !! regex = Some r →
  compile (source r) (flags r) = Normal info →
  results_fit (source r) (flags r) →
  ((∀ rt m, (firstMatch regex s o rt w).1 = Normal (Some m) → well_shaped info m) ∧
   (∀ it ts, (matches regex s o w).1 = Normal it →
             Forall (well_shaped info) (consume it (Symbol_iterator it) ts w).1.1) ∧
   (∀ latency m, (firstMatchAsync regex s o latency w).1 = Normal (Some m) →
                 well_shaped info m) ∧
   (∀ arrivals,
      Forall (well_shaped info)
        (consume_async (mkAsyncCall regex s o) AsyncSuspendedStart arrivals w).1.1)) ∧
  (source r = Fixture.date_source → flags r = ""%string → s = "2024-01-15"%string →
   search Fixture.date_source "" "2024-01-15" 0 = Normal (Some Fixture.date_answer) →
   ∀ rt,
     (firstMatch regex s noOptions rt w).1
     = Normal (Some {| match_ := Some "2024-01"%string;
                       index := 0;
                       groups := [Some "2024"%string; Some "01"%string];
                       namedGroups := {[ "year"%string := Some "2024"%string;
                                         "month"%string := Some "01"%string ]};
                       input := "2024-01-15" |})).
Proof.
  intros Hr Hc Hfit. split; [by apply (results_well_shaped regex s o w r info)|].
  intros Hsrc Hfl -> Hs rt. rewrite firstMatch_run.
  destruct (exec_clone_run regex "2024-01-15" w r Hr) as (w' & -> & _).
  rewrite Hsrc, Hfl, Hs. reflexivity.
Qed.

Lemma C6_match_shape_witness :
  well_shaped (mkPatternInfo 2 ["year"%string; "month"%string])
    (resultToMatch Fixture.date_answer) ∧
  (firstMatch (engine := Fixture.engine) Fixture.date "2024-01-15" noOptions 1
     Fixture.world).1
  = Normal (Some {| match_ := Some "2024-01"%string;
                    index := 0;
                    groups := [Some "2024"%string; Some "01"%string];
                    namedGroups := {[ "year"%string := Some "2024"%string;
                                      "month"%string := Some "01"%string ]};
                    input := "2024-01-15" |}).
Proof.
  destruct (C6_match_shape (engine := Fixture.engine) Fixture.date "2024-01-15"%string
              noOptions Fixture.world (mkRegExp Fixture.date_source "" 0)
              (mkPatternInfo 2 ["year"%string; "month"%string])
              eq_refl eq_refl (Fixture_results_fit _ _)) as [(H1 & _) H2].
  split.
  - exact (H1 1%Q (resultToMatch Fixture.date_answer) eq_refl).
  - exact (H2 eq_refl eq_refl eq_refl eq_refl 1%Q).
Defined.



(** ** C3: the budget of [matches] *)

Section Budget.
Context {engine : Engine}.

Lemma loop_turn_yield it ms rem t w m st' w' :
  loop_turn it ms rem t w = (Normal (Yield m, st'), w') →
  budget_exhausted it rem = false ∧
  deadline_exceeded (attempt_deadline it rem) (runtime t) = false ∧
  ∃ ms', st' = GenSuspendedYield ms' (js_sub rem (Math_ceil (Num (elapsed t)))).
Proof.
  unfold loop_turn, attempt, functionTimeout, mbind.
  destruct (budget_exhausted it rem); [by destruct (it_throwOnTimeout it)|].
  destruct (host_accepts (attempt_deadline it rem)); [|done]. cbn [negb].
  destruct (RegExpStringIterator_next ms w) as [[[[value|] ms']|e] w1];
    destruct (deadline_exceeded (attempt_deadline it rem) (runtime t)); simpl; try done.
  intros [= <- <- <-]. eauto.
Qed.

Lemma loop_turn_yield_accepted it ms rem t w m st' w' :
  loop_turn it ms rem t w = (Normal (Yield m, st'), w') →
  host_accepts (attempt_deadline it rem) = true.
Proof.
  unfold loop_turn, attempt, functionTimeout, mbind.
  destruct (budget_exhausted it rem); [by destruct (it_throwOnTimeout it)|].
  by destruct (host_accepts (attempt_deadline it rem)).
Qed.

(** After a turn that yields, the generator goes on with the budget it had
    less the measured time of the attempt, rounded up. *)
Lemma gen_next_yield_budget it st t w m st' w' rem :
  budget_of it st = Some rem →
  gen_next it st t w = (Normal (Yield m), st', w') →
  budget_exhausted it rem = false ∧
  deadline_exceeded (attempt_deadline it rem) (runtime t) = false ∧
  budget_of it st' = Some (js_sub rem (Math_ceil (Num (elapsed t)))).
Proof.
  intros Hb. unfold gen_next, try_catch.
  destruct (gen_body it st t w) as [[[r st1]|e] w1] eqn:Hbody.
  - intros [= -> -> ->].
    assert (∃ ms w0, loop_turn it ms rem t w0 = (Normal (Yield m, st'), w'))
      as (ms & w0 & Hloop).
    { destruct st as [|ms rem0|]; simpl in Hb, Hbody.
      - injection Hb as <-. unfold mbind in Hbody.
        destruct (structuredClone (it_regex it) w) as [[clone|e] w1]; [|done].
        destruct (String_matchAll (it_string it) clone w1) as [[ms|e] w2]; [|done]. eauto.
      - injection Hb as <-. eauto.
      - done. }
    destruct (loop_turn_yield it ms rem t w0 m st' w' Hloop) as (H1 & H2 & ms' & ->).
    done.
  - destruct (isTimeoutError e && negb (it_throwOnTimeout it)); simpl; done.
Qed.

(** A turn that yields was given a deadline the host takes. *)
Lemma gen_next_yield_accepted it st t w m st' w' rem :
  budget_of it st = Some rem →
  gen_next it st t w = (Normal (Yield m), st', w') →
  host_accepts (attempt_deadline it rem) = true.
Proof.
  intros Hb. unfold gen_next, try_catch.
  destruct (gen_body it st t w) as [[[r st1]|e] w1] eqn:Hbody.
  - intros [= -> -> ->].
    assert (∃ ms w0, loop_turn it ms rem t w0 = (Normal (Yield m, st'), w'))
      as (ms & w0 & Hloop).
    { destruct st as [|ms rem0|]; simpl in Hb, Hbody.
      - injection Hb as <-. unfold mbind in Hbody.
        destruct (structuredClone (it_regex it) w) as [[clone|e] w1]; [|done].
        destruct (String_matchAll (it_string it) clone w1) as [[ms|e] w2]; [|done]. eauto.
      - injection Hb as <-. eauto.
      - done. }
    by apply (loop_turn_yield_accepted it ms rem t w0 m st' w').
  - destruct (isTimeoutError e && negb (it_throwOnTimeout it)); simpl; done.
Qed.

(** The budget of a generator a pass leaves suspended. *)
Lemma consume_budget it ts : ∀ st w rem st',
  budget_of it st = Some rem →
  (consume it st ts w).1.2 = Stopped st' →
  budget_of it st' = Some (budget_after rem ts).
Proof.
  induction ts as [|t ts IH]; intros st w rem st' Hb.
  - simpl. intros [= <-]. exact Hb.
  - simpl. destruct (gen_next it st t w) as [[[[m|]|e] st1] w1] eqn:Hnext; [|done..].
    destruct (gen_next_yield_budget it st t w m st1 w1 rem Hb Hnext) as (_ & _ & Hb1).
    specialize (IH st1 w1 _ st' Hb1).
    destruct (consume it st1 ts w1) as [[ms e] w2]. simpl in *. exact IH.
Qed.

Lemma inject_Z_minus (a b : Z) : (inject_Z a - inject_Z b == inject_Z (a - b))%Q.
Proof. unfold Qminus, Z.sub. by rewrite inject_Z_plus, inject_Z_opp. Qed.

Lemma budget_after_unbounded ts : budget_after PosInf ts = PosInf.
Proof. induction ts as [|t ts IH]; [done|]. exact IH. Qed.

Lemma budget_after_integer z ts :
  ∃ q z', budget_after (of_Z z) ts = Num q ∧ (q == inject_Z z')%Q.
Proof.
  revert z. induction ts as [|t ts IH]; intros z.
  - exists (inject_Z z), z. done.
  - simpl. unfold budget_after in IH.
    assert (∀ q z', (q == inject_Z z')%Q →
              ∃ q' z'', fold_left
                          (fun remaining t => js_sub remaining (Math_ceil (Num (elapsed t))))
                          ts (Num q) = Num q' ∧ (q' == inject_Z z'')%Q) as Hgen.
    { clear IH z t. induction ts as [|t ts IH]; intros q z' Hq.
      - exists q, z'. done.
      - simpl. apply (IH _ (z' - Qceiling (elapsed t))%Z).
        rewrite Hq. apply inject_Z_minus. }
    apply (Hgen _ (z - Qceiling (elapsed t))%Z). apply inject_Z_minus.
Qed.

Lemma Qtrunc_abs_integer q z :
  (q == inject_Z z)%Q → (1 ≤ z)%Z → Qtrunc (Qabs q) = z.
Proof.
  intros Hq Hz. rewrite Qtrunc_abs_floor.
  assert (Qabs q == inject_Z z)%Q as Habs.
  { rewrite Hq. apply Qabs_pos. unfold Qle. simpl. lia. }
  rewrite Habs. apply Qfloor_Z.
Qed.

(** On an integer of at least 1 the normalizer changes nothing. *)
Lemma normalizeTimeout_integer q z :
  (q == inject_Z z)%Q → (1 ≤ z)%Z →
  ∃ d, normalizeTimeout (Some (Num q)) = Some d ∧ same_number d (Num q).
Proof.
  intros Hq Hz. rewrite normalizeTimeout_finite, (Qtrunc_abs_integer q z Hq Hz).
  eexists. split; [done|]. simpl. rewrite Z.max_r by done. by symmetry.
Qed.

Lemma positive_integer q z : (q == inject_Z z)%Q → Qle_bool q (inject_Z 0) = false → (1 ≤ z)%Z.
Proof.
  intros Hq Hle.
  destruct (Z_lt_le_dec 0 z) as [|Hz]; [lia|]. exfalso.
  assert (Qle_bool q (inject_Z 0) = true); [|congruence].
  apply Qle_bool_iff. rewrite Hq. unfold Qle. simpl. lia.
Qed.

(** For timeouts as the specification has them, the deadline of an attempt
    is the smaller of the budget left and the limit per match, and there is
    none when both are unbounded. *)
Lemma attempt_deadline_smaller it ts :
  wf_timeout (it_timeout it) →
  wf_timeout (it_matchTimeout it) →
  let rem := budget_after (it_timeout it) ts in
  budget_exhausted it rem = false →
  match it_timeout it, it_matchTimeout it with
  | PosInf, PosInf => attempt_deadline it rem = None
  | _, _ => ∃ d, attempt_deadline it rem = Some d ∧
                 same_number d (Math_min rem (it_matchTimeout it))
  end.
Proof.
  intros Ht Hm rem Hex. unfold attempt_deadline, budget_exhausted in *.
  destruct Ht as [Ht | (z & Hz & Ht)]; destruct Hm as [Hm | (m & Hmz & Hm)];
    subst rem; rewrite Ht, Hm in *; simpl not_POSITIVE_INFINITY in *; cbn [orb andb] in *.
  - done.
  - rewrite budget_after_unbounded. simpl Math_min.
    apply (normalizeTimeout_integer _ m); [reflexivity | done].
  - destruct (budget_after_integer z ts) as (q & z' & Hq & Hqz). rewrite Hq in *.
    simpl in Hex. simpl Math_min.
    apply (normalizeTimeout_integer _ z'); [done|]. by apply (positive_integer q).
  - destruct (budget_after_integer z ts) as (q & z' & Hq & Hqz). rewrite Hq in *.
    simpl in Hex. unfold of_Z at 1. simpl Math_min.
    destruct (Qle_bool q (inject_Z m)).
    + apply (normalizeTimeout_integer _ z'); [done|]. by apply (positive_integer q).
    + apply (normalizeTimeout_integer _ m); [reflexivity | done].
Qed.

End Budget.

(** X19: the budget of [matches] on whole timeouts.  Before every attempt,
    when the total timeout is not positive infinity and the budget left is
    zero or less, the sequence ends (with the timeout error under
    [throwOnTimeout]) without asking the engine, so an attempt is only ever
    made on a budget that is not used up.  For
    timeouts that are unbounded or whole numbers of at least 1 the deadline
    of an attempt is the smaller of the budget left and the limit per match,
    and there is none when both are unbounded.  After each attempt the
    budget is what it was less the measured time of the attempt rounded up
    to a whole number of milliseconds. *)
Lemma budget_on_whole_timeouts {engine : Engine} it :
  (∀ ms rem t w,
     not_POSITIVE_INFINITY (it_timeout it) = true → js_le rem (of_Z 0) = true →
     gen_next it (GenSuspendedYield ms rem) t w
     = ((if it_throwOnTimeout it then Throw budgetTimeoutError else Normal Done),
        GenCompleted, w)) ∧
  (∀ t w r,
     heap w !! it_regex it = Some r → global r = true →
     not_POSITIVE_INFINITY (it_timeout it) = true → js_le (it_timeout it) (of_Z 0) = true →
     (gen_next it GenSuspendedStart t w).1
     = ((if it_throwOnTimeout it then Throw budgetTimeoutError else Normal Done),
        GenCompleted) ∧
     trace (gen_next it GenSuspendedStart t w).2 = trace w) ∧
  (∀ st t w m st' w' rem,
     budget_of it st = Some rem →
     gen_next it st t w = (Normal (Yield m), st', w') →
     budget_exhausted it rem = false ∧
     deadline_exceeded (attempt_deadline it rem) (runtime t) = false ∧
     budget_of it st' = Some (js_sub rem (Math_ceil (Num (elapsed t))))) ∧
  (∀ ts,
     wf_timeout (it_timeout it) →
     wf_timeout (it_matchTimeout it) →
     budget_exhausted it (budget_after (it_timeout it) ts) = false →
     match it_timeout it, it_matchTimeout it with
     | PosInf, PosInf => attempt_deadline it (budget_after (it_timeout it) ts) = None
     | _, _ =>
         ∃ d, attempt_deadline it (budget_after (it_timeout it) ts) = Some d ∧
              same_number d (Math_min (budget_after (it_timeout it) ts) (it_matchTimeout it))
     end) ∧
  (∀ ms rem t w value ms' rem' w',
     attempt it ms rem t w = (Normal (value, ms', rem'), w') →
     rem' = js_sub rem (Math_ceil (Num (elapsed t)))) ∧
  (∀ ts st w rem st',
     budget_of it st = Some rem →
     (consume it st ts w).1.2 = Stopped st' →
     budget_of it st' = Some (budget_after rem ts)) ∧
  (∀ e : Q, (e <= inject_Z (Qceiling e))%Q ∧ (inject_Z (Qceiling e) < e + 1)%Q).
Proof.
  repeat apply conj.
  - intros ms rem t w Hb Hle. apply gen_next_exhausted.
    unfold budget_exhausted. by rewrite Hb, Hle.
  - intros t w r Hr Hg Hb Hle.
    rewrite (gen_next_start it t w r Hr Hg), gen_next_exhausted; [done|].
    unfold budget_exhausted. by rewrite Hb, Hle.
  - intros st t w m st' w' rem. apply gen_next_yield_budget.
  - intros ts Ht Hm Hex. by apply (attempt_deadline_smaller it ts).
  - intros ms rem t w value ms' rem' w'. unfold attempt, functionTimeout, mbind.
    destruct (host_accepts (attempt_deadline it rem)); [|done]. cbn [negb].
    destruct (RegExpStringIterator_next ms w) as [[x|e] w1];
      destruct (deadline_exceeded _ (runtime t)); simpl; try done.
    by intros [= _ _ <- _].
  - intros ts st w rem st'. apply consume_budget.
  - intros e. split; [apply Qle_ceiling|].
    pose proof (Qceiling_lt e) as H.
    rewrite <- inject_Z_minus in H.
    apply (Qplus_lt_l _ _ (- inject_Z 1)). 
    eapply Qlt_le_trans; [exact H|].
    change (inject_Z 1) with 1%Q. ring_simplify. apply Qle_refl.
Qed.

Lemma budget_on_whole_timeouts_witness :
  gen_next (engine := Fixture.engine)
    (mkIterable Fixture.digits "a1b22c333" (of_Z 5) PosInf false)
    (GenSuspendedYield (mkRSI 2 "a1b22c333" false) (of_Z 0))
    (mkTiming 1 2) Fixture.world
  = (Normal Done, GenCompleted, Fixture.world) ∧
  (gen_next (engine := Fixture.engine)
     (mkIterable Fixture.digits "a1b22c333" (of_Z 0) PosInf true)
     GenSuspendedStart (mkTiming 1 2) Fixture.world).1
  = (Throw budgetTimeoutError, GenCompleted) ∧
  (∃ d, attempt_deadline (mkIterable Fixture.digits "a1b22c333" (of_Z 5) PosInf false)
          (budget_after (of_Z 5) [mkTiming 1 2]) = Some d ∧
        same_number d (Math_min (budget_after (of_Z 5) [mkTiming 1 2]) PosInf)) ∧
  budget_of (mkIterable Fixture.digits "a1b22c333" (of_Z 5) PosInf false)
    (gen_next (engine := Fixture.engine)
       (mkIterable Fixture.digits "a1b22c333" (of_Z 5) PosInf false)
       GenSuspendedStart (mkTiming 1 2) Fixture.world).1.2
  = Some (js_sub (of_Z 5) (Math_ceil (Num 2))).
Proof.
  destruct (budget_on_whole_timeouts (engine := Fixture.engine)
              (mkIterable Fixture.digits "a1b22c333" (of_Z 5) PosInf false))
    as (Hcheck & _ & Hyield & Hsmaller & _).
  destruct (budget_on_whole_timeouts (engine := Fixture.engine)
              (mkIterable Fixture.digits "a1b22c333" (of_Z 0) PosInf true))
    as (_ & Hfirst & _).
  split; [|split; [|split]].
  - exact (Hcheck (mkRSI 2 "a1b22c333" false) (of_Z 0) (mkTiming 1 2) Fixture.world
             eq_refl eq_refl).
  - exact (proj1 (Hfirst (mkTiming 1 2) Fixture.world (mkRegExp "\d+" "g" 4)
                    eq_refl eq_refl eq_refl eq_refl)).
  - refine (Hsmaller [mkTiming 1 2] _ _ eq_refl).
    + right. exists 5%Z. split; [lia | reflexivity].
    + left. reflexivity.
  - refine (proj2 (proj2 (Hyield GenSuspendedStart (mkTiming 1 2) Fixture.world _ _ _
                            (of_Z 5) eq_refl _))).
    vm_compute. reflexivity.
Defined.

(** C3: the claim, that the deadline of an attempt is the smaller of the
    budget left and the limit per match whenever one of them is bounded,
    fails in the code, which normalizes after taking the minimum (index.js
    143-145).  With a total timeout of 3 ms and a limit per match of -5 the
    deadline is 5 ms, so an attempt that runs 5 ms, more than the 3 ms left,
    still yields its match.  With a total timeout of 10 ms and a limit per
    match of NaN the attempt has no deadline, and one that runs 1575 ms
    still yields its match. *)
Theorem C3_deadline_beyond_the_budget :
  ¬ (∀ (it : Iterable) (rem : JsNumber),
       budget_exhausted it rem = false →
       not_POSITIVE_INFINITY (it_timeout it) || not_POSITIVE_INFINITY (it_matchTimeout it)
         = true →
       ∃ d, attempt_deadline it rem = Some d ∧
            same_number d (Math_min rem (it_matchTimeout it))) ∧
  attempt_deadline (mkIterable Fixture.digits "a1b22c333" (of_Z 3) (of_Z (-5)) false) (of_Z 3)
    = Some (of_Z 5) ∧
  (gen_next (engine := Fixture.engine)
     (mkIterable Fixture.digits "a1b22c333" (of_Z 3) (of_Z (-5)) false)
     GenSuspendedStart (mkTiming 5 5) Fixture.world).1.1
    = Normal (Yield (resultToMatch (mkExecResult [Some "1"%string] 1 None "a1b22c333"))) ∧
  attempt_deadline (mkIterable Fixture.digits "a1b22c333" (of_Z 10) NaN false) (of_Z 10)
    = None ∧
  (gen_next (engine := Fixture.engine)
     (mkIterable Fixture.digits "a1b22c333" (of_Z 10) NaN false)
     GenSuspendedStart (mkTiming 1575 1575) Fixture.world).1.1
    = Normal (Yield (resultToMatch (mkExecResult [Some "1"%string] 1 None "a1b22c333"))).
Proof.
  split; [|by vm_compute].
  intros H.
  destruct (H (mkIterable Fixture.digits "a1b22c333" (of_Z 3) (of_Z (-5)) false) (of_Z 3)
              eq_refl eq_refl) as (d & Hd & Hsame).
  vm_compute in Hd. injection Hd as <-. vm_compute in Hsame. discriminate Hsame.
Qed.

(** ** C8: the sequence of [matches] *)

Section Sequence.
Context {engine : Engine}.

(** A turn of two generators at the same point gives the same result and
    leaves them at the same point. *)
Lemma gen_next_same_point it st1 w1 st2 w2 t :
  same_point it st1 w1 st2 w2 →
  (gen_next it st1 t w1).1.1 = (gen_next it st2 t w2).1.1 ∧
  same_point it (gen_next it st1 t w1).1.2 (gen_next it st1 t w1).2
                (gen_next it st2 t w2).1.2 (gen_next it st2 t w2).2.
Proof.
  assert (∀ ms1 ms2 rem w1 w2 r,
            rsi_string ms1 = rsi_string ms2 → rsi_done ms1 = false → rsi_done ms2 = false →
            heap w1 !! rsi_matcher ms1 = Some r → heap w2 !! rsi_matcher ms2 = Some r →
            global r = true →
            (gen_next it (GenSuspendedYield ms1 rem) t w1).1.1
            = (gen_next it (GenSuspendedYield ms2 rem) t w2).1.1 ∧
            same_point it
              (gen_next it (GenSuspendedYield ms1 rem) t w1).1.2
              (gen_next it (GenSuspendedYield ms1 rem) t w1).2
              (gen_next it (GenSuspendedYield ms2 rem) t w2).1.2
              (gen_next it (GenSuspendedYield ms2 rem) t w2).2) as Hloop.
  { clear. intros ms1 ms2 rem w1 w2 r Hs Hd1 Hd2 Hr1 Hr2 Hg.
    destruct (budget_exhausted it rem) eqn:Hex.
    { rewrite !gen_next_exhausted by done. done. }
    destruct (host_accepts (attempt_deadline it rem)) eqn:Hacc; cycle 1.
    { rewrite !gen_next_refused by done. done. }
    destruct (deadline_exceeded (attempt_deadline it rem) (runtime t)) eqn:Hdl.
    { rewrite !gen_next_deadline by done. done. }
    rewrite !gen_next_on_time by done.
    rewrite (RegExpStringIterator_next_run ms1 w1 r Hr1 Hg Hd1).
    rewrite (RegExpStringIterator_next_run ms2 w2 r Hr2 Hg Hd2).
    rewrite <- Hs.
    destruct (step_result (matcher_step r (rsi_string ms1))) as [[raw|]|e]; simpl; try done.
    split; [done|]. split; [done|]. split; [done|]. split; [done|]. split; [done|].
    exists (step_matcher (matcher_step r (rsi_string ms1))).
    rewrite !lookup_insert_eq. split; [done|]. split; [done|].
    unfold global in *. by destruct (matcher_step_pattern r (rsi_string ms1)) as [_ ->]. }
  intros Hsame. destruct st1 as [|ms1 rem1|], st2 as [|ms2 rem2|]; try done.
  - destruct Hsame as (r1 & r2 & Hr1 & Hr2 & Hsrc & Hfl & Hg1).
    assert (global r2 = true) as Hg2 by (unfold global in *; by rewrite <- Hfl).
    rewrite (gen_next_start it t w1 r1 Hr1 Hg1), (gen_next_start it t w2 r2 Hr2 Hg2).
    apply (Hloop _ _ _ _ _ (mkRegExp (source r1) (flags r1) 0)); try done.
    + simpl. apply lookup_insert_eq.
    + simpl. rewrite Hsrc, Hfl. apply lookup_insert_eq.
  - destruct Hsame as (<- & Hs & Hd1 & Hd2 & r & Hr1 & Hr2 & Hg). by apply (Hloop _ _ _ _ _ r).
Qed.

(** Passes from the same point are the same pass. *)
Lemma consume_same_point it ts : ∀ st1 w1 st2 w2,
  same_point it st1 w1 st2 w2 →
  (consume it st1 ts w1).1.1 = (consume it st2 ts w2).1.1 ∧
  same_end (consume it st1 ts w1).1.2 (consume it st2 ts w2).1.2.
Proof.
  induction ts as [|t ts IH]; intros st1 w1 st2 w2 Hsame; [done|].
  simpl. destruct (gen_next_same_point it st1 w1 st2 w2 t Hsame) as [Hres Hnext].
  destruct (gen_next it st1 t w1) as [[res1 st1'] w1'].
  destruct (gen_next it st2 t w2) as [[res2 st2'] w2']. simpl in *. subst res2.
  destruct res1 as [[m|]|e]; [|done..].
  specialize (IH st1' w1' st2' w2' Hnext).
  destruct (consume it st1' ts w1') as [[ms1 e1] w1''].
  destruct (consume it st2' ts w2') as [[ms2 e2] w2'']. simpl in *.
  destruct IH as [-> He]. done.
Qed.

(** A step that answers with a match moves the matcher forward. *)
Lemma matcher_step_forward r s raw :
  search_progress (source r) (flags r) s →
  step_result (matcher_step r s) = Normal (Some raw) →
  (matches_left (step_matcher (matcher_step r s)) s < matches_left r s)%nat.
Proof.
  intros Hprog. unfold matcher_step, matches_left.
  destruct (Nat.ltb_spec (String.length s) (lastIndex r)) as [|Hle]; [done|].
  destruct (search (source r) (flags r) s (lastIndex r)) as [[res|]|e] eqn:Hs; [|done..].
  intros [= ->]. destruct (Hprog _ _ Hs) as [Hstart Hend]. simpl.
  unfold r_end in *.
  destruct (Nat.eqb_spec (String.length (default EmptyString (array_get (r_elems raw) 0))) 0);
    lia.
Qed.

(** A pass ends within as many turns as the matcher can give matches, plus
    one. *)
Lemma consume_finite it src fl ts : ∀ ms rem w r,
  search_progress src fl (it_string it) →
  rsi_string ms = it_string it → rsi_done ms = false →
  heap w !! rsi_matcher ms = Some r → source r = src → flags r = fl → global r = true →
  (length (consume it (GenSuspendedYield ms rem) ts w).1.1 ≤ matches_left r (it_string it))%nat ∧
  ((matches_left r (it_string it) < length ts)%nat →
   ∀ st', (consume it (GenSuspendedYield ms rem) ts w).1.2 ≠ Stopped st').
Proof.
  induction ts as [|t ts IH]; intros ms rem w r Hprog Hs Hd Hr Hsrc Hfl Hg.
  { simpl. split; [lia|]. intros Hlt. simpl in Hlt. lia. }
  simpl.
  destruct (budget_exhausted it rem) eqn:Hex.
  { rewrite gen_next_exhausted by done.
    destruct (it_throwOnTimeout it); simpl; (split; [lia|done]). }
  destruct (host_accepts (attempt_deadline it rem)) eqn:Hacc; cycle 1.
  { rewrite gen_next_refused by done. simpl. split; [lia|done]. }
  destruct (deadline_exceeded (attempt_deadline it rem) (runtime t)) eqn:Hdl.
  { rewrite gen_next_deadline by done.
    destruct (it_throwOnTimeout it); simpl; (split; [lia|done]). }
  rewrite gen_next_on_time by done.
  rewrite (RegExpStringIterator_next_run ms w r Hr Hg Hd). rewrite Hs.
  destruct (step_result (matcher_step r (it_string it))) as [[raw|]|e] eqn:Hres.
  - assert (search_progress (source r) (flags r) (it_string it)) as Hprog'
        by (by rewrite Hsrc, Hfl).
    pose proof (matcher_step_forward r (it_string it) raw Hprog' Hres) as Hlt.
    destruct (matcher_step_pattern r (it_string it)) as [Hsrc' Hfl'].
    specialize (IH ms (js_sub rem (Math_ceil (Num (elapsed t))))
                  (apply_step (rsi_matcher ms) (matcher_step r (it_string it)) w)
                  (step_matcher (matcher_step r (it_string it))) Hprog Hs Hd).
    destruct IH as [IH1 IH2].
    + simpl. apply lookup_insert_eq.
    + congruence.
    + congruence.
    + unfold global in *. by rewrite Hfl'.
    + destruct (consume it _ ts _) as [[ms' e] w']. simpl in *. split; [lia|].
      intros Hn. apply IH2. lia.
  - simpl. split; [lia|done].
  - destruct (isTimeoutError e && negb (it_throwOnTimeout it)); simpl; (split; [lia|done]).
Qed.

End Sequence.

Section C8.
Context {engine : Engine}.

Lemma consume_start it t ts w r :
  heap w !! it_regex it = Some r →
  global r = true →
  consume it GenSuspendedStart (t :: ts) w
  = consume it (GenSuspendedYield (started it r w).1 (it_timeout it)) (t :: ts)
      (started it r w).2.
Proof. intros Hr Hg. simpl. by rewrite (gen_next_start it t w r Hr Hg). Qed.

Lemma consume_start_finite it ts w r :
  heap w !! it_regex it = Some r →
  global r = true →
  search_progress (source r) (flags r) (it_string it) →
  (length (consume it GenSuspendedStart ts w).1.1 ≤ S (String.length (it_string it)))%nat ∧
  ((S (String.length (it_string it)) < length ts)%nat →
   ∀ st', (consume it GenSuspendedStart ts w).1.2 ≠ Stopped st').
Proof.
  intros Hr Hg Hprog. destruct ts as [|t ts].
  { simpl. split; [lia|]. intros Hlt. lia. }
  rewrite (consume_start it t ts w r Hr Hg).
  pose proof (consume_finite it (source r) (flags r) (t :: ts) (started it r w).1
                (it_timeout it) (started it r w).2 (mkRegExp (source r) (flags r) 0)
                Hprog eq_refl eq_refl) as H.
  unfold matches_left in H. simpl lastIndex in H. rewrite Nat.sub_0_r in H.
  apply H; try done. simpl. apply lookup_insert_eq.
Qed.

End C8.

(** C8, as stated, has the value of [matches] consumed at most once, a
    second iteration not starting over with a new budget.  On the input of
    the specification's own example, with a total timeout of 5 ms and turns
    measured at 2 ms each, a first pass yields the three matches and ends
    on the used-up budget; a second pass over the same value yields the
    three matches again. *)
Lemma C8_counterexample_second_pass :
  ∃ it first w1,
    matches Fixture.digits "a1b22c333" (mkOptions (Some (of_Z 5)) None false) Fixture.world
      = (Normal it, Fixture.world) ∧
    consume (engine := Fixture.engine) it (Symbol_iterator it)
      [mkTiming 1 2; mkTiming 1 2; mkTiming 1 2; mkTiming 1 2] Fixture.world
      = (first, Exhausted, w1) ∧
    map match_ first = [Some "1"; Some "22"; Some "333"]%string ∧
    (consume (engine := Fixture.engine) it (Symbol_iterator it)
       [mkTiming 1 2; mkTiming 1 2; mkTiming 1 2; mkTiming 1 2] w1).1
      = (first, Exhausted).
Proof.
  eexists _, _, _. split; [vm_compute; reflexivity|].
  split; [vm_compute; reflexivity|]. split; vm_compute; reflexivity.
Qed.

(** C8, amended: the call of [matches] does no matching work and changes
    nothing; the value it returns can be iterated any number of times, and
    every iteration is a new pass that starts at the beginning of the input
    with the whole budget, whatever passes were made before; each pass is
    lazy and finite, yielding at most one match per offset of the input and
    ending within that many turns plus one; a generator that has completed
    stays completed; and stopping early runs nothing. *)
Theorem C8_matches_sequence {engine : Engine} regex s o w it :
  (matches regex s o w).1 = Normal it →
  (matches regex s o w).2 = w ∧
  (∀ ts w',
     (∀ r, heap w !! regex = Some r →
           ∃ r', heap w' !! regex = Some r' ∧ source r = source r' ∧ flags r = flags r') →
     (consume it (Symbol_iterator it) ts w).1.1 = (consume it (Symbol_iterator it) ts w').1.1 ∧
     same_end (consume it (Symbol_iterator it) ts w).1.2
              (consume it (Symbol_iterator it) ts w').1.2) ∧
  (∀ ts ts',
     (consume it (Symbol_iterator it) ts' (consume it (Symbol_iterator it) ts w).2).1.1
     = (consume it (Symbol_iterator it) ts' w).1.1) ∧
  (∀ r, heap w !! regex = Some r →
        search_progress (source r) (flags r) s →
        ∀ ts,
          (length (consume it (Symbol_iterator it) ts w).1.1 ≤ S (String.length s))%nat ∧
          ((S (String.length s) < length ts)%nat →
           ∀ st', (consume it (Symbol_iterator it) ts w).1.2 ≠ Stopped st')) ∧
  (∀ t w', gen_next it GenCompleted t w' = (Normal Done, GenCompleted, w')) ∧
  (∀ st t w', gen_next it (gen_return st) t w' = (Normal Done, GenCompleted, w')).
Proof.
  intros Hit.
  destruct (matches_iterable regex s o w it Hit) as (Hreg & Hstr & _ & _ & _ & r & Hr & Hg).
  assert (∀ w', (∃ r', heap w' !! regex = Some r' ∧ source r = source r' ∧ flags r = flags r') →
                same_point it (Symbol_iterator it) w (Symbol_iterator it) w') as Hpoint.
  { intros w' (r' & Hr' & Hsrc & Hfl). exists r, r'. rewrite Hreg. done. }
  repeat apply conj.
  - apply matches_world.
  - intros ts w' Hw'. apply consume_same_point, Hpoint, Hw', Hr.
  - intros ts ts'. symmetry. apply consume_same_point, Hpoint.
    exists r. split; [|done].
    assert (gen_ok it (source r) (flags r) (Symbol_iterator it) w) as Hok.
    { split; [exact Hg|]. exists r. by rewrite Hreg. }
    destruct (consume_spec it _ _ ts _ w Hok) as [_ Hframe].
    apply Hframe; [exact Hr|]. simpl. tauto.
  - intros r' Hr' Hprog ts. assert (r' = r) as -> by congruence.
    rewrite <- Hstr. apply (consume_start_finite it ts w r); rewrite ?Hreg, ?Hstr; done.
  - intros t w'. apply gen_next_completed.
  - intros st t w'. apply gen_next_completed.
Qed.

(** The engine of the fixtures finds its matches at or after the offset it
    is asked from, inside the input. *)
Lemma Fixture_search_progress src fl s : search_progress (engine := Fixture.engine) src fl s.
Proof.
  intros start res Hs.
  unfold search, Fixture.engine, Scripted.engine_of in Hs. simpl in Hs.
  repeat (case_decide; simplify_eq/=); vm_compute; split; done || lia.
Qed.

Lemma C8_matches_sequence_witness :
  (length (consume (engine := Fixture.engine)
             (mkIterable Fixture.digits "a1b22c333" PosInf PosInf false)
             GenSuspendedStart [mkTiming 1 2; mkTiming 1 2] Fixture.world).1.1 ≤ 10)%nat ∧
  (consume (engine := Fixture.engine)
     (mkIterable Fixture.digits "a1b22c333" PosInf PosInf false) GenSuspendedStart
     [mkTiming 1 2; mkTiming 1 2; mkTiming 1 2; mkTiming 1 2]
     (consume (engine := Fixture.engine)
        (mkIterable Fixture.digits "a1b22c333" PosInf PosInf false) GenSuspendedStart
        [mkTiming 1 2; mkTiming 1 2] Fixture.world).2).1.1
  = (consume (engine := Fixture.engine)
       (mkIterable Fixture.digits "a1b22c333" PosInf PosInf false) GenSuspendedStart
       [mkTiming 1 2; mkTiming 1 2; mkTiming 1 2; mkTiming 1 2] Fixture.world).1.1.
Proof.
  destruct (C8_matches_sequence (engine := Fixture.engine) Fixture.digits "a1b22c333"%string
              noOptions Fixture.world
              (mkIterable Fixture.digits "a1b22c333" PosInf PosInf false) eq_refl)
    as (_ & _ & Hagain & Hfinite & _).
  split.
  - exact (proj1 (Hfinite (mkRegExp "\d+" "g" 4) eq_refl (Fixture_search_progress _ _ _)
                    [mkTiming 1 2; mkTiming 1 2])).
  - exact (Hagain [mkTiming 1 2; mkTiming 1 2]
             [mkTiming 1 2; mkTiming 1 2; mkTiming 1 2; mkTiming 1 2]).
Defined.

(** ** C5: the two regimes agree *)

Section Agreement.
Context {engine : Engine}.



Lemma matcher_step_throw r s e :
  step_result (matcher_step r s) = Throw e →
  search (source r) (flags r) s (lastIndex r) = Throw e.
Proof.
  unfold matcher_step.
  destruct (String.length s <? lastIndex r)%nat; [done|].
  destruct (search (source r) (flags r) s (lastIndex r)) as [[res|]|e']; simpl; congruence.
Qed.

(** A pass over [matches] whose turns are all on time yields the matches of
    the pattern, in order. *)
Lemma sync_pass_pure it ts : ∀ ms rem w r,
  rsi_string ms = it_string it → rsi_done ms = false →
  heap w !! rsi_matcher ms = Some r → global r = true →
  search_completes (source r) (flags r) (it_string it) →
  on_time it rem ts = true →
  (consume it (GenSuspendedYield ms rem) ts w).1.1
    = (pure_pass r (it_string it) (length ts)).1 ∧
  ((consume it (GenSuspendedYield ms rem) ts w).1.2 = Exhausted ↔
   (pure_pass r (it_string it) (length ts)).2 = true).
Proof.
  induction ts as [|t ts IH]; intros ms rem w r Hs Hd Hr Hg Hcomp Hon; [done|].
  simpl in Hon. apply andb_true_iff in Hon as [Hon Hrest].
  apply andb_true_iff in Hon as [Hon Hdl].
  apply andb_true_iff in Hon as [Hex Hacc].
  apply negb_true_iff in Hex, Hdl.
  simpl. rewrite gen_next_on_time by done.
  rewrite (RegExpStringIterator_next_run ms w r Hr Hg Hd). rewrite Hs.
  destruct (step_result (matcher_step r (it_string it))) as [[raw|]|e] eqn:Hres.
  - destruct (matcher_step_pattern r (it_string it)) as [Hsrc' Hfl'].
    specialize (IH ms (js_sub rem (Math_ceil (Num (elapsed t))))
                  (apply_step (rsi_matcher ms) (matcher_step r (it_string it)) w)
                  (step_matcher (matcher_step r (it_string it))) Hs Hd).
    destruct IH as [IH1 IH2].
    + simpl. apply lookup_insert_eq.
    + unfold global in *. by rewrite Hfl'.
    + by rewrite Hsrc', Hfl'.
    + exact Hrest.
    + destruct (consume it _ ts _) as [[ms' e] w'].
      destruct (pure_pass _ (it_string it) (length ts)) as [pm pe]. simpl in *.
      split; [by rewrite IH1 | exact IH2].
  - done.
  - apply matcher_step_throw in Hres. destruct (Hcomp (lastIndex r)) as [res Hres'].
    congruence.
Qed.

(** The generator inside the worker, by the state of its matcher. *)
Lemma worker_loop_run ww ms r :
  heap ww !! rsi_matcher ms = Some r → global r = true → rsi_done ms = false →
  matchesWorker_next (WorkerLoop ww ms)
  = match step_result (matcher_step r (rsi_string ms)) with
    | Normal (Some raw) =>
        (Normal (Yield (resultToMatch raw)),
         WorkerLoop (apply_step (rsi_matcher ms) (matcher_step r (rsi_string ms)) ww) ms)
    | Normal None => (Normal Done, WorkerCompleted)
    | Throw e => (Throw e, WorkerCompleted)
    end.
Proof.
  intros Hr Hg Hd. unfold matchesWorker_next.
  rewrite (RegExpStringIterator_next_run ms ww r Hr Hg Hd).
  by destruct (step_result (matcher_step r (rsi_string ms))) as [[raw|]|e].
Qed.

Lemma worker_start_run src fl s info :
  compile src fl = Normal info →
  has_flag "g" fl = true →
  matchesWorker_next (WorkerStart src fl s)
  = matchesWorker_next (WorkerLoop (worker_started src fl s).2 (worker_started src fl s).1).
Proof.
  intros Hc Hg. unfold matchesWorker_next at 1.
  unfold new_RegExp. rewrite Hc.
  unfold String_matchAll, mbind, read_regex, alloc_regex.
  cbn [heap set_heap emptyWorld]. rewrite lookup_insert_eq.
  unfold global. cbn [flags source lastIndex]. rewrite Hg. cbn [negb].
  reflexivity.
Qed.

(** A turn of the [for await] that nothing cancels. *)
Lemma for_await_turn_quiet call c cl worker arrival w :
  signal_aborted c w = false →
  due_timer c arrival w = None →
  for_await_turn call c cl worker arrival w
  = match matchesWorker_next worker with
    | (Normal (Yield m), worker') =>
        (Normal (Yield m, AsyncSuspendedYield c cl worker'), w)
    | (Normal Done, _) => (let* _ := run_cleanup cl in mret (Done, AsyncCompleted)) w
    | (Throw error, _) =>
        match handleAsyncError error (throwOnTimeout (ac_options call)) tt w with
        | (Normal _, w') => (let* _ := run_cleanup cl in mret (Done, AsyncCompleted)) w'
        | (Throw e, w') => (let* _ := run_cleanup cl in mthrow e) w'
        end
    end.
Proof.
  intros Hsig Hdue. unfold for_await_turn, await_signal. unfold mbind at 1.
  rewrite Hsig, Hdue.
  by destruct (matchesWorker_next worker) as [[[m|]|e] worker'].
Qed.

(** A pass over [matchesAsync] that nothing cancels yields the matches of
    the pattern, in order. *)
Lemma async_pass_pure call c cl arrivals : ∀ ww ms w r,
  rsi_string ms = ac_string call → rsi_done ms = false →
  heap ww !! rsi_matcher ms = Some r → global r = true →
  search_completes (source r) (flags r) (ac_string call) →
  signal_aborted c w = false →
  Forall (fun a => due_timer c a w = None) arrivals →
  (consume_async call (AsyncSuspendedYield c cl (WorkerLoop ww ms)) arrivals w).1.1
    = (pure_pass r (ac_string call) (length arrivals)).1 ∧
  ((consume_async call (AsyncSuspendedYield c cl (WorkerLoop ww ms)) arrivals w).1.2
     = AsyncExhausted ↔
   (pure_pass r (ac_string call) (length arrivals)).2 = true).
Proof.
  induction arrivals as [|a rest IH]; intros ww ms w r Hs Hd Hr Hg Hcomp Hsig Hdue; [done|].
  inversion Hdue as [|? ? Ha Hrest]; subst.
  simpl. unfold async_next, async_body.
  rewrite (for_await_turn_quiet call c cl _ a w Hsig Ha).
  rewrite (worker_loop_run ww ms r Hr Hg Hd). rewrite Hs.
  destruct (step_result (matcher_step r (ac_string call))) as [[raw|]|e] eqn:Hres.
  - destruct (matcher_step_pattern r (ac_string call)) as [Hsrc' Hfl'].
    specialize (IH (apply_step (rsi_matcher ms) (matcher_step r (ac_string call)) ww) ms w
                  (step_matcher (matcher_step r (ac_string call))) Hs Hd).
    destruct IH as [IH1 IH2].
    + simpl. apply lookup_insert_eq.
    + unfold global in *. by rewrite Hfl'.
    + by rewrite Hsrc', Hfl'.
    + exact Hsig.
    + exact Hrest.
    + destruct (consume_async call _ rest w) as [[ms' e] w'].
      destruct (pure_pass _ (ac_string call) (length rest)) as [pm pe]. simpl in *.
      split; [by rewrite IH1 | exact IH2].
  - destruct (run_cleanup_normal cl w) as [w' Hc]. unfold mbind. rewrite Hc. done.
  - apply matcher_step_throw in Hres. destruct (Hcomp (lastIndex r)) as [res Hres'].
    congruence.
Qed.

(** The timeout of a call that nothing cancels leaves its signal alone. *)
Lemma handleAsyncTimeout_within timeout w :
  timers_ok w →
  let c := fresh (dom (controllers w)) in
  (∃ a, async_within timeout a = true) →
  ∃ cl w2,
    handleAsyncTimeout c timeout (set_controllers <[c:=false]> w) = (Normal cl, w2) ∧
    signal_aborted c w2 = false ∧
    ∀ a, async_within timeout a = true → due_timer c a w2 = None.
Proof.
  intros Hok c [a0 Ha0].
  pose proof (no_timer_for_fresh w) as Hnone. fold c in Hnone.
  destruct (async_within_cases timeout a0 Ha0) as [Harm | (q & -> & Hq & _)].
  - assert (handleAsyncTimeout c timeout (set_controllers <[c:=false]> w)
            = (Normal (match timeout with Some PosInf => CleanupNoop | _ => CleanupUndefined end),
               set_controllers <[c:=false]> w)) as ->
      by (by destruct Harm as [-> | [-> | ->]]).
    eexists _, _. split; [done|]. split.
    + unfold signal_aborted. simpl. by rewrite lookup_insert_eq.
    + intros a _. apply (Hnone a _ _ Hok).
  - assert (js_le (Num q) (of_Z 0) = false) as Hle.
    { simpl. destruct (Qle_bool q (inject_Z 0)) eqn:E; [|done].
      apply Qle_bool_iff in E. exfalso. apply (Qlt_not_le _ _ Hq E). }
    unfold handleAsyncTimeout, setTimeout_abort, mbind. simpl Number_isNaN.
    rewrite Hle. simpl.
    eexists _, _. split; [done|]. split.
    + unfold signal_aborted. simpl. by rewrite lookup_insert_eq.
    + intros a Ha. unfold due_timer. simpl.
      pose proof (Hnone a (<[c:=false]> (controllers w)) [] Hok) as Hn.
      unfold due_timer in Hn. simpl in Hn.
      rewrite (find_app_none _ _ _ Hn). simpl. rewrite Nat.eqb_refl. simpl.
      unfold async_within in Ha. apply andb_true_iff in Ha as [_ Ha].
      apply negb_true_iff in Ha. by rewrite Ha.
Qed.

(** [matches] and [matchesAsync]. *)
Lemma streams_agree regex s o w r info it ts arrivals :
  heap w !! regex = Some r →
  compile (source r) (flags r) = Normal info →
  search_completes (source r) (flags r) s →
  timers_ok w →
  (matches regex s o w).1 = Normal it →
  length ts = length arrivals →
  on_time it (it_timeout it) ts = true →
  forallb (async_within (timeout o)) arrivals = true →
  (consume it (Symbol_iterator it) ts w).1.1
    = (consume_async (mkAsyncCall regex s o) AsyncSuspendedStart arrivals w).1.1 ∧
  ((consume it (Symbol_iterator it) ts w).1.2 = Exhausted ↔
   (consume_async (mkAsyncCall regex s o) AsyncSuspendedStart arrivals w).1.2
     = AsyncExhausted).
Proof.
  intros Hr Hc Hcomp Hok Hit Hlen Hon Hasync.
  destruct (matches_iterable regex s o w it Hit) as (Hreg & Hstr & _ & _ & _ & r' & Hr' & Hg).
  assert (r' = r) as -> by congruence.
  destruct ts as [|t ts], arrivals as [|a rest]; try done.
  rewrite <- Hreg in Hr.
  unfold Symbol_iterator. rewrite (consume_start it t ts w r Hr Hg).
  destruct (sync_pass_pure it (t :: ts) (started it r w).1 (it_timeout it) (started it r w).2
              (mkRegExp (source r) (flags r) 0)) as [Hs1 Hs2]; try done.
  { simpl. apply lookup_insert_eq. }
  { by rewrite Hstr. }
  rewrite Hs1. rewrite Hs2. rewrite Hstr, Hlen. clear Hs1 Hs2.
  (* the isolated side *)
  set (call := mkAsyncCall regex s o).
  set (c := fresh (dom (controllers w))).
  simpl in Hasync. apply andb_true_iff in Hasync as [Ha Hrest].
  destruct (handleAsyncTimeout_within (timeout o) w Hok (ex_intro _ a Ha))
    as (cl & w2 & Hh & Hsig & Hdue). fold c in Hh, Hsig, Hdue.
  set (w3 := emit (EvDispatch MatchesWorker (source r) (flags r) s c) w2).
  assert (consume_async call AsyncSuspendedStart (a :: rest) w
          = consume_async call
              (AsyncSuspendedYield c cl
                 (WorkerLoop (worker_started (source r) (flags r) s).2
                    (worker_started (source r) (flags r) s).1))
              (a :: rest) w3) as ->.
  { simpl. unfold async_next, async_body. cbn [ac_regex ac_string ac_options call].
    rewrite Hreg in Hr.
    unfold mbind at 1. unfold read_regex at 1. rewrite Hr, Hg. cbn [negb].
    unfold mbind at 1. unfold new_AbortController at 1. fold c.
    unfold mbind at 1. rewrite Hh. unfold mbind at 1. unfold modify at 1. fold w3.
    assert (signal_aborted c w3 = false) as Hsig3 by exact Hsig.
    assert (due_timer c a w3 = None) as Hdue3 by (by apply (Hdue a)).
    rewrite !(for_await_turn_quiet _ c cl _ a w3 Hsig3 Hdue3).
    by rewrite (worker_start_run (source r) (flags r) s info Hc Hg). }
  destruct (async_pass_pure call c cl (a :: rest)
              (worker_started (source r) (flags r) s).2
              (worker_started (source r) (flags r) s).1 w3
              (mkRegExp (source r) (flags r) 0)) as [Ha1 Ha2];
    [done | done | simpl; apply lookup_insert_eq | done | done | done | | by rewrite Ha1, Ha2].
  constructor; [by apply (Hdue a)|].
  apply Forall_forall. intros a' Hin. apply (Hdue a').
  rewrite forallb_forall in Hrest. apply Hrest. by apply list_elem_of_In.
Qed.

End Agreement.


Lemma Fixture_search_completes src fl s : search_completes (engine := Fixture.engine) src fl s.
Proof. intros start. eexists. reflexivity. Qed.


(** * Further properties *)

(** ** The normalizer *)

(** X1: whatever the raw timeout, the normalizer answers [undefined] or a
    whole number of at least 1, the only deadlines the host accepts;
    normalizing twice is normalizing once; and a finite timeout and its
    negation are normalized alike. *)
Theorem normalizeTimeout_canonical :
  (∀ timeout d, normalizeTimeout timeout = Some d → ∃ z, (1 ≤ z)%Z ∧ d = of_Z z) ∧
  (∀ timeout, normalizeTimeout (normalizeTimeout timeout) = normalizeTimeout timeout) ∧
  (∀ q, normalizeTimeout (Some (Num (- q))) = normalizeTimeout (Some (Num q))).
Proof.
  assert (∀ timeout d, normalizeTimeout timeout = Some d → ∃ z, (1 ≤ z)%Z ∧ d = of_Z z)
    as Hint.
  { intros [[| | |q]|] d; try discriminate.
    rewrite normalizeTimeout_finite. intros [= <-]. eexists. split; [|done]. lia. }
  split; [exact Hint|]. split.
  - intros timeout. destruct (normalizeTimeout timeout) as [d|] eqn:Hn; [|done].
    destruct (Hint timeout d Hn) as (z & Hz & ->).
    unfold of_Z at 1. rewrite normalizeTimeout_finite.
    rewrite (Qtrunc_abs_integer (inject_Z z) z); [|reflexivity|done].
    by rewrite Z.max_r.
  - intros q. rewrite !normalizeTimeout_finite, !Qtrunc_abs_floor.
    by rewrite (Qfloor_comp _ _ (Qabs_opp q)).
Qed.

Lemma normalizeTimeout_canonical_witness :
  ∃ z, (1 ≤ z)%Z ∧ Math_max (of_Z 1) (Math_trunc (Math_abs (Num (- (7 # 2))))) = of_Z z.
Proof.
  destruct normalizeTimeout_canonical as [H _].
  exact (H (Some (Num (- (7 # 2)))) _ eq_refl).
Defined.

(** ** How the synchronous operations relate *)

Section Related.
Context {engine : Engine}.

Lemma test_is_exec regex s w :
  (let* clone := structuredClone regex in RegExp_test clone s) w
  = (completion_map found ((let* clone := structuredClone regex in RegExp_exec clone s) w).1,
     ((let* clone := structuredClone regex in RegExp_exec clone s) w).2).
Proof.
  unfold RegExp_test, mbind.
  destruct (structuredClone regex w) as [[clone|e] w1]; [|done].
  by destruct (RegExp_exec clone s w1) as [[[res|]|e] w2].
Qed.

(** X2: [isMatch] answers whether [firstMatch] finds a match: on the same
    arguments it returns [true] where [firstMatch] returns a [Match],
    [false] where it returns [undefined] (a timeout included), and throws
    what it throws. *)
Theorem isMatch_is_firstMatch_found regex s o rt w :
  (isMatch regex s o rt w).1 = completion_map found (firstMatch regex s o rt w).1.
Proof.
  rewrite isMatch_run, firstMatch_run, test_is_exec.
  destruct (negb (host_accepts (normalizeTimeout (timeout o)))); [done|].
  destruct ((let* clone := structuredClone regex in RegExp_exec clone s) w) as [r w'].
  cbn [fst snd].
  destruct (deadline_exceeded _ rt).
  - by destruct (throwOnTimeout o).
  - destruct r as [[res|]|e]; simpl; try done.
    by destruct (isTimeoutError e && negb (throwOnTimeout o)).
Qed.

(** X3: on a regex with the global flag, what the first [next()] of a pass
    over [matches] gives is what [firstMatch] returns, when each is given a
    deadline the host takes and neither passes it: the same [Match], the end
    of the sequence for [undefined], or the same error. *)
Theorem firstMatch_is_first_of_matches regex s o w it t rt :
  (matches regex s o w).1 = Normal it →
  on_time it (it_timeout it) [t] = true →
  sync_within (timeout o) rt = true →
  (gen_next it (Symbol_iterator it) t w).1.1 = as_first_turn (firstMatch regex s o rt w).1.
Proof.
  intros Hit Hon Hsync.
  destruct (matches_iterable regex s o w it Hit) as (Hreg & Hstr & _ & _ & Hthr & r & Hr & Hg).
  simpl in Hon. rewrite andb_true_r in Hon. apply andb_true_iff in Hon as [Hon Hdl].
  apply andb_true_iff in Hon as [Hex Hacc].
  apply negb_true_iff in Hex, Hdl.
  apply andb_true_iff in Hsync as [Hacc' Hsync]. apply negb_true_iff in Hsync.
  rewrite firstMatch_run, Hacc'. cbn [negb].
  destruct (exec_clone_run regex s w r Hr) as (w1 & -> & _). rewrite Hsync.
  rewrite <- Hreg in Hr. unfold Symbol_iterator.
  rewrite (gen_next_start it t w r Hr Hg), gen_next_on_time by done.
  rewrite (RegExpStringIterator_next_run _ _ (mkRegExp (source r) (flags r) 0));
    [|simpl; apply lookup_insert_eq|exact Hg|done].
  unfold matcher_step. simpl. rewrite Hstr, Hthr.
  destruct (search (source r) (flags r) s 0) as [[raw|]|e]; simpl; try done.
  by destruct (isTimeoutError e && negb (throwOnTimeout o)).
Qed.

End Related.

Lemma firstMatch_is_first_of_matches_witness :
  (gen_next (engine := Fixture.engine)
     (mkIterable Fixture.digits "a1b22c333" (of_Z 100) PosInf false) GenSuspendedStart
     (mkTiming 1 2) Fixture.world).1.1
  = as_first_turn
      (firstMatch (engine := Fixture.engine) Fixture.digits "a1b22c333"
         (mkOptions (Some (of_Z 100)) None false) 3 Fixture.world).1.
Proof.
  exact (firstMatch_is_first_of_matches (engine := Fixture.engine) Fixture.digits
           "a1b22c333"%string (mkOptions (Some (of_Z 100)) None false) Fixture.world
           (mkIterable Fixture.digits "a1b22c333" (of_Z 100) PosInf false)
           (mkTiming 1 2) 3%Q eq_refl eq_refl eq_refl).
Defined.

(** ** The position state of the caller's regex, and absent timeouts *)

Section Independent.
Context {engine : Engine}.

(** X4: the [lastIndex] the caller's regex happens to have plays no part:
    with any other [lastIndex] in its place, [isMatch] and [firstMatch]
    return the same, [matches] returns the same object, and every pass over
    it yields the same matches and ends the same way.  Matching always
    starts at the beginning of the input. *)
Theorem lastIndex_is_ignored regex s o w r i :
  heap w !! regex = Some r →
  (∀ rt, (isMatch regex s o rt (set_heap <[regex := with_lastIndex r i]> w)).1
         = (isMatch regex s o rt w).1) ∧
  (∀ rt, (firstMatch regex s o rt (set_heap <[regex := with_lastIndex r i]> w)).1
         = (firstMatch regex s o rt w).1) ∧
  (matches regex s o (set_heap <[regex := with_lastIndex r i]> w)).1
    = (matches regex s o w).1 ∧
  (∀ it ts,
     (matches regex s o w).1 = Normal it →
     (consume it (Symbol_iterator it) ts (set_heap <[regex := with_lastIndex r i]> w)).1.1
       = (consume it (Symbol_iterator it) ts w).1.1 ∧
     same_end
       (consume it (Symbol_iterator it) ts (set_heap <[regex := with_lastIndex r i]> w)).1.2
       (consume it (Symbol_iterator it) ts w).1.2).
Proof.
  intros Hr.
  set (w' := set_heap <[regex := with_lastIndex r i]> w).
  assert (heap w' !! regex = Some (with_lastIndex r i)) as Hr'
    by (subst w'; simpl; apply lookup_insert_eq).
  assert (∀ rt, (firstMatch regex s o rt w').1 = (firstMatch regex s o rt w).1) as Hfirst.
  { intros rt. rewrite !firstMatch_run.
    destruct (negb (host_accepts (normalizeTimeout (timeout o)))); [done|].
    destruct (exec_clone_run regex s w r Hr) as (w1 & -> & _).
    destruct (exec_clone_run regex s w' _ Hr') as (w2 & -> & _). simpl.
    destruct (deadline_exceeded _ rt); [done|].
    by destruct (search (source r) (flags r) s 0) as [res|e]. }
  split; [|split; [exact Hfirst|split]].
  - intros rt. rewrite !isMatch_run.
    destruct (negb (host_accepts (normalizeTimeout (timeout o)))); [done|].
    destruct (test_clone_run regex s w r Hr) as (w1 & -> & _).
    destruct (test_clone_run regex s w' _ Hr') as (w2 & -> & _). simpl.
    destruct (deadline_exceeded _ rt); [done|].
    by destruct (search (source r) (flags r) s 0) as [res|e].
  - unfold matches, mbind, read_regex. rewrite Hr, Hr'.
    change (global (with_lastIndex r i)) with (global r). by destruct (global r).
  - intros it ts Hit.
    destruct (matches_iterable regex s o w it Hit) as (Hreg & _ & _ & _ & _ & r0 & Hr0 & Hg).
    assert (r0 = r) as -> by congruence.
    apply consume_same_point. exists (with_lastIndex r i), r. rewrite Hreg. done.
Qed.

Lemma loop_turn_no_deadline it ms rem t t' w :
  no_deadline (it_timeout it) →
  no_deadline (it_matchTimeout it) →
  rem = it_timeout it →
  loop_turn it ms rem t w = loop_turn it ms rem t' w.
Proof.
  intros Ht Hm ->.
  assert (budget_exhausted it (it_timeout it) = false) as Hex.
  { unfold budget_exhausted. by destruct Ht as [-> | ->]. }
  assert (attempt_deadline it (it_timeout it) = None) as Hdl.
  { unfold attempt_deadline. by destruct Ht as [-> | ->], Hm as [-> | ->]. }
  assert (∀ e, js_sub (it_timeout it) (Math_ceil (Num e)) = it_timeout it) as Hsub.
  { intros e. by destruct Ht as [-> | ->]. }
  unfold loop_turn, attempt, functionTimeout, mbind. rewrite Hex, Hdl, !Hsub. simpl.
  reflexivity.
Qed.

Lemma gen_next_no_deadline it st t t' w :
  no_deadline (it_timeout it) →
  no_deadline (it_matchTimeout it) →
  (∀ rem, budget_of it st = Some rem → rem = it_timeout it) →
  gen_next it st t w = gen_next it st t' w ∧
  ∀ m st' w', gen_next it st t w = (Normal (Yield m), st', w') →
              ∀ rem, budget_of it st' = Some rem → rem = it_timeout it.
Proof.
  intros Ht Hm Hst.
  assert (gen_body it st t w = gen_body it st t' w) as Hbody.
  { destruct st as [|ms rem|]; simpl; [|by apply loop_turn_no_deadline, Hst|done].
    unfold mbind.
    destruct (structuredClone (it_regex it) w) as [[clone|e] w1]; [|done].
    destruct (String_matchAll (it_string it) clone w1) as [[ms|e] w2]; [|done].
    by apply loop_turn_no_deadline. }
  split; [unfold gen_next, try_catch; by rewrite Hbody|].
  intros m st' w' Hn rem' Hrem'.
  destruct (budget_of it st) as [rem|] eqn:Hb.
  - destruct (gen_next_yield_budget it st t w m st' w' rem Hb Hn) as (_ & _ & Hb').
    rewrite Hb' in Hrem'. injection Hrem' as <-.
    rewrite (Hst rem eq_refl). by destruct Ht as [-> | ->].
  - destruct st; try done.
Qed.

Lemma consume_no_deadline it : ∀ ts ts' st w,
  no_deadline (it_timeout it) →
  no_deadline (it_matchTimeout it) →
  (∀ rem, budget_of it st = Some rem → rem = it_timeout it) →
  length ts = length ts' →
  consume it st ts w = consume it st ts' w.
Proof.
  induction ts as [|t ts IH]; intros [|t' ts'] st w Ht Hm Hst Hlen; try done.
  simpl. destruct (gen_next_no_deadline it st t t' w Ht Hm Hst) as [<- Hst'].
  destruct (gen_next it st t w) as [[[[m|]|e] st'] w']; [|done..].
  rewrite (IH ts' st' w' Ht Hm (Hst' m st' w' eq_refl)); [done|]. simpl in Hlen. lia.
Qed.

(** X5: without a timeout nothing times out, however long matching takes:
    for [isMatch] and [firstMatch] when the timeout is normalized to
    [undefined] (absent, NaN, or infinite), and for a pass over [matches]
    when [timeout] and [matchTimeout] are each left out, positive infinity
    or NaN, the result is the same whatever times the environment
    reports. *)
Theorem no_timeout_never_times_out regex s o w :
  (normalizeTimeout (timeout o) = None →
   ∀ rt rt', isMatch regex s o rt w = isMatch regex s o rt' w ∧
             firstMatch regex s o rt w = firstMatch regex s o rt' w) ∧
  (∀ it ts ts',
     no_deadline (it_timeout it) →
     no_deadline (it_matchTimeout it) →
     length ts = length ts' →
     consume it (Symbol_iterator it) ts w = consume it (Symbol_iterator it) ts' w).
Proof.
  split.
  - intros Hn rt rt'. rewrite !isMatch_run, !firstMatch_run, Hn. done.
  - intros it ts ts' Ht Hm Hlen. apply consume_no_deadline; try done.
    by intros rem [= <-].
Qed.

End Independent.

Lemma lastIndex_is_ignored_witness :
  (firstMatch (engine := Fixture.engine) Fixture.digits "a1b22c333" noOptions 1
     (set_heap <[Fixture.digits := with_lastIndex (mkRegExp "\d+" "g" 4) 7]> Fixture.world)).1
  = (firstMatch (engine := Fixture.engine) Fixture.digits "a1b22c333" noOptions 1
       Fixture.world).1.
Proof.
  destruct (lastIndex_is_ignored (engine := Fixture.engine) Fixture.digits
              "a1b22c333"%string noOptions Fixture.world (mkRegExp "\d+" "g" 4) 7 eq_refl)
    as (_ & H & _).
  exact (H 1%Q).
Defined.

Lemma no_timeout_never_times_out_witness :
  isMatch (engine := Fixture.engine) Fixture.digits "a1b22c333"
    (mkOptions (Some NaN) None false) 1 Fixture.world
  = isMatch (engine := Fixture.engine) Fixture.digits "a1b22c333"
      (mkOptions (Some NaN) None false) 1000000 Fixture.world ∧
  consume (engine := Fixture.engine)
    (mkIterable Fixture.digits "a1b22c333" PosInf NaN false) GenSuspendedStart
    [mkTiming 1 2; mkTiming 1 2] Fixture.world
  = consume (engine := Fixture.engine)
      (mkIterable Fixture.digits "a1b22c333" PosInf NaN false) GenSuspendedStart
      [mkTiming 1000000 1000000; mkTiming 5 6] Fixture.world.
Proof.
  destruct (no_timeout_never_times_out (engine := Fixture.engine) Fixture.digits
              "a1b22c333"%string (mkOptions (Some NaN) None false) Fixture.world) as [H1 H2].
  split.
  - exact (proj1 (H1 eq_refl 1%Q 1000000%Q)).
  - exact (H2 (mkIterable Fixture.digits "a1b22c333" PosInf NaN false)
             [mkTiming 1 2; mkTiming 1 2] [mkTiming 1000000 1000000; mkTiming 5 6]
             (or_introl eq_refl) (or_intror eq_refl) eq_refl).
Defined.

(** ** What timeouts do to a pass over [matches] *)

Section Bounded.
Context {engine : Engine}.

Lemma gen_next_start_general it t w clone w1 ms w2 :
  structuredClone (it_regex it) w = (Normal clone, w1) →
  String_matchAll (it_string it) clone w1 = (Normal ms, w2) →
  gen_next it GenSuspendedStart t w = gen_next it (GenSuspendedYield ms (it_timeout it)) t w2.
Proof.
  intros Hc Hm. unfold gen_next, try_catch, gen_body. unfold mbind at 1. rewrite Hc.
  unfold mbind at 1. by rewrite Hm.
Qed.

Lemma gen_next_start_fails it t w :
  (∀ clone w1, structuredClone (it_regex it) w = (Normal clone, w1) →
               ∀ ms w2, String_matchAll (it_string it) clone w1 ≠ (Normal ms, w2)) →
  ∀ m, (gen_next it GenSuspendedStart t w).1.1 ≠ Normal (Yield m).
Proof.
  intros Hfail m. unfold gen_next, try_catch, gen_body. unfold mbind at 1.
  destruct (structuredClone (it_regex it) w) as [[clone|e] w1].
  - unfold mbind at 1.
    destruct (String_matchAll (it_string it) clone w1) as [[ms|e] w2] eqn:Hm.
    + by destruct (Hfail clone w1 eq_refl ms w2).
    + by destruct (isTimeoutError e && negb (it_throwOnTimeout it)).
  - by destruct (isTimeoutError e && negb (it_throwOnTimeout it)).
Qed.

(** A turn under timeouts yields what the turn without them yields, or
    nothing. *)
Lemma gen_next_cut_short it ms rem t w m st' w' :
  gen_next it (GenSuspendedYield ms rem) t w = (Normal (Yield m), st', w') →
  ∃ ms',
    st' = GenSuspendedYield ms' (js_sub rem (Math_ceil (Num (elapsed t)))) ∧
    gen_next (unbounded it) (GenSuspendedYield ms PosInf) t w
    = (Normal (Yield m), GenSuspendedYield ms' PosInf, w').
Proof.
  intros Hn.
  destruct (gen_next_yield_budget it (GenSuspendedYield ms rem) t w m st' w' rem eq_refl Hn)
    as (Hex & Hdl & _).
  pose proof (gen_next_yield_accepted it (GenSuspendedYield ms rem) t w m st' w' rem
                eq_refl Hn) as Hacc.
  rewrite gen_next_on_time in Hn by done.
  rewrite (gen_next_on_time (unbounded it)) by done.
  destruct (RegExpStringIterator_next ms w) as [[[[value|] ms']|e] w1].
  - injection Hn as <- <- <-. by exists ms'.
  - done.
  - simpl in Hn. by destruct (isTimeoutError e && negb (it_throwOnTimeout it)).
Qed.

Lemma consume_cut_short it ts : ∀ ms rem w,
  (consume it (GenSuspendedYield ms rem) ts w).1.1
    `prefix_of` (consume (unbounded it) (GenSuspendedYield ms PosInf) ts w).1.1.
Proof.
  induction ts as [|t ts IH]; intros ms rem w; [done|].
  simpl. destruct (gen_next it (GenSuspendedYield ms rem) t w) as [[[[m|]|e] st'] w'] eqn:Hn;
    [|apply prefix_nil..].
  destruct (gen_next_cut_short it ms rem t w m st' w' Hn) as (ms' & -> & ->).
  specialize (IH ms' (js_sub rem (Math_ceil (Num (elapsed t)))) w').
  destruct (consume it _ ts w') as [[l1 e1] w1].
  destruct (consume (unbounded it) _ ts w') as [[l2 e2] w2]. simpl in *.
  by apply prefix_cons.
Qed.

(** X6: a timeout never adds a match: what a pass over [matches] yields
    under any timeouts and any times is the beginning of what the pass
    yields when the same object has no timeouts. *)
Theorem timeouts_only_cut_short it ts w :
  (consume it (Symbol_iterator it) ts w).1.1
    `prefix_of` (consume (unbounded it) (Symbol_iterator (unbounded it)) ts w).1.1.
Proof.
  unfold Symbol_iterator. destruct ts as [|t ts]; [done|].
  destruct (structuredClone (it_regex it) w) as [[clone|e] w1] eqn:Hc.
  - destruct (String_matchAll (it_string it) clone w1) as [[ms|e] w2] eqn:Hm.
    + simpl. rewrite (gen_next_start_general it t w clone w1 ms w2 Hc Hm).
      rewrite (gen_next_start_general (unbounded it) t w clone w1 ms w2 Hc Hm).
      apply (consume_cut_short it (t :: ts) ms (it_timeout it) w2).
    + simpl. pose proof (gen_next_start_fails it t w) as Hf.
      destruct (gen_next it GenSuspendedStart t w) as [[[[m|]|e'] st'] w'];
        [|apply prefix_nil..].
      exfalso. apply (Hf ltac:(intros; congruence) m). done.
  - simpl. pose proof (gen_next_start_fails it t w) as Hf.
    destruct (gen_next it GenSuspendedStart t w) as [[[[m|]|e'] st'] w'];
      [|apply prefix_nil..].
    exfalso. apply (Hf ltac:(intros; congruence) m). done.
Qed.

(** The rounded time of an attempt that took time is at least 1. *)
Lemma Qceiling_positive (e : Q) : (0 < e)%Q → (1 ≤ Qceiling e)%Z.
Proof.
  intros He. pose proof (Qle_ceiling e) as H.
  assert (0 < inject_Z (Qceiling e))%Q as Hpos by (eapply Qlt_le_trans; eauto).
  unfold Qlt in Hpos. simpl in Hpos. lia.
Qed.

Lemma Qceiling_minus (a : Q) (k : Z) : (Qceiling (a - inject_Z k) ≤ Qceiling a - k)%Z.
Proof.
  rewrite <- (Qceiling_Z (Qceiling a - k)). apply Qceiling_resp_le.
  rewrite <- inject_Z_minus. apply Qplus_le_l. apply Qle_ceiling.
Qed.

Lemma consume_total_bound it q ts : ∀ st w a,
  it_timeout it = Num q →
  budget_of it st = Some (Num a) →
  Forall (fun t => (0 < elapsed t)%Q) ts →
  (length (consume it st ts w).1.1 ≤ Z.to_nat (Qceiling a))%nat.
Proof.
  induction ts as [|t ts IH]; intros st w a Hq Hb Hpos; [simpl; lia|].
  inversion Hpos as [|? ? He Hrest]; subst.
  simpl. destruct (gen_next it st t w) as [[[[m|]|e] st'] w'] eqn:Hn; [|simpl; lia..].
  destruct (gen_next_yield_budget it st t w m st' w' _ Hb Hn) as (Hex & _ & Hb').
  specialize (IH st' w' _ Hq Hb' Hrest).
  destruct (consume it st' ts w') as [[l e'] w'']. simpl in *.
  assert (0 < a)%Q as Ha.
  { unfold budget_exhausted in Hex. rewrite Hq in Hex. simpl in Hex.
    destruct (Qlt_le_dec 0 a) as [|Hle]; [done|].
    assert (Qle_bool a (inject_Z 0) = true) by (by apply Qle_bool_iff). congruence. }
  pose proof (Qceiling_positive a Ha).
  pose proof (Qceiling_positive (elapsed t) He).
  pose proof (Qceiling_minus a (Qceiling (elapsed t))).
  lia.
Qed.

(** X7: the total timeout bounds a pass whatever the engine does: when
    every attempt is measured to take some time, a pass over [matches] with
    a finite total timeout of [q] milliseconds yields at most [q] matches,
    rounded up. *)
Theorem total_timeout_bounds_the_pass it q ts w :
  it_timeout it = Num q →
  Forall (fun t => (0 < elapsed t)%Q) ts →
  (length (consume it (Symbol_iterator it) ts w).1.1 ≤ Z.to_nat (Qceiling q))%nat.
Proof.
  intros Hq Hpos. apply (consume_total_bound it q); [done| |done].
  simpl. by rewrite Hq.
Qed.

(** Under a limit per match of [m], the deadline of an attempt is at most
    [m]. *)
Lemma attempt_deadline_within_limit it rem m :
  it_matchTimeout it = of_Z m → (1 ≤ m)%Z →
  budget_kind it rem →
  budget_exhausted it rem = false →
  ∃ z, attempt_deadline it rem = Some (of_Z z) ∧ (z ≤ m)%Z.
Proof.
  intros Hm Hz Hkind Hex. unfold attempt_deadline. rewrite Hm.
  replace (not_POSITIVE_INFINITY (it_timeout it) || not_POSITIVE_INFINITY (of_Z m))
    with true by (by rewrite orb_true_r).
  destruct Hkind as [[Ht ->] | (q & a & Ht & ->)].
  - simpl Math_min. unfold of_Z at 1. rewrite normalizeTimeout_finite.
    rewrite (Qtrunc_abs_integer (inject_Z m) m); [|reflexivity|done].
    exists (Z.max 1 m). split; [done|lia].
  - assert (0 < a)%Q as Ha.
    { unfold budget_exhausted in Hex. rewrite Ht in Hex. simpl in Hex.
      destruct (Qlt_le_dec 0 a) as [|Hle]; [done|].
      assert (Qle_bool a (inject_Z 0) = true) by (by apply Qle_bool_iff). congruence. }
    unfold of_Z at 1. simpl Math_min.
    destruct (Qle_bool a (inject_Z m)) eqn:Hle.
    + rewrite normalizeTimeout_finite, Qtrunc_abs_floor.
      eexists. split; [done|].
      apply Qle_bool_iff in Hle.
      assert (Qabs a == a)%Q as Habs by (apply Qabs_pos; by apply Qlt_le_weak).
      rewrite (Qfloor_comp _ _ Habs).
      pose proof (Qfloor_resp_le _ _ Hle) as Hfl. rewrite Qfloor_Z in Hfl. lia.
    + change (Num (inject_Z m)) with (of_Z m). unfold of_Z at 1.
      rewrite normalizeTimeout_finite.
      rewrite (Qtrunc_abs_integer (inject_Z m) m); [|reflexivity|done].
      exists (Z.max 1 m). split; [done|lia].
Qed.

Lemma consume_limit_per_match it m t ts2 : ∀ ts1 st w rem,
  it_matchTimeout it = of_Z m → (1 ≤ m)%Z →
  budget_of it st = Some rem →
  budget_kind it rem →
  (inject_Z m < runtime t)%Q →
  (length (consume it st (ts1 ++ t :: ts2) w).1.1 ≤ length ts1)%nat.
Proof.
  induction ts1 as [|t1 ts1 IH]; intros st w rem Hm Hz Hb Hkind Hslow.
  - simpl. destruct (gen_next it st t w) as [[[[x|]|e] st'] w'] eqn:Hn; [|simpl; lia..].
    exfalso.
    destruct (gen_next_yield_budget it st t w x st' w' rem Hb Hn) as (Hex & Hdl & _).
    destruct (attempt_deadline_within_limit it rem m Hm Hz Hkind Hex) as (z & Hd & Hle).
    rewrite Hd in Hdl. simpl in Hdl. apply negb_false_iff, Qle_bool_iff in Hdl.
    apply (Qlt_not_le _ _ Hslow). eapply Qle_trans; [exact Hdl|].
    by rewrite <- Zle_Qle.
  - simpl. destruct (gen_next it st t1 w) as [[[[x|]|e] st'] w'] eqn:Hn; [|simpl; lia..].
    destruct (gen_next_yield_budget it st t1 w x st' w' rem Hb Hn) as (_ & _ & Hb').
    assert (budget_kind it (js_sub rem (Math_ceil (Num (elapsed t1))))) as Hkind'.
    { destruct Hkind as [[Ht ->] | (q & a & Ht & ->)]; [by left|].
      right. simpl. eauto. }
    specialize (IH st' w' _ Hm Hz Hb' Hkind' Hslow).
    destruct (consume it st' (ts1 ++ t :: ts2) w') as [[l e'] w'']. simpl in *. lia.
Qed.

(** X8: the limit per match is enforced on every attempt: with a total
    timeout that is left out or finite and a [matchTimeout] of [m]
    milliseconds, an attempt that runs longer than [m] ends the pass, so a
    pass yields no more matches than there were turns before such an
    attempt. *)
Theorem limit_per_match_is_enforced it m ts1 t ts2 w :
  it_matchTimeout it = of_Z m → (1 ≤ m)%Z →
  (it_timeout it = PosInf ∨ ∃ q, it_timeout it = Num q) →
  (inject_Z m < runtime t)%Q →
  (length (consume it (Symbol_iterator it) (ts1 ++ t :: ts2) w).1.1 ≤ length ts1)%nat.
Proof.
  intros Hm Hz Ht Hslow.
  apply (consume_limit_per_match it m t ts2 ts1 _ w (it_timeout it)); try done.
  destruct Ht as [Ht | [q Ht]]; [by left|]. right. eauto.
Qed.

(** A match a step answers with, and where the matcher goes on from. *)
Lemma matcher_step_resume r s raw :
  step_result (matcher_step r s) = Normal (Some raw) →
  search (source r) (flags r) s (lastIndex r) = Normal (Some raw) ∧
  lastIndex (step_matcher (matcher_step r s)) = resume_from (resultToMatch raw).
Proof.
  unfold matcher_step.
  destruct (String.length s <? lastIndex r)%nat; [done|].
  destruct (search (source r) (flags r) s (lastIndex r)) as [[res|]|e]; [|done..].
  simpl. intros [= ->]. done.
Qed.

Lemma consume_in_order it ts : ∀ ms rem w r,
  search_progress (source r) (flags r) (it_string it) →
  rsi_string ms = it_string it → rsi_done ms = false →
  heap w !! rsi_matcher ms = Some r → global r = true →
  in_order (lastIndex r) (consume it (GenSuspendedYield ms rem) ts w).1.1 ∧
  Forall (fun m => (match_end m ≤ String.length (it_string it))%nat)
    (consume it (GenSuspendedYield ms rem) ts w).1.1.
Proof.
  induction ts as [|t ts IH]; intros ms rem w r Hprog Hs Hd Hr Hg; [done|].
  simpl.
  destruct (budget_exhausted it rem) eqn:Hex.
  { rewrite gen_next_exhausted by done. by destruct (it_throwOnTimeout it). }
  destruct (host_accepts (attempt_deadline it rem)) eqn:Hacc; cycle 1.
  { by rewrite gen_next_refused by done. }
  destruct (deadline_exceeded (attempt_deadline it rem) (runtime t)) eqn:Hdl.
  { rewrite gen_next_deadline by done. by destruct (it_throwOnTimeout it). }
  rewrite gen_next_on_time by done.
  rewrite (RegExpStringIterator_next_run ms w r Hr Hg Hd). rewrite Hs.
  destruct (step_result (matcher_step r (it_string it))) as [[raw|]|e] eqn:Hres.
  - destruct (matcher_step_resume r _ raw Hres) as [Hsearch Hresume].
    destruct (Hprog _ _ Hsearch) as [Hstart Hend].
    destruct (matcher_step_pattern r (it_string it)) as [Hsrc' Hfl'].
    specialize (IH ms (js_sub rem (Math_ceil (Num (elapsed t))))
                  (apply_step (rsi_matcher ms) (matcher_step r (it_string it)) w)
                  (step_matcher (matcher_step r (it_string it)))).
    destruct IH as [IH1 IH2]; try done.
    + by rewrite Hsrc', Hfl'.
    + simpl. apply lookup_insert_eq.
    + unfold global in *. by rewrite Hfl'.
    + destruct (consume it _ ts _) as [[l e'] w'']. simpl in *.
      split; [by rewrite <- Hresume|]. constructor; [exact Hend | exact IH2].
  - done.
  - by destruct (isTimeoutError e && negb (it_throwOnTimeout it)).
Qed.

(** X9: the matches of a pass come in the order of the input and do not
    overlap: when the engine finds its matches at or after the offset it
    searches from, each match of a pass over [matches] starts at or after
    the end of the one before (one further after an empty match), and all
    end inside the input. *)
Theorem matches_in_order regex s o w it r ts :
  (matches regex s o w).1 = Normal it →
  heap w !! regex = Some r →
  search_progress (source r) (flags r) s →
  in_order 0 (consume it (Symbol_iterator it) ts w).1.1 ∧
  Forall (fun m => (match_end m ≤ String.length s)%nat)
    (consume it (Symbol_iterator it) ts w).1.1.
Proof.
  intros Hit Hr Hprog.
  destruct (matches_iterable regex s o w it Hit) as (Hreg & Hstr & _ & _ & _ & r' & Hr' & Hg).
  assert (r' = r) as -> by congruence.
  destruct ts as [|t ts]; [done|].
  rewrite <- Hreg in Hr. unfold Symbol_iterator. rewrite (consume_start it t ts w r Hr Hg).
  rewrite <- Hstr.
  apply (consume_in_order it (t :: ts) _ _ _ (mkRegExp (source r) (flags r) 0)); try done.
  - by rewrite Hstr.
  - simpl. apply lookup_insert_eq.
Qed.

End Bounded.

Lemma total_timeout_bounds_the_pass_witness :
  (length (consume (engine := Fixture.engine)
             (mkIterable Fixture.digits "a1b22c333" (Num 2) PosInf false) GenSuspendedStart
             [mkTiming 1 1; mkTiming 1 1; mkTiming 1 1] Fixture.world).1.1 ≤ 2)%nat.
Proof.
  apply (total_timeout_bounds_the_pass (engine := Fixture.engine)
           (mkIterable Fixture.digits "a1b22c333" (Num 2) PosInf false) 2
           [mkTiming 1 1; mkTiming 1 1; mkTiming 1 1] Fixture.world eq_refl).
  repeat (constructor; [reflexivity|]). constructor.
Defined.

Lemma limit_per_match_is_enforced_witness :
  (length (consume (engine := Fixture.engine)
             (mkIterable Fixture.digits "a1b22c333" PosInf (of_Z 5) false) GenSuspendedStart
             [mkTiming 1 1; mkTiming 6 6; mkTiming 1 1] Fixture.world).1.1 ≤ 1)%nat.
Proof.
  apply (limit_per_match_is_enforced (engine := Fixture.engine)
           (mkIterable Fixture.digits "a1b22c333" PosInf (of_Z 5) false) 5
           [mkTiming 1 1] (mkTiming 6 6) [mkTiming 1 1] Fixture.world eq_refl).
  - lia.
  - left. reflexivity.
  - reflexivity.
Defined.

Lemma matches_in_order_witness :
  in_order 0
    (consume (engine := Fixture.engine)
       (mkIterable Fixture.digits "a1b22c333" PosInf PosInf false) GenSuspendedStart
       [mkTiming 1 2; mkTiming 1 2; mkTiming 1 2] Fixture.world).1.1 ∧
  Forall (fun m => (match_end m ≤ 9)%nat)
    (consume (engine := Fixture.engine)
       (mkIterable Fixture.digits "a1b22c333" PosInf PosInf false) GenSuspendedStart
       [mkTiming 1 2; mkTiming 1 2; mkTiming 1 2] Fixture.world).1.1.
Proof.
  exact (matches_in_order (engine := Fixture.engine) Fixture.digits "a1b22c333" noOptions
           Fixture.world (mkIterable Fixture.digits "a1b22c333" PosInf PosInf false)
           (mkRegExp "\d+" "g" 4) [mkTiming 1 2; mkTiming 1 2; mkTiming 1 2]
           eq_refl eq_refl (Fixture_search_progress _ _ _)).
Defined.


(** ** The stream of [matchesAsync] and its timer *)

Section Stream.
Context {engine : Engine}.

Lemma run_cleanup_timers pending c cl w :
  stream_timers pending c cl w → timers (run_cleanup cl w).2 = pending.
Proof.
  intros [_ H]. destruct cl as [| |id]; [exact H|exact H|].
  destruct H as (Hid & delay & Heq).
  unfold run_cleanup, clearTimeout, modify. simpl. rewrite Heq.
  unfold remove_timer. rewrite List.filter_app. simpl. rewrite Nat.eqb_refl. simpl.
  rewrite app_nil_r. by apply remove_timer_absent.
Qed.

(** Waiting for the worker under the signal: either nothing happens, or
    the signal wins and the cleanup leaves the timers of before. *)
Lemma await_signal_timers pending c cl a w :
  stream_timers pending c cl w →
  match await_signal c a w with
  | (Normal _, w1) => w1 = w
  | (Throw _, w1) => timers (run_cleanup cl w1).2 = pending
  end.
Proof.
  intros Hst. unfold await_signal.
  destruct (signal_aborted c w); [by apply (run_cleanup_timers pending c)|].
  destruct (due_timer c a w) as [t|] eqn:Hdue; [|done].
  unfold due_timer in Hdue. apply List.find_some in Hdue as [Hin Hcond].
  apply andb_true_iff in Hcond as [Htarget _]. apply Nat.eqb_eq in Htarget.
  destruct Hst as [Hnone H]. rewrite Forall_forall in Hnone.
  destruct cl as [| |id].
  - exfalso. rewrite H in Hin. apply (Hnone t); [by apply list_elem_of_In|done].
  - exfalso. rewrite H in Hin. apply (Hnone t); [by apply list_elem_of_In|done].
  - destruct H as (Hid & delay & Heq). rewrite Heq in Hin.
    apply in_app_or in Hin as [Hin | [<- | []]].
    { exfalso. apply (Hnone t); [by apply list_elem_of_In|done]. }
    unfold run_cleanup, clearTimeout, modify, fire_timer. simpl. rewrite Heq.
    unfold remove_timer at 2. rewrite List.filter_app. simpl. rewrite Nat.eqb_refl. simpl.
    rewrite app_nil_r. fold (remove_timer id pending).
    rewrite (remove_timer_absent id pending Hid). by apply remove_timer_absent.
Qed.

Lemma for_await_turn_timers pending call c cl worker a w :
  stream_timers pending c cl w →
  match for_await_turn call c cl worker a w with
  | (Normal (Yield _, st'), w') =>
      (∃ worker', st' = AsyncSuspendedYield c cl worker') ∧ w' = w
  | (Normal (Done, _), w') => timers w' = pending
  | (Throw _, w') => timers w' = pending
  end.
Proof.
  intros Hst. unfold for_await_turn. unfold mbind at 1.
  pose proof (await_signal_timers pending c cl a w Hst) as Hawait.
  pose proof (run_cleanup_timers pending c cl w Hst) as Hclean.
  destruct (await_signal c a w) as [[[]|e] w1].
  - subst w1. destruct (matchesWorker_next worker) as [[[m|]|e] worker'].
    + split; [by eexists|done].
    + unfold mbind. destruct (run_cleanup cl w) as [[[]|e] w2]; exact Hclean.
    + unfold handleAsyncError, mret, mthrow, mbind.
      destruct (String.eqb (err_name e) "AbortError");
        [destruct (throwOnTimeout (ac_options call))|];
        destruct (run_cleanup cl w) as [[[]|e'] w2]; exact Hclean.
  - unfold handleAsyncError, mret, mthrow, mbind.
    destruct (String.eqb (err_name e) "AbortError");
      [destruct (throwOnTimeout (ac_options call))|];
      destruct (run_cleanup cl w1) as [[[]|e'] w2]; exact Hawait.
Qed.

(** What [handleAsyncTimeout] leaves pending for a new controller. *)
Lemma handleAsyncTimeout_stream timeout w :
  timers_ok w →
  let c := fresh (dom (controllers w)) in
  ∃ cl w1,
    handleAsyncTimeout c timeout (set_controllers <[c:=false]> w) = (Normal cl, w1) ∧
    stream_timers (timers w) c cl w1.
Proof.
  intros Hok c.
  assert (Forall (fun t => timer_target t ≠ c) (timers w)) as Hnone.
  { eapply Forall_impl; [exact Hok|]. intros t [Hin _] E. simpl in Hin.
    rewrite E in Hin. by apply is_fresh in Hin. }
  unfold handleAsyncTimeout.
  destruct timeout as [t|]; [|by eexists _, _].
  destruct (Number_isNaN t); [by eexists _, _|].
  destruct (js_le t (of_Z 0)); simpl; [by eexists _, _|].
  destruct (negb (Number_isFinite t)); [by eexists _, _|].
  eexists _, _. split; [reflexivity|]. split; [exact Hnone|]. split.
  - eapply Forall_impl; [exact Hok|]. intros x [_ Hlt]. simpl in *. lia.
  - by eexists.
Qed.

Lemma async_next_start_general call a w r cl w1 :
  heap w !! ac_regex call = Some r →
  global r = true →
  let c := fresh (dom (controllers w)) in
  handleAsyncTimeout c (timeout (ac_options call)) (set_controllers <[c:=false]> w)
    = (Normal cl, w1) →
  async_next call AsyncSuspendedStart a w
  = async_next call
      (AsyncSuspendedYield c cl (WorkerStart (source r) (flags r) (ac_string call))) a
      (emit (EvDispatch MatchesWorker (source r) (flags r) (ac_string call) c) w1).
Proof.
  intros Hr Hg c Hh. unfold async_next, async_body.
  unfold mbind at 1. unfold read_regex at 1. rewrite Hr, Hg. cbn [negb].
  unfold mbind at 1. unfold new_AbortController at 1. fold c.
  unfold mbind at 1. rewrite Hh. unfold mbind at 1. unfold modify at 1. reflexivity.
Qed.

Lemma async_next_timers pending call st a w :
  stream_state pending st w →
  match async_next call st a w with
  | (Normal (Yield _), st', w') => stream_state pending st' w'
  | (_, _, w') => timers w' = pending
  end.
Proof.
  intros Hst. destruct st as [|c cl worker|].
  - destruct Hst as [Hok <-].
    destruct (heap w !! ac_regex call) as [r|] eqn:Hr.
    + destruct (global r) eqn:Hg.
      * destruct (handleAsyncTimeout_stream (timeout (ac_options call)) w Hok)
          as (cl & w1 & Hh & Hst).
        rewrite (async_next_start_general call a w r cl w1 Hr Hg Hh).
        set (c := fresh (dom (controllers w))) in *.
        set (w2 := emit _ w1).
        assert (stream_timers (timers w) c cl w2) as Hst2 by exact Hst.
        unfold async_next, async_body.
        pose proof (for_await_turn_timers (timers w) call c cl
                      (WorkerStart (source r) (flags r) (ac_string call)) a w2 Hst2) as H.
        destruct (for_await_turn call c cl _ a w2) as [[[[m|] st']|e] w']; [|done..].
        destruct H as [[worker' ->] ->]. exact Hst2.
      * unfold async_next, async_body. unfold mbind at 1. unfold read_regex at 1.
        by rewrite Hr, Hg.
    + unfold async_next, async_body. unfold mbind at 1. unfold read_regex at 1.
      by rewrite Hr.
  - simpl in Hst. unfold async_next, async_body.
    pose proof (for_await_turn_timers pending call c cl worker a w Hst) as H.
    destruct (for_await_turn call c cl worker a w) as [[[[m|] st']|e] w']; [|done..].
    destruct H as [[worker' ->] ->]. exact Hst.
  - exact Hst.
Qed.

Lemma consume_async_timers pending call arrivals : ∀ st w,
  stream_state pending st w →
  timers (async_leave (consume_async call st arrivals w).1.2
            (consume_async call st arrivals w).2) = pending.
Proof.
  induction arrivals as [|a rest IH]; intros st w Hst.
  - simpl. destruct st as [|c cl worker|]; [by destruct Hst| |exact Hst].
    simpl in Hst. pose proof (run_cleanup_timers pending c cl w Hst) as H.
    unfold async_return, mbind. by destruct (run_cleanup cl w) as [[[]|e] w'].
  - simpl. pose proof (async_next_timers pending call st a w Hst) as H.
    destruct (async_next call st a w) as [[[[m|]|e] st'] w']; [|exact H..].
    specialize (IH st' w' H).
    by destruct (consume_async call st' rest w') as [[ms e] w''].
Qed.

(** X10: a stream of [matchesAsync] leaves no timer behind: however the
    consumer's loop ends (the stream is exhausted, an advance throws, the
    timeout fires, or the consumer stops early and the generator is
    returned), the pending timers are those of before the first advance. *)
Theorem stream_clears_its_timer regex s o arrivals w :
  timers_ok w →
  timers (async_leave
            (consume_async (mkAsyncCall regex s o) AsyncSuspendedStart arrivals w).1.2
            (consume_async (mkAsyncCall regex s o) AsyncSuspendedStart arrivals w).2)
  = timers w.
Proof. intros Hok. by apply consume_async_timers. Qed.

(** A turn that yields has asked the worker, and nothing else happened. *)
Lemma for_await_turn_yield call c cl worker a w m st' w' :
  for_await_turn call c cl worker a w = (Normal (Yield m, st'), w') →
  ∃ worker',
    matchesWorker_next worker = (Normal (Yield m), worker') ∧
    st' = AsyncSuspendedYield c cl worker' ∧ w' = w ∧
    signal_aborted c w = false ∧ due_timer c a w = None.
Proof.
  unfold for_await_turn. unfold mbind at 1.
  assert (∀ e w1,
    match handleAsyncError e (throwOnTimeout (ac_options call)) tt w1 with
    | (Normal _, w'') => (let* _ := run_cleanup cl in mret (Done, AsyncCompleted)) w''
    | (Throw e0, w'') => (let* _ := run_cleanup cl in mthrow e0) w''
    end ≠ (Normal (@Yield Match m, st'), w')) as Hno.
  { intros e w1. unfold handleAsyncError, mret, mthrow, mbind.
    destruct (String.eqb (err_name e) "AbortError");
      [destruct (throwOnTimeout (ac_options call))|];
      by destruct (run_cleanup cl w1) as [[[]|e'] w2]. }
  unfold await_signal.
  destruct (signal_aborted c w); [intros H; by destruct (Hno _ _ H)|].
  destruct (due_timer c a w); [intros H; by destruct (Hno _ _ H)|].
  destruct (matchesWorker_next worker) as [[[m'|]|e] worker'].
  - intros [= -> <- <-]. by exists worker'.
  - unfold mbind. by destruct (run_cleanup cl w) as [[[]|e'] w2].
  - intros H; by destruct (Hno _ _ H).
Qed.

Lemma consume_async_cut_short call call' c cl cl' arrivals : ∀ worker wb wu,
  quiet c wu →
  (consume_async call (AsyncSuspendedYield c cl worker) arrivals wb).1.1
    `prefix_of` (consume_async call' (AsyncSuspendedYield c cl' worker) arrivals wu).1.1.
Proof.
  induction arrivals as [|a rest IH]; intros worker wb wu Hq; [done|].
  simpl. unfold async_next, async_body.
  destruct (for_await_turn call c cl worker a wb) as [[[[m|] st']|e] w'] eqn:Hb;
    [|apply prefix_nil..].
  destruct (for_await_turn_yield call c cl worker a wb m st' w' Hb)
    as (worker' & Hw & -> & -> & _).
  destruct Hq as [Hsig Hdue].
  rewrite (for_await_turn_quiet call' c cl' worker a wu Hsig (Hdue a)), Hw.
  specialize (IH worker' wb wu (conj Hsig Hdue)).
  destruct (consume_async call _ rest wb) as [[l1 e1] w1].
  destruct (consume_async call' _ rest wu) as [[l2 e2] w2]. simpl in *.
  by apply prefix_cons.
Qed.

Lemma consume_async_start_cut_short regex s o o' arrivals w :
  timers_ok w →
  timeout o' = None →
  (consume_async (mkAsyncCall regex s o) AsyncSuspendedStart arrivals w).1.1
    `prefix_of` (consume_async (mkAsyncCall regex s o') AsyncSuspendedStart arrivals w).1.1.
Proof.
  intros Hok Ho'. destruct arrivals as [|a rest]; [done|].
  set (call := mkAsyncCall regex s o). set (call' := mkAsyncCall regex s o').
  destruct (heap w !! regex) as [r|] eqn:Hr.
  - destruct (global r) eqn:Hg.
    + destruct (handleAsyncTimeout_normal (fresh (dom (controllers w))) (timeout o)
                  (set_controllers <[fresh (dom (controllers w)) := false]> w))
        as (cl & w1 & Hh & _).
      assert (handleAsyncTimeout (fresh (dom (controllers w))) (timeout (ac_options call'))
                (set_controllers <[fresh (dom (controllers w)) := false]> w)
              = (Normal CleanupUndefined,
                 set_controllers <[fresh (dom (controllers w)) := false]> w)) as Hh'
        by (subst call'; cbn [ac_options]; by rewrite Ho').
      change (consume_async call AsyncSuspendedStart (a :: rest) w) with
        (match async_next call AsyncSuspendedStart a w with
         | (Normal (Yield m), st', w') =>
             let '(ms, e, w'') := consume_async call st' rest w' in (m :: ms, e, w'')
         | (Normal Done, _, w') => ([], AsyncExhausted, w')
         | (Throw e, _, w') => ([], AsyncFailed e, w')
         end).
      change (consume_async call' AsyncSuspendedStart (a :: rest) w) with
        (match async_next call' AsyncSuspendedStart a w with
         | (Normal (Yield m), st', w') =>
             let '(ms, e, w'') := consume_async call' st' rest w' in (m :: ms, e, w'')
         | (Normal Done, _, w') => ([], AsyncExhausted, w')
         | (Throw e, _, w') => ([], AsyncFailed e, w')
         end).
      rewrite (async_next_start_general call a w r cl w1 Hr Hg Hh).
      rewrite (async_next_start_general call' a w r CleanupUndefined _ Hr Hg Hh').
      apply (consume_async_cut_short call call' _ cl CleanupUndefined (a :: rest)).
      split.
      * unfold signal_aborted. simpl. by rewrite lookup_insert_eq.
      * intros a'. apply (no_timer_for_fresh w a' _ _ Hok).
    + simpl. unfold async_next, async_body. unfold mbind at 1. unfold read_regex at 1.
      subst call. cbn [ac_regex]. rewrite Hr, Hg. apply prefix_nil.
  - simpl. unfold async_next, async_body. unfold mbind at 1. unfold read_regex at 1.
    subst call. cbn [ac_regex]. rewrite Hr. apply prefix_nil.
Qed.

(** X11: a timeout never adds a match to a stream either: what a pass over
    [matchesAsync] yields under a timeout is the beginning of what it
    yields without one. *)
Theorem async_timeouts_only_cut_short regex s o arrivals w :
  timers_ok w →
  (consume_async (mkAsyncCall regex s o) AsyncSuspendedStart arrivals w).1.1
    `prefix_of`
  (consume_async (mkAsyncCall regex s (without_timeout o)) AsyncSuspendedStart arrivals w).1.1.
Proof. intros Hok. by apply consume_async_start_cut_short. Qed.

End Stream.

Lemma stream_clears_its_timer_witness :
  timers (async_leave
            (consume_async (engine := Fixture.engine)
               (mkAsyncCall Fixture.digits "a1b22c333" (mkOptions (Some (of_Z 1000)) None false))
               AsyncSuspendedStart [40; 41]%Q Fixture.world).1.2
            (consume_async (engine := Fixture.engine)
               (mkAsyncCall Fixture.digits "a1b22c333" (mkOptions (Some (of_Z 1000)) None false))
               AsyncSuspendedStart [40; 41]%Q Fixture.world).2)
  = timers Fixture.world.
Proof.
  exact (stream_clears_its_timer (engine := Fixture.engine) Fixture.digits "a1b22c333"
           (mkOptions (Some (of_Z 1000)) None false) [40; 41]%Q Fixture.world
           timers_ok_empty).
Defined.

Lemma async_timeouts_only_cut_short_witness :
  (consume_async (engine := Fixture.engine)
     (mkAsyncCall Fixture.digits "a1b22c333" (mkOptions (Some (of_Z 41)) None false))
     AsyncSuspendedStart [40; 42; 43]%Q Fixture.world).1.1
    `prefix_of`
  (consume_async (engine := Fixture.engine)
     (mkAsyncCall Fixture.digits "a1b22c333" (mkOptions None None false))
     AsyncSuspendedStart [40; 42; 43]%Q Fixture.world).1.1.
Proof.
  exact (async_timeouts_only_cut_short (engine := Fixture.engine) Fixture.digits "a1b22c333"
           (mkOptions (Some (of_Z 41)) None false) [40; 42; 43]%Q Fixture.world
           timers_ok_empty).
Defined.


(** ** Isolated calls, one after the other *)

Section Sequences.
Context {engine : Engine}.

Lemma extends_refl w : extends w w.
Proof. by split. Qed.

Lemma extends_trans w1 w2 w3 : extends w1 w2 → extends w2 w3 → extends w1 w3.
Proof. intros [H1 H2] [H3 H4]. split; [set_solver|lia]. Qed.

Lemma grows_ret {A} (a : A) : grows (mret a).
Proof. intros w. apply extends_refl. Qed.

Lemma grows_throw {A} e : grows (@mthrow A e).
Proof. intros w. apply extends_refl. Qed.

Lemma grows_bind {A B} (m : M A) (k : A → M B) :
  grows m → (∀ a, grows (k a)) → grows (mbind m k).
Proof.
  intros Hm Hk w. unfold mbind. specialize (Hm w).
  destruct (m w) as [[a|e] w']; simpl in *; [|done].
  eapply extends_trans; [exact Hm|apply Hk].
Qed.

Lemma grows_catch {A} (m : M A) (h : JsError → M A) :
  grows m → (∀ e, grows (h e)) → grows (try_catch m h).
Proof.
  intros Hm Hh w. unfold try_catch. specialize (Hm w).
  destruct (m w) as [[a|e] w']; simpl in *; [done|].
  eapply extends_trans; [exact Hm|apply Hh].
Qed.

Lemma grows_read l : grows (read_regex l).
Proof. intros w. unfold read_regex. destruct (heap w !! l); apply extends_refl. Qed.

Lemma grows_emit ev : grows (modify (emit ev)).
Proof. intros w. by split. Qed.

Lemma grows_new_controller : grows new_AbortController.
Proof. intros w. split; simpl; [|lia]. rewrite dom_insert. set_solver. Qed.

Lemma grows_abort c : grows (controller_abort c).
Proof. intros w. split; simpl; [|lia]. rewrite dom_insert. set_solver. Qed.

Lemma grows_handleAsyncTimeout c timeout : grows (handleAsyncTimeout c timeout).
Proof.
  intros w. unfold handleAsyncTimeout.
  destruct timeout as [t|]; [|apply extends_refl].
  destruct (Number_isNaN t); [apply extends_refl|].
  destruct (js_le t (of_Z 0)); simpl.
  - apply (grows_abort c w).
  - destruct (negb (Number_isFinite t)); [apply extends_refl|].
    split; simpl; [done|lia].
Qed.

Lemma grows_cleanup cl : grows (run_cleanup cl).
Proof. intros w. by destruct cl. Qed.

Lemma grows_handleAsyncError {A} e thr (d : A) : grows (handleAsyncError e thr d).
Proof.
  intros w. unfold handleAsyncError.
  destruct (String.eqb (err_name e) "AbortError"); [destruct thr|]; apply extends_refl.
Qed.

Lemma grows_await c arrival : grows (await_signal c arrival).
Proof.
  intros w. unfold await_signal. destruct (signal_aborted c w); [apply extends_refl|].
  destruct (due_timer c arrival w); [|apply extends_refl].
  split; simpl; [|lia]. rewrite dom_insert. set_solver.
Qed.

Lemma grows_answer {A} (answer : completion A) : grows (fun w => (answer, w)).
Proof. intros w. apply extends_refl. Qed.

Lemma grows_worker_call {A} k (body : string → string → string → M A) regex s latency c :
  grows (worker_call k body regex s latency c).
Proof.
  unfold worker_call, call_worker.
  apply grows_bind; [apply grows_read|intros r].
  apply grows_bind; [apply grows_emit|intros _].
  apply grows_bind; [apply grows_await|intros _].
  apply grows_answer.
Qed.

Lemma grows_withAsyncTimeout {A} (f : nat → M A) timeout thr (d : A) :
  (∀ c, grows (f c)) → grows (withAsyncTimeout f timeout thr d).
Proof.
  intros Hf. unfold withAsyncTimeout.
  apply grows_bind; [apply grows_new_controller|intros c].
  apply grows_bind; [apply grows_handleAsyncTimeout|intros cl].
  apply grows_catch.
  - apply grows_bind; [apply Hf|intros a].
    apply grows_bind; [apply grows_cleanup|intros _; apply grows_ret].
  - intros e. apply grows_bind; [apply grows_cleanup|intros _; apply grows_handleAsyncError].
Qed.

Lemma grows_for_await call c cl worker arrival :
  grows (for_await_turn call c cl worker arrival).
Proof.
  intros w. unfold for_await_turn. unfold mbind at 1.
  pose proof (grows_await c arrival w) as H1.
  assert (∀ (x : IterResult Match * AsyncGenState) w1,
            extends w w1 → extends w ((let* _ := run_cleanup cl in mret x) w1).2) as Hret.
  { intros x w1 Hw1. eapply extends_trans; [exact Hw1|].
    apply (grows_bind (run_cleanup cl) (fun _ => mret x)); [apply grows_cleanup|].
    intros _. apply grows_ret. }
  assert (∀ e w1,
            extends w w1 →
            extends w ((let* _ := run_cleanup cl in
                        @mthrow (IterResult Match * AsyncGenState) e) w1).2) as Hthrow.
  { intros e w1 Hw1. eapply extends_trans; [exact Hw1|].
    apply (grows_bind (run_cleanup cl) (fun _ => mthrow e)); [apply grows_cleanup|].
    intros _. apply grows_throw. }
  assert (∀ e w1,
            extends w w1 →
            extends w
              (match handleAsyncError e (throwOnTimeout (ac_options call)) tt w1 with
               | (Normal _, w'') =>
                   (let* _ := run_cleanup cl in mret (@Done Match, AsyncCompleted)) w''
               | (Throw e0, w'') => (let* _ := run_cleanup cl in mthrow e0) w''
               end).2) as Herr.
  { intros e w1 Hw1.
    pose proof (grows_handleAsyncError e (throwOnTimeout (ac_options call)) tt w1) as H2.
    destruct (handleAsyncError e (throwOnTimeout (ac_options call)) tt w1) as [[[]|e'] w2];
      simpl in H2; [apply Hret|apply Hthrow]; by eapply extends_trans. }
  destruct (await_signal c arrival w) as [[[]|e] w1]; simpl in H1.
  - destruct (matchesWorker_next worker) as [[[m|]|e] worker'].
    + exact H1.
    + by apply Hret.
    + by apply Herr.
  - by apply Herr.
Qed.

Lemma grows_async_body call st arrival : grows (async_body call st arrival).
Proof.
  destruct st as [|c cl worker|]; simpl; [|apply grows_for_await|apply grows_ret].
  apply grows_bind; [apply grows_read|intros r].
  destruct (negb (global r)); [apply grows_throw|].
  apply grows_bind; [apply grows_new_controller|intros c].
  apply grows_bind; [apply grows_handleAsyncTimeout|intros cl].
  apply grows_bind; [apply grows_emit|intros _].
  apply grows_for_await.
Qed.

Lemma async_next_extends call st arrival w : extends w (async_next call st arrival w).2.
Proof.
  unfold async_next. pose proof (grows_async_body call st arrival w) as H.
  by destruct (async_body call st arrival w) as [[[r st']|e] w'].
Qed.

Lemma async_return_extends st w : extends w (async_return st w).2.
Proof.
  destruct st as [|c cl worker|]; simpl; [apply extends_refl| |apply extends_refl].
  apply (grows_bind (run_cleanup cl) (fun _ => mret AsyncCompleted)); [apply grows_cleanup|].
  intros _. apply grows_ret.
Qed.

Lemma consume_async_extends call arrivals : ∀ st w,
  extends w (async_leave (consume_async call st arrivals w).1.2
               (consume_async call st arrivals w).2).
Proof.
  induction arrivals as [|a rest IH]; intros st w.
  - apply async_return_extends.
  - simpl. pose proof (async_next_extends call st a w) as H.
    destruct (async_next call st a w) as [[[[m|]|e] st'] w']; simpl in *; [|done..].
    specialize (IH st' w').
    destruct (consume_async call st' rest w') as [[ms e] w'']. simpl in *.
    by eapply extends_trans.
Qed.

Lemma timers_ok_extends w w' :
  timers_ok w → extends w w' → timers w' = timers w → timers_ok w'.
Proof.
  intros Hok [Hdom Hnext] Ht. unfold timers_ok. rewrite Ht.
  eapply Forall_impl; [exact Hok|]. intros t [Hin Hlt]. split; [set_solver|lia].
Qed.

(** The worker call under a timer, followed by the cleanup. *)
Lemma worker_call_timers {A} pending k (body : string → string → string → M A)
    regex s latency c cl w :
  stream_timers pending c cl w →
  timers (run_cleanup cl (worker_call k body regex s latency c w).2).2 = pending.
Proof.
  intros Hst. unfold worker_call, call_worker. unfold mbind at 1. unfold read_regex at 1.
  destruct (heap w !! regex) as [r|]; [|by apply (run_cleanup_timers pending c)].
  unfold mbind at 1. unfold modify at 1.
  set (w2 := emit _ w).
  assert (stream_timers pending c cl w2) as Hst2 by exact Hst.
  pose proof (await_signal_timers pending c cl latency w2 Hst2) as H.
  unfold mbind. destruct (await_signal c latency w2) as [[[]|e] w3]; simpl.
  - subst w3. by apply (run_cleanup_timers pending c).
  - exact H.
Qed.

(** A settled call of [withAsyncTimeout] leaves the timers as they were. *)
Lemma withAsyncTimeout_timers {A} k (body : string → string → string → M A)
    regex s latency timeout thr (d : A) w :
  timers_ok w →
  timers (withAsyncTimeout (worker_call k body regex s latency) timeout thr d w).2 = timers w.
Proof.
  intros Hok. unfold withAsyncTimeout. unfold mbind at 1. unfold new_AbortController at 1.
  destruct (handleAsyncTimeout_stream timeout w Hok) as (cl & w1 & Hh & Hst).
  unfold mbind at 1. rewrite Hh. unfold try_catch. unfold mbind at 1.
  pose proof (worker_call_timers (timers w) k body regex s latency _ cl w1 Hst) as H.
  destruct (worker_call k body regex s latency _ w1) as [[a|e] w2]; simpl in H.
  - destruct (run_cleanup_normal cl w2) as [w3 Hc]. unfold mbind.
    rewrite Hc in H |- *. exact H.
  - destruct (run_cleanup_normal cl w2) as [w3 Hc]. unfold mbind.
    rewrite Hc in H |- *. unfold handleAsyncError.
    by destruct (String.eqb (err_name e) "AbortError"); [destruct thr|].
Qed.

(** The outcome of an isolated call depends on the world only through the
    regex it is given. *)
Lemma withAsyncTimeout_result {A} k (body : string → string → string → M A)
    regex s latency timeout thr (d : A) w r :
  heap w !! regex = Some r →
  timers_ok w →
  (withAsyncTimeout (worker_call k body regex s latency) timeout thr d w).1
  = async_outcome (isolated (body (source r) (flags r) s)) timeout latency thr d.
Proof.
  intros Hr Hok. unfold async_outcome.
  destruct (async_within timeout latency) eqn:Hin.
  - by apply withAsyncTimeout_within.
  - destruct timeout as [t|]; [|done]. unfold async_within in Hin.
    apply orb_false_iff in Hin as [_ Hin].
    destruct (js_le t (of_Z 0)) eqn:Hle.
    + destruct (withAsyncTimeout_nonpositive k body regex s latency t thr d w r Hr Hle)
        as (w' & -> & _). done.
    + cbn [negb andb] in Hin. apply orb_false_iff in Hin as [Hfin Hin].
      apply negb_false_iff in Hin.
      destruct t as [| | |q]; try done.
      assert (0 < q)%Q as Hq.
      { simpl in Hle. destruct (Qlt_le_dec 0 q) as [|Hq]; [done|].
        assert (Qle_bool q (inject_Z 0) = true) by (by apply Qle_bool_iff). congruence. }
      destruct (withAsyncTimeout_armed k body regex s latency q thr d w r Hr Hok Hq)
        as (w' & -> & _).
      by rewrite Hin.
Qed.

Lemma after_call_ok w c :
  timers_ok w →
  timers_ok (after_call w c) ∧ timers (after_call w c) = timers w ∧
  heap (after_call w c) = heap w.
Proof.
  intros Hok.
  assert (extends w (after_call w c) ∧ timers (after_call w c) = timers w ∧
          heap (after_call w c) = heap w) as (Hext & Ht & Hh).
  { destruct c as [regex s o latency|regex s o latency|regex s o arrivals]; simpl.
    - split; [|split].
      + rewrite isMatchAsync_unfold. apply grows_withAsyncTimeout.
        intros c. apply grows_worker_call.
      + rewrite isMatchAsync_unfold. by apply withAsyncTimeout_timers.
      + apply heap_stable_isMatchAsync.
    - split; [|split].
      + rewrite firstMatchAsync_unfold. apply grows_withAsyncTimeout.
        intros c. apply grows_worker_call.
      + rewrite firstMatchAsync_unfold. by apply withAsyncTimeout_timers.
      + apply heap_stable_firstMatchAsync.
    - split; [|split].
      + apply consume_async_extends.
      + by apply consume_async_timers.
      + destruct (consume_async (mkAsyncCall regex s o) AsyncSuspendedStart arrivals w)
          as [[ms e] w'] eqn:Hc. simpl.
        pose proof (consume_async_heap (mkAsyncCall regex s o) arrivals
                      AsyncSuspendedStart w) as Hheap.
        rewrite Hc in Hheap. simpl in Hheap.
        destruct e as [| |st]; simpl; [done|done|]. by rewrite async_return_heap. }
  split; [by apply (timers_ok_extends w)|done].
Qed.

Lemma after_calls_ok calls : ∀ w,
  timers_ok w →
  timers_ok (after_calls w calls) ∧ timers (after_calls w calls) = timers w ∧
  heap (after_calls w calls) = heap w.
Proof.
  induction calls as [|c calls IH]; intros w Hok; [done|].
  destruct (after_call_ok w c Hok) as (Hok1 & Ht1 & Hh1).
  destruct (IH (after_call w c) Hok1) as (Hok2 & Ht2 & Hh2).
  unfold after_calls in *. simpl. split; [done|]. split; congruence.
Qed.

(** X12: isolated calls do not disturb each other: after any operations
    of the isolated regime have been made and have settled (whether they
    answered, threw, timed out or were stopped early), no timer of theirs
    is pending, and [isMatchAsync] and [firstMatchAsync] give for a regex of
    the caller what they give when made first. *)
Theorem isolated_calls_do_not_interfere calls regex s o latency w r :
  heap w !! regex = Some r →
  timers_ok w →
  timers (after_calls w calls) = timers w ∧
  (isMatchAsync regex s o latency (after_calls w calls)).1
    = (isMatchAsync regex s o latency w).1 ∧
  (firstMatchAsync regex s o latency (after_calls w calls)).1
    = (firstMatchAsync regex s o latency w).1.
Proof.
  intros Hr Hok. destruct (after_calls_ok calls w Hok) as (Hok' & Ht & Hh).
  assert (heap (after_calls w calls) !! regex = Some r) as Hr' by (by rewrite Hh).
  split; [exact Ht|].
  rewrite !isMatchAsync_unfold, !firstMatchAsync_unfold.
  rewrite (withAsyncTimeout_result IsMatchWorker isMatchWorker regex s latency _ _ _ _ r Hr' Hok').
  rewrite (withAsyncTimeout_result IsMatchWorker isMatchWorker regex s latency _ _ _ _ r Hr Hok).
  rewrite (withAsyncTimeout_result FirstMatchWorker firstMatchWorker regex s latency
             _ _ _ _ r Hr' Hok').
  rewrite (withAsyncTimeout_result FirstMatchWorker firstMatchWorker regex s latency
             _ _ _ _ r Hr Hok).
  done.
Qed.

End Sequences.

Lemma isolated_calls_do_not_interfere_witness :
  timers (after_calls (engine := Fixture.engine) Fixture.world
            [CallIsMatch Fixture.digits "a1b22c333" (mkOptions (Some (of_Z 10)) None false) 50;
             CallMatches Fixture.digits "a1b22c333" (mkOptions (Some (of_Z 1000)) None false)
               [40; 41]%Q])
  = timers Fixture.world ∧
  (firstMatchAsync (engine := Fixture.engine) Fixture.test "test" noOptions 3
     (after_calls (engine := Fixture.engine) Fixture.world
        [CallIsMatch Fixture.digits "a1b22c333" (mkOptions (Some (of_Z 10)) None false) 50;
         CallMatches Fixture.digits "a1b22c333" (mkOptions (Some (of_Z 1000)) None false)
           [40; 41]%Q])).1
  = (firstMatchAsync (engine := Fixture.engine) Fixture.test "test" noOptions 3
       Fixture.world).1.
Proof.
  destruct (isolated_calls_do_not_interfere (engine := Fixture.engine)
              [CallIsMatch Fixture.digits "a1b22c333" (mkOptions (Some (of_Z 10)) None false) 50;
               CallMatches Fixture.digits "a1b22c333"
                 (mkOptions (Some (of_Z 1000)) None false) [40; 41]%Q]
              Fixture.test "test"%string noOptions 3%Q Fixture.world (mkRegExp "test" "" 0)
              eq_refl timers_ok_empty) as (H1 & _ & H3).
  exact (conj H1 H3).
Defined.

(** ** The two promise-returning operations *)

Section PromiseOperations.
Context {engine : Engine}.

Lemma isMatchWorker_is_firstMatchWorker src fl s :
  isolated (isMatchWorker src fl s)
  = completion_map found (isolated (firstMatchWorker src fl s)).
Proof.
  unfold isolated, isMatchWorker, firstMatchWorker, RegExp_test, mbind.
  destruct (new_RegExp src fl emptyWorld) as [[regex|e] w1]; [|done].
  by destruct (RegExp_exec regex s w1) as [[[res|]|e] w2].
Qed.

(** The outcome of [withAsyncTimeout] is what [settled] makes of the
    outcome of the worker function. *)
Lemma withAsyncTimeout_settled {A} (f : nat → M A) timeout thr (d : A) w :
  let c := fresh (dom (controllers w)) in
  ∃ cl w1,
    handleAsyncTimeout c timeout (set_controllers <[c:=false]> w) = (Normal cl, w1) ∧
    (withAsyncTimeout f timeout thr d w).1 = settled (f c w1).1 thr d.
Proof.
  intros c.
  destruct (handleAsyncTimeout_normal c timeout (set_controllers <[c:=false]> w))
    as (cl & w1 & Hh & _).
  exists cl, w1. split; [exact Hh|].
  unfold withAsyncTimeout. unfold mbind at 1. unfold new_AbortController at 1. fold c.
  unfold mbind at 1. rewrite Hh. unfold try_catch. unfold mbind at 1.
  destruct (f c w1) as [[a|e] w2]; simpl.
  - unfold mbind. by destruct (run_cleanup_normal cl w2) as [w3 ->].
  - unfold mbind. destruct (run_cleanup_normal cl w2) as [w3 ->].
    unfold handleAsyncError, timeout_outcome, mret, mthrow.
    by destruct (String.eqb (err_name e) "AbortError"); [destruct thr|].
Qed.

(** The outcome of a worker call: the kind of worker plays no part. *)
Lemma worker_call_outcome {A} k (body : string → string → string → M A) regex s latency c w :
  (worker_call k body regex s latency c w).1
  = match heap w !! regex with
    | None => Throw typeError
    | Some r =>
        match (await_signal c latency w).1 with
        | Normal _ => isolated (body (source r) (flags r) s)
        | Throw e => Throw e
        end
    end.
Proof.
  unfold worker_call, call_worker. unfold mbind at 1. unfold read_regex at 1.
  destruct (heap w !! regex) as [r|]; [|done].
  unfold mbind at 1. unfold modify at 1. unfold mbind, await_signal, signal_aborted, due_timer.
  simpl. destruct (default false (controllers w !! c)); [done|].
  by destruct (List.find _ (timers w)).
Qed.

(** X13: [isMatchAsync] answers whether [firstMatchAsync] finds a match:
    on the same regex, input, options and latency, in any world, it resolves
    to [true] where [firstMatchAsync] resolves to a match, to [false] where
    that resolves to [undefined], and rejects with the same error. *)
Theorem isMatchAsync_is_firstMatchAsync_found regex s o latency w :
  (isMatchAsync regex s o latency w).1
  = completion_map found (firstMatchAsync regex s o latency w).1.
Proof.
  rewrite isMatchAsync_unfold, firstMatchAsync_unfold.
  destruct (withAsyncTimeout_settled
              (worker_call IsMatchWorker isMatchWorker regex s latency)
              (timeout o) (throwOnTimeout o) false w) as (cl & w1 & Hh & ->).
  destruct (withAsyncTimeout_settled
              (worker_call FirstMatchWorker firstMatchWorker regex s latency)
              (timeout o) (throwOnTimeout o) None w) as (cl' & w1' & Hh' & ->).
  assert (w1' = w1) as -> by congruence.
  rewrite !worker_call_outcome.
  destruct (heap w1 !! regex) as [r|]; [|done].
  destruct (await_signal _ latency w1).1 as [[]|e].
  - rewrite isMatchWorker_is_firstMatchWorker.
    destruct (isolated (firstMatchWorker (source r) (flags r) s)) as [a|e]; [done|].
    unfold settled, timeout_outcome. simpl.
    by destruct (String.eqb (err_name e) "AbortError"); [destruct (throwOnTimeout o)|].
  - unfold settled, timeout_outcome.
    by destruct (String.eqb (err_name e) "AbortError"); [destruct (throwOnTimeout o)|].
Qed.

End PromiseOperations.


(** ** What [throwOnTimeout] changes *)

Section Report.
Context {engine : Engine}.

Lemma gen_next_yield_any_report it it' st t w m st' w' :
  it_regex it' = it_regex it → it_string it' = it_string it →
  it_timeout it' = it_timeout it → it_matchTimeout it' = it_matchTimeout it →
  gen_next it st t w = (Normal (Yield m), st', w') →
  gen_next it' st t w = (Normal (Yield m), st', w').
Proof.
  intros Hreg Hstr Htm Hmt.
  assert (∀ ms rem w0,
            gen_next it (GenSuspendedYield ms rem) t w0 = (Normal (Yield m), st', w') →
            gen_next it' (GenSuspendedYield ms rem) t w0 = (Normal (Yield m), st', w'))
    as Hyield.
  { intros ms rem w0 H.
    assert (budget_exhausted it' rem = budget_exhausted it rem) as Hex'
      by (unfold budget_exhausted; by rewrite Htm).
    assert (attempt_deadline it' rem = attempt_deadline it rem) as Hdl'
      by (unfold attempt_deadline; by rewrite Htm, Hmt).
    destruct (budget_exhausted it rem) eqn:Hex.
    { rewrite gen_next_exhausted in H by done. by destruct (it_throwOnTimeout it). }
    destruct (host_accepts (attempt_deadline it rem)) eqn:Hacc; cycle 1.
    { by rewrite gen_next_refused in H by done. }
    destruct (deadline_exceeded (attempt_deadline it rem) (runtime t)) eqn:Hdl.
    { rewrite gen_next_deadline in H by done. by destruct (it_throwOnTimeout it). }
    rewrite gen_next_on_time in H by done.
    rewrite gen_next_on_time by (by rewrite ?Hex', ?Hdl').
    destruct (RegExpStringIterator_next ms w0) as [[[[value|] ms']|e] w1]; [done|done|].
    by destruct (isTimeoutError e && negb (it_throwOnTimeout it)). }
  destruct st as [|ms rem|]; [|by apply Hyield|done].
  intros H.
  destruct (structuredClone (it_regex it) w) as [[clone|e] w1] eqn:Hc.
  - destruct (String_matchAll (it_string it) clone w1) as [[ms|e] w2] eqn:Hm.
    + rewrite (gen_next_start_general it t w clone w1 ms w2 Hc Hm) in H.
      rewrite <- Hreg in Hc. rewrite <- Hstr in Hm.
      rewrite (gen_next_start_general it' t w clone w1 ms w2 Hc Hm), Htm.
      by apply Hyield.
    + exfalso. apply (gen_next_start_fails it t w ltac:(intros; congruence) m).
      by rewrite H.
  - exfalso. apply (gen_next_start_fails it t w ltac:(intros; congruence) m).
    by rewrite H.
Qed.

Lemma consume_any_report it it' ts : ∀ st w,
  it_regex it' = it_regex it → it_string it' = it_string it →
  it_timeout it' = it_timeout it → it_matchTimeout it' = it_matchTimeout it →
  (consume it' st ts w).1.1 = (consume it st ts w).1.1.
Proof.
  induction ts as [|t ts IH]; intros st w Hreg Hstr Htm Hmt; [done|].
  simpl.
  destruct (gen_next it st t w) as [[[[m|]|e] st'] w'] eqn:H.
  - rewrite (gen_next_yield_any_report it it' st t w m st' w' Hreg Hstr Htm Hmt H).
    specialize (IH st' w' Hreg Hstr Htm Hmt).
    destruct (consume it st' ts w') as [[l1 e1] w1].
    destruct (consume it' st' ts w') as [[l2 e2] w2]. simpl in *. by rewrite IH.
  - destruct (gen_next it' st t w) as [[[[m|]|e] st'0] w'0] eqn:H'; [|done..].
    pose proof (gen_next_yield_any_report it' it st t w m st'0 w'0
                  (eq_sym Hreg) (eq_sym Hstr) (eq_sym Htm) (eq_sym Hmt) H').
    congruence.
  - destruct (gen_next it' st t w) as [[[[m|]|e'] st'0] w'0] eqn:H'; [|done..].
    pose proof (gen_next_yield_any_report it' it st t w m st'0 w'0
                  (eq_sym Hreg) (eq_sym Hstr) (eq_sym Htm) (eq_sym Hmt) H').
    congruence.
Qed.

Lemma async_next_yield_any_report regex s o o' st a w m st' w' :
  timeout o' = timeout o →
  async_next (mkAsyncCall regex s o) st a w = (Normal (Yield m), st', w') →
  async_next (mkAsyncCall regex s o') st a w = (Normal (Yield m), st', w').
Proof.
  intros Ho.
  set (call := mkAsyncCall regex s o). set (call' := mkAsyncCall regex s o').
  assert (∀ c cl worker w0,
            async_next call (AsyncSuspendedYield c cl worker) a w0
              = (Normal (Yield m), st', w') →
            async_next call' (AsyncSuspendedYield c cl worker) a w0
              = (Normal (Yield m), st', w')) as Hyield.
  { intros c cl worker w0. unfold async_next, async_body.
    destruct (for_await_turn call c cl worker a w0) as [[[x st1]|e] w1] eqn:Hf; [|done].
    intros [= -> -> ->].
    destruct (for_await_turn_yield call c cl worker a w0 m st' w' Hf)
      as (worker' & Hw & -> & -> & Hsig & Hdue).
    by rewrite (for_await_turn_quiet call' c cl worker a w0 Hsig Hdue), Hw. }
  destruct st as [|c cl worker|]; [|by apply Hyield|done].
  intros H.
  destruct (heap w !! regex) as [r|] eqn:Hr.
  - destruct (global r) eqn:Hg.
    + destruct (handleAsyncTimeout_normal (fresh (dom (controllers w))) (timeout o)
                  (set_controllers <[fresh (dom (controllers w)) := false]> w))
        as (cl & w1 & Hh & _).
      rewrite (async_next_start_general call a w r cl w1 Hr Hg Hh) in H.
      assert (handleAsyncTimeout (fresh (dom (controllers w))) (timeout (ac_options call'))
                (set_controllers <[fresh (dom (controllers w)) := false]> w)
              = (Normal cl, w1)) as Hh'
        by (subst call'; cbn [ac_options]; by rewrite Ho).
      rewrite (async_next_start_general call' a w r cl w1 Hr Hg Hh').
      by apply Hyield.
    + exfalso. revert H. unfold async_next, async_body.
      unfold mbind at 1. unfold read_regex at 1. subst call. cbn [ac_regex].
      by rewrite Hr, Hg.
  - exfalso. revert H. unfold async_next, async_body.
    unfold mbind at 1. unfold read_regex at 1. subst call. cbn [ac_regex].
    by rewrite Hr.
Qed.

Lemma consume_async_any_report regex s o o' arrivals : ∀ st w,
  timeout o' = timeout o →
  (consume_async (mkAsyncCall regex s o') st arrivals w).1.1
  = (consume_async (mkAsyncCall regex s o) st arrivals w).1.1.
Proof.
  induction arrivals as [|a rest IH]; intros st w Ho; [done|].
  simpl.
  destruct (async_next (mkAsyncCall regex s o) st a w) as [[[[m|]|e] st'] w'] eqn:H.
  - rewrite (async_next_yield_any_report regex s o o' st a w m st' w' Ho H).
    specialize (IH st' w' Ho).
    destruct (consume_async (mkAsyncCall regex s o) st' rest w') as [[l1 e1] w1].
    destruct (consume_async (mkAsyncCall regex s o') st' rest w') as [[l2 e2] w2].
    simpl in *. by rewrite IH.
  - destruct (async_next (mkAsyncCall regex s o') st a w) as [[[[m|]|e] st'0] w'0] eqn:H';
      [|done..].
    pose proof (async_next_yield_any_report regex s o' o st a w m st'0 w'0 (eq_sym Ho) H').
    congruence.
  - destruct (async_next (mkAsyncCall regex s o') st a w) as [[[[m|]|e'] st'0] w'0] eqn:H';
      [|done..].
    pose proof (async_next_yield_any_report regex s o' o st a w m st'0 w'0 (eq_sym Ho) H').
    congruence.
Qed.

Lemma settled_report {A} (x : completion A) (d : A) :
  lenient_report d (settled x true d) (settled x false d).
Proof.
  destruct x as [a|e]; [by left|]. unfold settled, timeout_outcome.
  destruct (String.eqb (err_name e) "AbortError"); [by right|by left].
Qed.

(** X14: [throwOnTimeout] changes only how a timeout is reported.  With
    the option off, [isMatch] and [firstMatch] give what they give with it
    on, except that a timeout error becomes [false] or [undefined];
    [isMatchAsync] and [firstMatchAsync] likewise give the same, or the
    default value where the other rejects with the timeout error; and a pass
    over [matches] or [matchesAsync] yields the same matches either way. *)
Theorem throwOnTimeout_only_changes_the_report regex s tm mt w :
  (∀ rt,
     (isMatch regex s (mkOptions tm mt false) rt w).1
       = soften false (isMatch regex s (mkOptions tm mt true) rt w).1 ∧
     (firstMatch regex s (mkOptions tm mt false) rt w).1
       = soften None (firstMatch regex s (mkOptions tm mt true) rt w).1) ∧
  (∀ a b st ts,
     (consume (mkIterable regex s a b false) st ts w).1.1
       = (consume (mkIterable regex s a b true) st ts w).1.1) ∧
  (∀ latency,
     lenient_report false (isMatchAsync regex s (mkOptions tm mt true) latency w).1
       (isMatchAsync regex s (mkOptions tm mt false) latency w).1 ∧
     lenient_report None (firstMatchAsync regex s (mkOptions tm mt true) latency w).1
       (firstMatchAsync regex s (mkOptions tm mt false) latency w).1) ∧
  (∀ st arrivals,
     (consume_async (mkAsyncCall regex s (mkOptions tm mt false)) st arrivals w).1.1
       = (consume_async (mkAsyncCall regex s (mkOptions tm mt true)) st arrivals w).1.1).
Proof.
  split; [|split; [|split]].
  - intros rt. rewrite !isMatch_run, !firstMatch_run. cbn [timeout throwOnTimeout].
    destruct (negb (host_accepts (normalizeTimeout tm))); [done|].
    destruct ((let* clone := structuredClone regex in RegExp_test clone s) w) as [r1 w1].
    destruct ((let* clone := structuredClone regex in RegExp_exec clone s) w) as [r2 w2].
    destruct (deadline_exceeded (normalizeTimeout tm) rt); [done|].
    split.
    + destruct r1 as [b|e]; [done|].
      destruct (isTimeoutError e) eqn:E; simpl; by rewrite E.
    + destruct r2 as [x|e]; [done|].
      destruct (isTimeoutError e) eqn:E; simpl; by rewrite E.
  - intros a b st ts. by apply consume_any_report.
  - intros latency. rewrite !isMatchAsync_unfold, !firstMatchAsync_unfold.
    cbn [timeout throwOnTimeout].
    split.
    + destruct (withAsyncTimeout_settled
                  (worker_call IsMatchWorker isMatchWorker regex s latency) tm true false w)
        as (cl & w1 & Hh & ->).
      destruct (withAsyncTimeout_settled
                  (worker_call IsMatchWorker isMatchWorker regex s latency) tm false false w)
        as (cl' & w1' & Hh' & ->).
      assert (w1' = w1) as -> by congruence. apply settled_report.
    + destruct (withAsyncTimeout_settled
                  (worker_call FirstMatchWorker firstMatchWorker regex s latency)
                  tm true None w) as (cl & w1 & Hh & ->).
      destruct (withAsyncTimeout_settled
                  (worker_call FirstMatchWorker firstMatchWorker regex s latency)
                  tm false None w) as (cl' & w1' & Hh' & ->).
      assert (w1' = w1) as -> by congruence. apply settled_report.
  - intros st arrivals. by apply consume_async_any_report.
Qed.

End Report.

(** ** The two regimes under any timeouts *)

Section Beginning.
Context {engine : Engine}.

Lemma on_time_unbounded it ts : on_time (unbounded it) PosInf ts = true.
Proof. induction ts as [|t ts IH]; [done|]. simpl. exact IH. Qed.

Lemma async_within_none arrivals : forallb (async_within None) arrivals = true.
Proof. by induction arrivals. Qed.

(** X15: whatever the timeouts and the times, a stream of [matchesAsync]
    yields a beginning of what [matches] yields without timeouts, for a
    pattern the worker compiles and an engine that answers every search. *)
Theorem stream_is_a_beginning_of_matches regex s o w r info it ts arrivals :
  heap w !! regex = Some r →
  compile (source r) (flags r) = Normal info →
  search_completes (source r) (flags r) s →
  timers_ok w →
  (matches regex s o w).1 = Normal it →
  length ts = length arrivals →
  (consume_async (mkAsyncCall regex s o) AsyncSuspendedStart arrivals w).1.1
    `prefix_of` (consume (unbounded it) (Symbol_iterator (unbounded it)) ts w).1.1.
Proof.
  intros Hr Hc Hcomp Hok Hit Hlen.
  destruct (matches_iterable regex s o w it Hit) as (Hreg & Hstr & _ & _ & Hthr & r' & Hr' & Hg).
  assert (r' = r) as -> by congruence.
  set (o' := mkOptions None None (throwOnTimeout o)).
  assert ((matches regex s o' w).1 = Normal (unbounded it)) as Hit'.
  { unfold matches, mbind, read_regex. rewrite Hr, Hg. simpl.
    unfold unbounded. by rewrite Hreg, Hstr, Hthr. }
  destruct (streams_agree regex s o' w r info (unbounded it) ts arrivals Hr Hc Hcomp Hok
              Hit' Hlen (on_time_unbounded it ts) (async_within_none arrivals)) as [-> _].
  by apply consume_async_start_cut_short.
Qed.

End Beginning.

Lemma stream_is_a_beginning_of_matches_witness :
  (consume_async (engine := Fixture.engine)
     (mkAsyncCall Fixture.digits "a1b22c333" (mkOptions (Some (of_Z 41)) None false))
     AsyncSuspendedStart [40; 42; 43]%Q Fixture.world).1.1
    `prefix_of`
  (consume (engine := Fixture.engine)
     (mkIterable Fixture.digits "a1b22c333" PosInf PosInf false) GenSuspendedStart
     [mkTiming 1 2; mkTiming 1 2; mkTiming 1 2] Fixture.world).1.1.
Proof.
  exact (stream_is_a_beginning_of_matches (engine := Fixture.engine) Fixture.digits
           "a1b22c333" (mkOptions (Some (of_Z 41)) None false) Fixture.world
           (mkRegExp "\d+" "g" 4) (mkPatternInfo 0 [])
           (mkIterable Fixture.digits "a1b22c333" (of_Z 41) PosInf false)
           [mkTiming 1 2; mkTiming 1 2; mkTiming 1 2] [40; 42; 43]%Q
           eq_refl eq_refl (Fixture_search_completes _ _ _) timers_ok_empty eq_refl eq_refl).
Defined.


(** ** The isolated regime and [lastIndex] *)

Section Oblivious.
Context {engine : Engine}.

Lemma oblivious_ret {A} (a : A) : oblivious (mret a).
Proof. done. Qed.

Lemma oblivious_throw {A} e : oblivious (@mthrow A e).
Proof. done. Qed.

Lemma oblivious_bind {A B} (m : M A) (k : A → M B) :
  oblivious m → (∀ a, oblivious (k a)) → oblivious (mbind m k).
Proof.
  intros Hm Hk f w. unfold mbind. rewrite Hm.
  destruct (m w) as [[a|e] w']; simpl; [apply Hk|done].
Qed.

Lemma oblivious_catch {A} (m : M A) (h : JsError → M A) :
  oblivious m → (∀ e, oblivious (h e)) → oblivious (try_catch m h).
Proof.
  intros Hm Hh f w. unfold try_catch. rewrite Hm.
  destruct (m w) as [[a|e] w']; simpl; [done|apply Hh].
Qed.

Lemma oblivious_emit ev : oblivious (modify (emit ev)).
Proof. done. Qed.

Lemma oblivious_new_controller : oblivious new_AbortController.
Proof. done. Qed.

Lemma oblivious_handleAsyncTimeout c timeout : oblivious (handleAsyncTimeout c timeout).
Proof.
  intros f w. unfold handleAsyncTimeout.
  destruct timeout as [t|]; [|done].
  destruct (Number_isNaN t); [done|].
  destruct (js_le t (of_Z 0)); simpl; [done|].
  by destruct (negb (Number_isFinite t)).
Qed.

Lemma oblivious_cleanup cl : oblivious (run_cleanup cl).
Proof. by destruct cl. Qed.

Lemma oblivious_handleAsyncError {A} e thr (d : A) : oblivious (handleAsyncError e thr d).
Proof.
  intros f w. unfold handleAsyncError.
  by destruct (String.eqb (err_name e) "AbortError"); [destruct thr|].
Qed.

Lemma oblivious_await c arrival : oblivious (await_signal c arrival).
Proof.
  intros f w. unfold await_signal, signal_aborted, due_timer. simpl.
  destruct (default false (controllers w !! c)); [done|].
  by destruct (List.find _ (timers w)).
Qed.

Lemma oblivious_for_await call c cl worker arrival :
  oblivious (for_await_turn call c cl worker arrival).
Proof.
  intros f w. unfold for_await_turn.
  match goal with
  | |- context [mbind (await_signal c arrival) ?k] =>
      set (pulled := mbind (await_signal c arrival) k)
  end.
  assert (oblivious pulled) as Hpulled.
  { apply oblivious_bind; [apply oblivious_await|]. intros _ f' w'.
    by destruct (matchesWorker_next worker) as [[r|e] worker']. }
  assert (∀ (x : IterResult Match * AsyncGenState),
            oblivious (let* _ := run_cleanup cl in mret x)) as Hret.
  { intros x. apply oblivious_bind; [apply oblivious_cleanup|]. intros _. apply oblivious_ret. }
  assert (∀ e, oblivious (let* _ := run_cleanup cl in
                          @mthrow (IterResult Match * AsyncGenState) e)) as Hthrow.
  { intros e. apply oblivious_bind; [apply oblivious_cleanup|]. intros _.
    apply oblivious_throw. }
  assert (∀ e w1,
    match handleAsyncError e (throwOnTimeout (ac_options call)) tt (set_heap f w1) with
    | (Normal _, w'') => (let* _ := run_cleanup cl in mret (@Done Match, AsyncCompleted)) w''
    | (Throw e0, w'') => (let* _ := run_cleanup cl in mthrow e0) w''
    end
    = ((match handleAsyncError e (throwOnTimeout (ac_options call)) tt w1 with
        | (Normal _, w'') =>
            (let* _ := run_cleanup cl in mret (@Done Match, AsyncCompleted)) w''
        | (Throw e0, w'') => (let* _ := run_cleanup cl in mthrow e0) w''
        end).1,
       set_heap f
         (match handleAsyncError e (throwOnTimeout (ac_options call)) tt w1 with
          | (Normal _, w'') =>
              (let* _ := run_cleanup cl in mret (@Done Match, AsyncCompleted)) w''
          | (Throw e0, w'') => (let* _ := run_cleanup cl in mthrow e0) w''
          end).2)) as Herr.
  { intros e w1. rewrite (oblivious_handleAsyncError e _ tt f w1).
    destruct (handleAsyncError e (throwOnTimeout (ac_options call)) tt w1) as [[[]|e'] w2];
      simpl; [apply Hret|apply Hthrow]. }
  rewrite (Hpulled f w).
  destruct (pulled w) as [[[[m|] worker']|e] w1]; simpl; [done|apply Hret|apply Herr].
Qed.

Lemma async_next_oblivious call st a f w :
  st ≠ AsyncSuspendedStart →
  async_next call st a (set_heap f w)
  = ((async_next call st a w).1, set_heap f (async_next call st a w).2).
Proof.
  intros Hst. destruct st as [|c cl worker|]; [done| |done].
  unfold async_next, async_body. rewrite (oblivious_for_await call c cl worker a f w).
  by destruct (for_await_turn call c cl worker a w) as [[[r st']|e] w'].
Qed.

Lemma async_next_not_start call st a w :
  st ≠ AsyncSuspendedStart →
  (async_next call st a w).1.2 ≠ AsyncSuspendedStart.
Proof.
  intros Hst. destruct st as [|c cl worker|]; [done| |done].
  unfold async_next, async_body.
  destruct (for_await_turn call c cl worker a w) as [[[[m|] st']|e] w'] eqn:Hf; [|simpl..].
  - by destruct (for_await_turn_yield call c cl worker a w m st' w' Hf)
      as (worker' & _ & -> & _).
  - revert Hf. unfold for_await_turn. unfold mbind at 1.
    destruct (await_signal c a w) as [[[]|e] w1].
    + destruct (matchesWorker_next worker) as [[[m|]|e] worker']; [done| |].
      * unfold mbind. destruct (run_cleanup_normal cl w1) as [w2 ->]. by intros [= <- <-].
      * unfold handleAsyncError, mret, mthrow, mbind.
        destruct (String.eqb (err_name e) "AbortError");
          [destruct (throwOnTimeout (ac_options call))|];
          destruct (run_cleanup_normal cl w1) as [w2 ->]; try done; by intros [= <- <-].
    + unfold handleAsyncError, mret, mthrow, mbind.
      destruct (String.eqb (err_name e) "AbortError");
        [destruct (throwOnTimeout (ac_options call))|];
        destruct (run_cleanup_normal cl w1) as [w2 ->]; try done; by intros [= <- <-].
  - done.
Qed.

Lemma consume_async_oblivious call arrivals f : ∀ st w,
  st ≠ AsyncSuspendedStart →
  (consume_async call st arrivals (set_heap f w)).1
  = (consume_async call st arrivals w).1.
Proof.
  induction arrivals as [|a rest IH]; intros st w Hst; [done|].
  simpl. rewrite (async_next_oblivious call st a f w Hst).
  pose proof (async_next_not_start call st a w Hst) as Hst'.
  destruct (async_next call st a w) as [[[[m|]|e] st'] w']; simpl in *; [|done..].
  specialize (IH st' w' Hst').
  destruct (consume_async call st' rest (set_heap f w')) as [[l1 e1] w1].
  destruct (consume_async call st' rest w') as [[l2 e2] w2].
  simpl in *. by injection IH as -> ->.
Qed.

(** X16: the isolated regime ignores [lastIndex] too: whatever the
    [lastIndex] of the caller's regex, [isMatchAsync] and [firstMatchAsync]
    settle the same way, and a pass over [matchesAsync] yields the same
    matches and ends the same way. *)
Theorem isolated_regime_ignores_lastIndex regex s o w r i :
  heap w !! regex = Some r →
  (∀ latency,
     (isMatchAsync regex s o latency (set_heap <[regex := with_lastIndex r i]> w)).1
       = (isMatchAsync regex s o latency w).1 ∧
     (firstMatchAsync regex s o latency (set_heap <[regex := with_lastIndex r i]> w)).1
       = (firstMatchAsync regex s o latency w).1) ∧
  (∀ arrivals,
     (consume_async (mkAsyncCall regex s o) AsyncSuspendedStart arrivals
        (set_heap <[regex := with_lastIndex r i]> w)).1
     = (consume_async (mkAsyncCall regex s o) AsyncSuspendedStart arrivals w).1).
Proof.
  intros Hr.
  set (f := <[regex := with_lastIndex r i]>).
  set (c := fresh (dom (controllers w))).
  destruct (handleAsyncTimeout_normal c (timeout o) (set_controllers <[c:=false]> w))
    as (cl & w1 & Hh & Hheap).
  assert (handleAsyncTimeout c (timeout o) (set_controllers <[c:=false]> (set_heap f w))
          = (Normal cl, set_heap f w1)) as Hh'.
  { change (set_controllers <[c:=false]> (set_heap f w))
      with (set_heap f (set_controllers <[c:=false]> w)).
    by rewrite (oblivious_handleAsyncTimeout c (timeout o) f), Hh. }
  assert (heap w1 !! regex = Some r) as Hr1 by (by rewrite Hheap).
  assert (heap (set_heap f w1) !! regex = Some (with_lastIndex r i)) as Hr1'
    by (simpl; apply lookup_insert_eq).
  assert (heap (set_heap f w) !! regex = Some (with_lastIndex r i)) as Hr'
    by (simpl; apply lookup_insert_eq).
  split.
  - intros latency. rewrite !isMatchAsync_unfold, !firstMatchAsync_unfold.
    assert (∀ A k (body : string → string → string → M A) (d : A),
              (withAsyncTimeout (worker_call k body regex s latency) (timeout o)
                 (throwOnTimeout o) d (set_heap f w)).1
              = (withAsyncTimeout (worker_call k body regex s latency) (timeout o)
                   (throwOnTimeout o) d w).1) as Hsame.
    { intros A k body d.
      destruct (withAsyncTimeout_settled (worker_call k body regex s latency) (timeout o)
                  (throwOnTimeout o) d w) as (cl0 & w0 & Hh0 & ->).
      destruct (withAsyncTimeout_settled (worker_call k body regex s latency) (timeout o)
                  (throwOnTimeout o) d (set_heap f w)) as (cl0' & w0' & Hh0' & ->).
      fold c in Hh0. change (fresh (dom (controllers (set_heap f w)))) with c in Hh0' |- *.
      assert (w0 = w1) as -> by congruence.
      assert (w0' = set_heap f w1) as -> by congruence.
      rewrite !worker_call_outcome, Hr1, Hr1'.
      by rewrite (oblivious_await c latency f w1). }
    split; apply Hsame.
  - intros [|a rest]; [done|].
    set (call := mkAsyncCall regex s o).
    destruct (global r) eqn:Hg.
    + change (consume_async call AsyncSuspendedStart (a :: rest) w) with
        (match async_next call AsyncSuspendedStart a w with
         | (Normal (Yield m), st', w') =>
             let '(ms, e, w'') := consume_async call st' rest w' in (m :: ms, e, w'')
         | (Normal Done, _, w') => ([], AsyncExhausted, w')
         | (Throw e, _, w') => ([], AsyncFailed e, w')
         end).
      change (consume_async call AsyncSuspendedStart (a :: rest) (set_heap f w)) with
        (match async_next call AsyncSuspendedStart a (set_heap f w) with
         | (Normal (Yield m), st', w') =>
             let '(ms, e, w'') := consume_async call st' rest w' in (m :: ms, e, w'')
         | (Normal Done, _, w') => ([], AsyncExhausted, w')
         | (Throw e, _, w') => ([], AsyncFailed e, w')
         end).
      rewrite (async_next_start_general call a w r cl w1 Hr Hg Hh).
      rewrite (async_next_start_general call a (set_heap f w) (with_lastIndex r i) cl
                 (set_heap f w1) Hr' Hg Hh').
      apply (consume_async_oblivious call (a :: rest) f
               (AsyncSuspendedYield c cl (WorkerStart (source r) (flags r) s))
               (emit (EvDispatch MatchesWorker (source r) (flags r) s c) w1)).
      done.
    + simpl. subst call.
      rewrite (async_next_without_global regex s o a w r Hr Hg).
      by rewrite (async_next_without_global regex s o a (set_heap f w) (with_lastIndex r i)
                    Hr' Hg).
Qed.

End Oblivious.

Lemma isolated_regime_ignores_lastIndex_witness :
  (firstMatchAsync (engine := Fixture.engine) Fixture.digits "a1b22c333" noOptions 3
     (set_heap <[Fixture.digits := with_lastIndex (mkRegExp "\d+" "g" 4) 7]> Fixture.world)).1
  = (firstMatchAsync (engine := Fixture.engine) Fixture.digits "a1b22c333" noOptions 3
       Fixture.world).1 ∧
  (consume_async (engine := Fixture.engine)
     (mkAsyncCall Fixture.digits "a1b22c333" noOptions) AsyncSuspendedStart [1; 2; 3]%Q
     (set_heap <[Fixture.digits := with_lastIndex (mkRegExp "\d+" "g" 4) 7]> Fixture.world)).1
  = (consume_async (engine := Fixture.engine)
       (mkAsyncCall Fixture.digits "a1b22c333" noOptions) AsyncSuspendedStart [1; 2; 3]%Q
       Fixture.world).1.
Proof.
  destruct (isolated_regime_ignores_lastIndex (engine := Fixture.engine) Fixture.digits
              "a1b22c333"%string noOptions Fixture.world (mkRegExp "\d+" "g" 4) 7%nat eq_refl)
    as [H1 H2].
  exact (conj (proj2 (H1 3%Q)) (H2 [1; 2; 3]%Q)).
Defined.


(** ** The first release and the present one *)

Section FirstRelease.
Context {engine : Engine}.







Lemma pure_pass_ends n : ∀ r s,
  search_progress (source r) (flags r) s →
  (matches_left r s < n)%nat →
  (pure_pass r s n).2 = true.
Proof.
  induction n as [|n IH]; intros r s Hprog Hlt; [lia|].
  simpl. destruct (step_result (matcher_step r s)) as [[raw|]|e] eqn:Hres; [|done..].
  pose proof (matcher_step_forward r s raw Hprog Hres) as Hfw.
  destruct (matcher_step_pattern r s) as [Hsrc Hfl].
  specialize (IH (step_matcher (matcher_step r s)) s).
  destruct (pure_pass (step_matcher (matcher_step r s)) s n) as [ms e]. simpl in *.
  apply IH; [by rewrite Hsrc, Hfl|lia].
Qed.

(** Collecting the matches of an iterator whose searches all answer. *)
Lemma spread_pure fuel : ∀ ms w r,
  rsi_done ms = false →
  heap w !! rsi_matcher ms = Some r → global r = true →
  search_completes (source r) (flags r) (rsi_string ms) →
  ∃ x w',
    V1.spread fuel ms w = (Normal x, w') ∧
    List.map resultToMatch <$> x
    = if (pure_pass r (rsi_string ms) fuel).2
      then Some (pure_pass r (rsi_string ms) fuel).1 else None.
Proof.
  induction fuel as [|fuel IH]; intros ms w r Hd Hr Hg Hcomp; [by eexists _, _|].
  simpl. unfold mbind at 1.
  rewrite (RegExpStringIterator_next_run ms w r Hr Hg Hd).
  destruct (step_result (matcher_step r (rsi_string ms))) as [[raw|]|e] eqn:Hres.
  - destruct (matcher_step_pattern r (rsi_string ms)) as [Hsrc Hfl].
    destruct (IH ms (apply_step (rsi_matcher ms) (matcher_step r (rsi_string ms)) w)
                (step_matcher (matcher_step r (rsi_string ms))) Hd) as (x & w' & Hsp & Hx).
    + simpl. apply lookup_insert_eq.
    + unfold global in *. by rewrite Hfl.
    + by rewrite Hsrc, Hfl.
    + simpl. unfold mbind. rewrite Hsp. eexists _, _. split; [reflexivity|].
      destruct (pure_pass (step_matcher (matcher_step r (rsi_string ms))) (rsi_string ms) fuel)
        as [l e]. simpl in *.
      destruct x as [raws|]; destruct e; simpl in *; try done. by injection Hx as ->.
  - by eexists _, _.
  - exfalso. apply matcher_step_throw in Hres.
    destruct (Hcomp (lastIndex r)) as [res Hs]. congruence.
Qed.

(** X18: [matches] of the first release gives every match or none.  A
    deadline the host does not take (above 2^32 - 1 ms) makes the call throw
    the host's [RangeError] before anything runs.  With a deadline the host
    takes: when the guarded call passes it the result is the empty array,
    whatever was found; on a regex without the global flag the call throws the
    [TypeError] of [matchAll]; and otherwise, for a regex with [lastIndex] 0
    and an engine that answers every search and finds its matches at or after
    the offset it searches from, more advances than the input has offsets
    collect exactly the matches a pass over the present [matches] yields
    without timeouts. *)
Theorem first_release_matches_all_or_nothing regex s timeout rt fuel w r :
  heap w !! regex = Some r →
  (host_accepts (V1.vm_timeout timeout) = false →
   V1.matches regex s timeout rt fuel w = (Throw rangeError, w)) ∧
  (host_accepts (V1.vm_timeout timeout) = true →
   deadline_exceeded (V1.vm_timeout timeout) rt = true →
   (V1.matches regex s timeout rt fuel w).1 = Normal (Some [])) ∧
  (host_accepts (V1.vm_timeout timeout) = true →
   deadline_exceeded (V1.vm_timeout timeout) rt = false → global r = false →
   (V1.matches regex s timeout rt fuel w).1 = Throw nonGlobalTypeError) ∧
  (host_accepts (V1.vm_timeout timeout) = true →
   deadline_exceeded (V1.vm_timeout timeout) rt = false → global r = true →
   lastIndex r = 0%nat →
   search_completes (source r) (flags r) s →
   search_progress (source r) (flags r) s →
   (S (String.length s) < fuel)%nat →
   ∀ ts, length ts = fuel →
     (V1.matches regex s timeout rt fuel w).1
     = Normal (Some (consume (mkIterable regex s PosInf PosInf false) GenSuspendedStart
                       ts w).1.1)).
Proof.
  intros Hr. split; [|split; [|split]].
  - intros Hacc. unfold V1.matches, try_catch, functionTimeout. unfold mbind at 1.
    by rewrite Hacc.
  - intros Hacc Hdl. unfold V1.matches, try_catch, functionTimeout. unfold mbind at 1.
    rewrite Hacc. cbn [negb].
    destruct ((let* ms := String_matchAll s regex in V1.spread fuel ms) w) as [x w'].
    by rewrite Hdl.
  - intros Hacc Hdl Hg. unfold V1.matches, try_catch, functionTimeout. unfold mbind at 1.
    rewrite Hacc. cbn [negb].
    unfold mbind at 1. unfold String_matchAll. unfold mbind at 1. unfold read_regex at 1.
    rewrite Hr, Hg. simpl. by rewrite Hdl.
  - intros Hacc Hdl Hg H0 Hcomp Hprog Hfuel ts Hlen.
    set (it := mkIterable regex s PosInf PosInf false).
    set (r0 := mkRegExp (source r) (flags r) 0).
    (* the present pass *)
    destruct ts as [|t ts]; [simpl in Hlen; lia|].
    assert ((consume it GenSuspendedStart (t :: ts) w).1.1
            = (pure_pass r0 s (length (t :: ts))).1) as Hnow.
    { rewrite (consume_start it t ts w r Hr Hg).
      destruct (sync_pass_pure it (t :: ts) (started it r w).1 (it_timeout it)
                  (started it r w).2 r0) as [H1 _]; try done.
      - simpl. apply lookup_insert_eq.
      - apply (on_time_unbounded it (t :: ts)). }
    rewrite Hnow, Hlen.
    (* the first release *)
    unfold V1.matches, try_catch, functionTimeout. unfold mbind at 1.
    rewrite Hacc. cbn [negb].
    unfold mbind at 1. unfold String_matchAll. unfold mbind at 1. unfold read_regex at 1.
    rewrite Hr, Hg. cbn [negb]. unfold mbind at 1. unfold alloc_regex at 1.
    rewrite H0. fold r0.
    set (matcher := fresh (dom (heap w))).
    destruct (spread_pure fuel (mkRSI matcher s false) (set_heap <[matcher := r0]> w) r0)
      as (x & w' & Hsp & Hx); try done.
    { simpl. apply lookup_insert_eq. }
    unfold mret at 1. rewrite Hsp, Hdl. simpl. simpl in Hx. rewrite Hx.
    by rewrite (pure_pass_ends fuel r0 s Hprog) by (unfold matches_left; simpl; lia).
Qed.

End FirstRelease.


Lemma first_release_matches_all_or_nothing_witness :
  V1.matches (engine := Fixture.engine) Fixture.digits "a1b22c333"
    (Some 4294967296%positive) 3 20 Fixture.world = (Throw rangeError, Fixture.world) ∧
  (V1.matches (engine := Fixture.engine) Fixture.digits "a1b22c333" (Some 10%positive) 11 20
     Fixture.world).1 = Normal (Some []) ∧
  (V1.matches (engine := Fixture.engine) Fixture.test "test" None 1 20 Fixture.world).1
  = Throw nonGlobalTypeError ∧
  (V1.matches (engine := Fixture.engine) Fixture.digits "a1b22c333" (Some 10%positive) 3 11
     (set_heap <[Fixture.digits := mkRegExp "\d+" "g" 0]> Fixture.world)).1
  = Normal (Some (consume (engine := Fixture.engine)
                    (mkIterable Fixture.digits "a1b22c333" PosInf PosInf false)
                    GenSuspendedStart (replicate 11 (mkTiming 1 1))
                    (set_heap <[Fixture.digits := mkRegExp "\d+" "g" 0]> Fixture.world)).1.1).
Proof.
  split; [|split; [|split]].
  - exact (proj1 (first_release_matches_all_or_nothing (engine := Fixture.engine)
                    Fixture.digits "a1b22c333"%string (Some 4294967296%positive) 3%Q 20%nat
                    Fixture.world (mkRegExp "\d+" "g" 4) eq_refl) eq_refl).
  - exact (proj1 (proj2 (first_release_matches_all_or_nothing (engine := Fixture.engine)
                           Fixture.digits "a1b22c333"%string (Some 10%positive) 11%Q 20%nat
                           Fixture.world (mkRegExp "\d+" "g" 4) eq_refl)) eq_refl eq_refl).
  - exact (proj1 (proj2 (proj2 (first_release_matches_all_or_nothing
                                  (engine := Fixture.engine)
                                  Fixture.test "test"%string None 1%Q 20%nat
                                  Fixture.world (mkRegExp "test" "" 0) eq_refl)))
             eq_refl eq_refl eq_refl).
  - refine (proj2 (proj2 (proj2 (first_release_matches_all_or_nothing
                                   (engine := Fixture.engine)
                                   Fixture.digits "a1b22c333"%string (Some 10%positive) 3%Q
                                   11%nat
                                   (set_heap <[Fixture.digits := mkRegExp "\d+" "g" 0]>
                                      Fixture.world)
                                   (mkRegExp "\d+" "g" 0) eq_refl)))
                   eq_refl eq_refl eq_refl eq_refl (Fixture_search_completes _ _ _)
                   (Fixture_search_progress _ _ _) _
                   (replicate 11 (mkTiming 1 1)) eq_refl).
    simpl. lia.
Defined.
